(** * educe: feature extraction for the RST discourse treebank

    A shallow embedding of [educe/rst_dt/learning/features.py] and of
    [educe/learning/vocabulary_format.py], with the properties of the
    feature-extraction pipeline stated over it.

    Conventions.
    - Python integers are unbounded: [Z].
    - A Python string is a [string], one [ascii] per character, the
      character being the one with that code point: the texts of the
      model are the strings of Python 3 whose code points are below 256.
      The character classes are those of [str.split] and [str.lower] on
      that range.
    - Objects that the program mutates or shares (key groups, the
      single-unit cache) live in a store and are named by their address.
    - An exception is a value of [exn]; a computation that may raise
      returns its outcome together with the store it leaves behind. *)

From Stdlib Require Import ZArith String Ascii List Lia Permutation Sorted.
From Stdlib Require Import DecimalString DecimalZ.
From stdpp Require Import base option list gmap strings.

Set Warnings "-register-all".

Local Open Scope Z_scope.
Local Open Scope string_scope.

(* ===================================================================== *)
(** * Python values *)
(* ===================================================================== *)

(** The values a feature function returns and a key group stores. *)
Inductive pyval : Type :=
| VNone
| VBool (b : bool)
| VInt (z : Z)
| VStr (s : string).

#[global] Instance pyval_eq_dec : EqDecision pyval.
Proof. solve_decision. Defined.

(** The exceptions the modelled code can raise. *)
Inductive exn : Type :=
| KeyError
| TypeError
| AttributeError
| UnboundLocalError (name : string).

#[global] Instance exn_eq_dec : EqDecision exn.
Proof. solve_decision. Defined.

(* ===================================================================== *)
(** * String primitives *)
(* ===================================================================== *)

Module PyStr.

(** [c.isspace()], the characters [str.split] splits on, among the
    code points below 256: tab, newline, vertical tab, form feed and
    carriage return (9 to 13), the four separators 28 to 31, the space
    (32), the next-line control (133) and the no-break space (160). *)
Definition isspace (c : ascii) : bool :=
  let n := N_of_ascii c in
  ((9 <=? n)%N && (n <=? 13)%N) || ((28 <=? n)%N && (n <=? 32)%N)
  || (n =? 133)%N || (n =? 160)%N.

(** [str.lower] on one character, among the code points below 256:
    the letters A to Z (65 to 90) and the accented capitals 192 to 222
    other than the multiplication sign (215) have a lower case, 32
    further on; every other character is kept. *)
Definition lower_char (c : ascii) : ascii :=
  let n := N_of_ascii c in
  if ((65 <=? n)%N && (n <=? 90)%N)
     || ((192 <=? n)%N && (n <=? 214)%N)
     || ((216 <=? n)%N && (n <=? 222)%N)
  then ascii_of_N (n + 32) else c.

Fixpoint lower (s : string) : string :=
  match s with
  | EmptyString => EmptyString
  | String c r => String (lower_char c) (lower r)
  end.

(** [s.split()]: maximal runs of characters that are not whitespace,
    in order.  [word] is the run being read, most recent character
    first; it is empty exactly when no run is open. *)
Fixpoint split_go (word : string) (s : string) : list string :=
  match s with
  | EmptyString =>
      match word with
      | EmptyString => []
      | _ => [String.rev word]
      end
  | String c r =>
      if isspace c then
        match word with
        | EmptyString => split_go EmptyString r
        | _ => String.rev word :: split_go EmptyString r
        end
      else split_go (String c word) r
  end.

Definition split (s : string) : list string := split_go EmptyString s.

(** [str(n)] for an integer. *)
Definition of_int (n : Z) : string := NilZero.string_of_int (Z.to_int n).

(** [int(s)], where it is defined. *)
Definition to_int (s : string) : option Z :=
  match NilZero.int_of_string s with
  | Some d => Some (Z.of_int d)
  | None => None
  end.

(** [os.path.basename]: what follows the last slash.  [seen] is the
    component being read, most recent character first. *)
Fixpoint basename_go (seen : string) (p : string) : string :=
  match p with
  | EmptyString => String.rev seen
  | String c r =>
      if Ascii.eqb c "/" then basename_go EmptyString r
      else basename_go (String c seen) r
  end.

Definition basename (p : string) : string := basename_go EmptyString p.

End PyStr.

(* ===================================================================== *)
(** * The regular expressions of [clean_edu_text] *)
(* ===================================================================== *)

Module Re.

(** The greedy run [(\.|<P>|,)*] read from the start of [s]: what is
    left of [s] after it.  The three alternatives start with different
    characters, so the run is read without backtracking. *)
Fixpoint skip_markup (s : string) : string :=
  match s with
  | EmptyString => s
  | String c r =>
      if Ascii.eqb c "." || Ascii.eqb c "," then skip_markup r
      else
        match r with
        | String c2 (String c3 r') =>
            if Ascii.eqb c "<" && Ascii.eqb c2 "P" && Ascii.eqb c3 ">"
            then skip_markup r'
            else s
        | _ => s
        end
  end.

(** [$] without MULTILINE: at the end of the string, or just before a
    newline that ends the string. *)
Definition at_dollar (s : string) : bool :=
  match s with
  | EmptyString => true
  | String c EmptyString => Ascii.eqb c "010"
  | _ => false
  end.

(** [re.sub(r'(\.|<P>|,)*$', r'', s)].  The scan tries each start
    position from the left; the first one from which the run reaches
    [$] is the match, and it is replaced by the empty string.  What
    follows the match (nothing, or the final newline) only has empty
    matches, whose replacement changes nothing. *)
Fixpoint sub_trailing_markup (s : string) : string :=
  if at_dollar (skip_markup s) then skip_markup s
  else
    match s with
    | EmptyString => EmptyString
    | String c r => String c (sub_trailing_markup r)
    end.

(** The second substitution of [clean_edu_text]: a double quote
    (character 34) is removed when it comes first; [^] only matches at the
    start of the string. *)
Definition sub_leading_quote (s : string) : string :=
  match s with
  | String c r => if Ascii.eqb c "034" then r else s
  | EmptyString => s
  end.

(** [s] ends with one of the three pieces of markup. *)
Definition ends_with_markup (s : string) : Prop :=
  exists r, s = r +:+ "." \/ s = r +:+ "," \/ s = r +:+ "<P>".

End Re.

(* ===================================================================== *)
(** * Discourse units and documents *)
(* ===================================================================== *)

(** Modelled from the spec: the text span of a unit ([educe.annotation],
    not among the sources), with its character start and end offsets. *)
Record Span : Type := mkSpan { char_start : Z; char_end : Z }.

(** Modelled from the spec: the elementary discourse unit of
    [educe.rst_dt], which is not among the sources, with the attributes
    the feature functions read: its index in document order [edu.num],
    its span [edu.text_span()], its text [edu.text] and its unique
    identifier [edu.identifier()].  Two units are equal ([==]) when they
    are the same unit. *)
Record EDU : Type := mkEDU {
  num : Z;
  text_span : Span;
  text : string;
  identifier : string
}.

#[global] Instance Span_eq_dec : EqDecision Span.
Proof. solve_decision. Defined.

#[global] Instance EDU_eq_dec : EqDecision EDU.
Proof. solve_decision. Defined.

#[global] Instance EDU_countable : Countable EDU.
Proof.
  refine (inj_countable'
            (fun e => (num e, char_start (text_span e),
                       char_end (text_span e), text e, identifier e))
            (fun t => match t with
                      | (n, a, b, x, i) => mkEDU n (mkSpan a b) x i
                      end) _).
  intros [n [a b] x i]. reflexivity.
Defined.

(** An NLTK tree: a label and the list of its children.  Iterating over
    a tree ([for child in tree]) goes through its direct children. *)
Inductive Tree (L : Type) : Type :=
| Node (label : L) (children : list (Tree L)).
Arguments Node {L} label children.

(** [treenode(tree)]: the label, whichever NLTK version provides it. *)
Definition treenode {L : Type} (t : Tree L) : L :=
  match t with Node l _ => l end.

(** [list(tree)]: the direct children, which is what iterating over a
    tree goes through. *)
Definition children {L : Type} (t : Tree L) : list (Tree L) :=
  match t with Node _ ks => ks end.

(** Modelled from the spec: the label of a dependency tree node
    ([educe.rst_dt.deptree], not among the sources): its unit and its
    own relation tag, the relation that attaches it to its head. *)
Record DepNode : Type := mkDepNode { edu : EDU; rel : string }.

(** Modelled from the spec: the constituency tree [SimpleRSTTree] of
    [educe.rst_dt], which is not among the sources.  The driver only
    asks for its leaves, the units in tree-leaf order. *)
Inductive SimpleRSTTree : Type :=
| Leaf (e : EDU)
| Branch (kids : list SimpleRSTTree).

(** [tree.leaves()] *)
Fixpoint leaves (t : SimpleRSTTree) : list EDU :=
  match t with
  | Leaf e => [e]
  | Branch kids => flat_map leaves kids
  end.

(* ===================================================================== *)
(** * Keys and key groups *)
(* ===================================================================== *)

(** Modelled from the spec: the value kind of a feature slot
    ([educe.learning.keys], not among the sources). *)
Inductive Substance : Type := Continuous | Discrete | Meta.

(** Modelled from the spec: [MagicKey] of [educe.learning.keys], which
    is not among the sources, a key bound to the function that computes
    its value.  The name is derived from the wrapped function's own
    name, given here with the function. *)
Record MagicKey (F : Type) : Type := mkMagicKey {
  substance : Substance;
  name : string;
  function : F
}.
Arguments mkMagicKey {F} substance name function.
Arguments substance {F} m.
Arguments name {F} m.
Arguments function {F} m.

(** Modelled from the spec: [MagicKey.meta_fn]. *)
Definition meta_fn {F : Type} (n : string) (f : F) : MagicKey F :=
  mkMagicKey Meta n f.

(** Modelled from the spec: [MagicKey.discrete_fn]. *)
Definition discrete_fn {F : Type} (n : string) (f : F) : MagicKey F :=
  mkMagicKey Discrete n f.

(** Modelled from the spec: [MagicKey.continuous_fn]. *)
Definition continuous_fn {F : Type} (n : string) (f : F) : MagicKey F :=
  mkMagicKey Continuous n f.

(** Modelled from the spec: the state of a [KeyGroup] of
    [educe.learning.keys], which is not among the sources.  It is a
    dictionary from key names to values ([items]) with a description and
    its declared keys, in order. *)
Record KeyGroup (F : Type) : Type := mkKeyGroup {
  description : string;
  keys : list (MagicKey F);
  items : gmap string pyval
}.
Arguments mkKeyGroup {F} description keys items.
Arguments description {F} k.
Arguments keys {F} k.
Arguments items {F} k.

(** Modelled from the spec: [KeyGroup.__init__] of [educe.learning.keys],
    which is not among the sources.  A group is an ordered collection
    of keys plus a description and produces a flat mapping from key
    name to value; a slot holds [None] until it is filled. *)
Definition KeyGroup_init {F : Type} (desc : string) (ks : list (MagicKey F))
  : KeyGroup F :=
  mkKeyGroup desc ks (list_to_map (map (fun k => (name k, VNone)) ks)).

(** Modelled from the spec: [KeyGroup.csv_headers], the names in the
    keys' declaration order. *)
Definition KeyGroup_csv_headers {F : Type} (g : KeyGroup F) : list string :=
  map name (keys g).

(** Modelled from the spec: [KeyGroup.csv_values], the values in the
    keys' declaration order. *)
Definition KeyGroup_csv_values {F : Type} (g : KeyGroup F) : list pyval :=
  map (fun k => default VNone (items g !! name k)) (keys g).

Definition newline : string := String "010" EmptyString.

(** [sep.join(lines)] *)
Fixpoint join (sep : string) (lines : list string) : string :=
  match lines with
  | [] => EmptyString
  | [l] => l
  | l :: rest => l +:+ sep +:+ join sep rest
  end.

(** Modelled from the spec: [KeyGroup.help_text], the description
    followed by the header names, one per line. *)
Definition KeyGroup_help_text {F : Type} (g : KeyGroup F) : string :=
  join newline (description g :: KeyGroup_csv_headers g).

(** The address of an object in the store. *)
Abbreviation loc := nat.

(** How a computation ends: with a value, or with an exception. *)
Inductive outcome (A : Type) : Type :=
| Ok (a : A)
| Raise (e : exn).
Arguments Ok {A} a.
Arguments Raise {A} e.

(* ===================================================================== *)
(** * External collaborators *)
(* ===================================================================== *)

(** What the module imports from the rest of the package and only calls:
    the corpus keys with [id_to_path], the parsed documents of the corpus
    with the conversion [SimpleRSTTree.from_rst_tree], and the projection
    [deptree.relaxed_nuclearity_to_deptree] onto a dependency tree.
    Everything below holds whatever they compute. *)
Class External : Type := {
  FileId : Type;
  id_to_path : FileId -> string;
  RSTTree : Type;
  from_rst_tree : RSTTree -> SimpleRSTTree;
  relaxed_nuclearity_to_deptree : SimpleRSTTree -> Tree DepNode
}.

Section Features.
Context `{External}.

(** The corpus is a dictionary from keys to documents: its keys in
    iteration order, and the lookup [corpus[k]], which the driver only
    applies to those keys. *)
Record Corpus : Type := mkCorpus {
  corpus_keys : list FileId;
  corpus_item : FileId -> RSTTree
}.

(** Global resources and settings used to extract feature vectors. *)
Record FeatureInput : Type := mkFeatureInput {
  corpus : Corpus;
  debug : bool
}.

(** A document and relevant contextual information. *)
Record DocumentPlus : Type := mkDocumentPlus {
  key : FileId;
  rsttree : SimpleRSTTree;
  deptree : Tree DepNode
}.

(** ** Lifting feature functions *)

Definition edu_feature {A : Type} (wrapped : EDU -> A)
  : DocumentPlus -> EDU -> A :=
  fun _ edu => wrapped edu.

Definition edu_pair_feature {A : Type} (wrapped : EDU -> EDU -> A)
  : DocumentPlus -> EDU -> EDU -> A :=
  fun _ edu1 edu2 => wrapped edu1 edu2.

Definition clean_edu_text (text : string) : string :=
  Re.sub_leading_quote (Re.sub_trailing_markup text).

Definition clean_corpus_word (word : string) : string := PyStr.lower word.

(** The token list [tokens_feature] hands to the wrapped function. *)
Definition edu_tokens (e : EDU) : list string :=
  map clean_corpus_word (PyStr.split (clean_edu_text (text e))).

Definition tokens_feature {A : Type} (wrapped : list string -> A)
  : DocumentPlus -> EDU -> A :=
  edu_feature (fun e => wrapped (edu_tokens e)).

(** ** Single EDU features *)

Definition feat_start : DocumentPlus -> EDU -> pyval :=
  edu_feature (fun e => VInt (char_start (text_span e))).

Definition feat_end : DocumentPlus -> EDU -> pyval :=
  edu_feature (fun e => VInt (char_end (text_span e))).

Definition feat_id : DocumentPlus -> EDU -> pyval :=
  edu_feature (fun e => VStr (identifier e)).

(** [tokens[0] if tokens else None] *)
Definition word_first : DocumentPlus -> EDU -> pyval :=
  tokens_feature (fun tokens =>
    match head tokens with
    | None => VNone
    | Some t => VStr t
    end).

(** [tokens[-1] if tokens else None] *)
Definition word_last : DocumentPlus -> EDU -> pyval :=
  tokens_feature (fun tokens =>
    match last tokens with
    | None => VNone
    | Some t => VStr t
    end).

Definition num_tokens : DocumentPlus -> EDU -> pyval :=
  tokens_feature (fun tokens => VInt (Z.of_nat (length tokens))).

(** ** Pair EDU features *)

Definition num_edus_between : DocumentPlus -> EDU -> EDU -> pyval :=
  edu_pair_feature (fun edu1 edu2 => VInt (Z.abs (num edu2 - num edu1) - 1)).

Definition feat_grouping (current : DocumentPlus) (edu1 edu2 : EDU) : pyval :=
  VStr (PyStr.basename (id_to_path (key current))).

(* =================================================================== *)
(** ** The object store *)
(* =================================================================== *)

(** The signatures of the feature functions behind the keys. *)
Definition single_fn : Type := DocumentPlus -> EDU -> pyval.
Definition pair_fn : Type := DocumentPlus -> EDU -> EDU -> pyval.

(** The attributes of a [PairKeys] instance next to its dictionary. *)
Record PairKeysObj : Type := mkPairKeysObj {
  pk_base : KeyGroup pair_fn;
  pk_groups : list loc;
  pk_sf_cache : option loc;
  pk_edu1 : option loc;
  pk_edu2 : option loc
}.

(** The objects of the program.  References to other objects are
    addresses, so that two names for one object see the same updates. *)
Inductive object : Type :=
| OSingleEduSubgroup (g : KeyGroup single_fn)
| OSingleEduKeys (g : KeyGroup single_fn) (groups : list loc)
| OPairSubgroup (g : KeyGroup pair_fn)
| OPairKeys (pk : PairKeysObj)
| OClassKeyGroup (group : loc) (class : pyval)
| ODict (d : gmap EDU loc).

(** The store, and what the generator has yielded so far. *)
Record world : Type := mkWorld {
  heap : list object;
  emitted : list (loc * loc)
}.

(** A computation reads and updates the world and returns or raises;
    the updates made before an exception stay. *)
Definition M (A : Type) : Type := world -> outcome A * world.

Definition ret {A : Type} (a : A) : M A := fun w => (Ok a, w).

Definition raise {A : Type} (e : exn) : M A := fun w => (Raise e, w).

Definition bind {A B : Type} (c : M A) (k : A -> M B) : M B :=
  fun w =>
    match c w with
    | (Ok a, w') => k a w'
    | (Raise e, w') => (Raise e, w')
    end.

Notation "x <- c ;; k" := (bind c (fun x => k))
  (at level 100, c at next level, right associativity).
Notation "c ;;; k" := (bind c (fun _ => k))
  (at level 100, k at level 200, right associativity).

(** [for x in xs: body(x)] *)
Fixpoint for_each {A : Type} (xs : list A) (body : A -> M unit) : M unit :=
  match xs with
  | [] => ret tt
  | x :: rest => body x ;;; for_each rest body
  end.

(** A loop whose body updates local variables [L]. *)
Fixpoint for_each_with {A L : Type} (xs : list A) (body : L -> A -> M L)
  (locals : L) : M L :=
  match xs with
  | [] => ret locals
  | x :: rest => l <- body locals x ;; for_each_with rest body l
  end.

(** Creating an object: it gets the next free address. *)
Definition alloc (o : object) : M loc :=
  fun w => (Ok (length (heap w)), mkWorld (heap w ++ [o]) (emitted w)).

(** Following a reference.  Every address the program holds was
    returned by [alloc]; a dangling one is reported as a TypeError. *)
Definition deref (l : loc) : M object :=
  fun w =>
    match heap w !! l with
    | Some o => (Ok o, w)
    | None => (Raise TypeError, w)
    end.

(** Replacing the state of the object at an address. *)
Definition update (l : loc) (o : object) : M unit :=
  fun w => (Ok tt, mkWorld (<[l := o]> (heap w)) (emitted w)).

(** [yield a, b] *)
Definition yield (r : loc * loc) : M unit :=
  fun w => (Ok tt, mkWorld (heap w) (emitted w ++ [r])).

(** The key group [g] with [d] for its dictionary. *)
Definition set_items {F : Type} (g : KeyGroup F) (d : gmap string pyval)
  : KeyGroup F :=
  mkKeyGroup (description g) (keys g) d.

(** The object [o] after [o[n] = v], when [o] is a key group. *)
Definition assign_item (o : object) (n : string) (v : pyval) : option object :=
  match o with
  | OSingleEduSubgroup g =>
      Some (OSingleEduSubgroup (set_items g (<[n := v]> (items g))))
  | OSingleEduKeys g groups =>
      Some (OSingleEduKeys (set_items g (<[n := v]> (items g))) groups)
  | OPairSubgroup g =>
      Some (OPairSubgroup (set_items g (<[n := v]> (items g))))
  | OPairKeys pk =>
      Some (OPairKeys
              (mkPairKeysObj
                 (set_items (pk_base pk) (<[n := v]> (items (pk_base pk))))
                 (pk_groups pk) (pk_sf_cache pk) (pk_edu1 pk) (pk_edu2 pk)))
  | _ => None
  end.

(** [vec[name] = v].  The targets of a fill are key groups; item
    assignment on another object is outside the model and reported as
    a TypeError. *)
Definition setitem (vec : loc) (n : string) (v : pyval) : M unit :=
  o <- deref vec ;;
  match assign_item o n v with
  | Some o' => update vec o'
  | None => raise TypeError
  end.

(** The dictionary of a key group object. *)
Definition items_of (o : object) : option (gmap string pyval) :=
  match o with
  | OSingleEduSubgroup g => Some (items g)
  | OSingleEduKeys g _ => Some (items g)
  | OPairSubgroup g => Some (items g)
  | OPairKeys pk => Some (items (pk_base pk))
  | _ => None
  end.

(** The object [o] with [d] for its dictionary. *)
Definition with_items (o : object) (d : gmap string pyval) : object :=
  match o with
  | OSingleEduSubgroup g => OSingleEduSubgroup (set_items g d)
  | OSingleEduKeys g groups => OSingleEduKeys (set_items g d) groups
  | OPairSubgroup g => OPairSubgroup (set_items g d)
  | OPairKeys pk =>
      OPairKeys (mkPairKeysObj (set_items (pk_base pk) d) (pk_groups pk)
                   (pk_sf_cache pk) (pk_edu1 pk) (pk_edu2 pk))
  | _ => o
  end.

(** A dictionary after a sequence of item assignments. *)
Definition write_all (d : gmap string pyval) (kvs : list (string * pyval))
  : gmap string pyval :=
  foldl (fun d kv => <[fst kv := snd kv]> d) d kvs.

(** The assignments a fill makes for a list of keys. *)
Definition single_values (ks : list (MagicKey single_fn))
  (current : DocumentPlus) (e : EDU) : list (string * pyval) :=
  map (fun k => (name k, function k current e)) ks.

(** The same for the keys of a pair group. *)
Definition pair_values (ks : list (MagicKey pair_fn))
  (current : DocumentPlus) (e1 e2 : EDU) : list (string * pyval) :=
  map (fun k => (name k, function k current e1 e2)) ks.

(** The addresses [groups] hold single-unit sub-groups whose key lists
    are [kss], in order. *)
Definition single_subgroups (h : list object) (groups : list loc)
  (kss : list (list (MagicKey single_fn))) : Prop :=
  Forall2 (fun l ks => exists g, h !! l = Some (OSingleEduSubgroup g) /\ keys g = ks)
    groups kss.

(** The same for pair sub-groups. *)
Definition pair_subgroups (h : list object) (groups : list loc)
  (kss : list (list (MagicKey pair_fn))) : Prop :=
  Forall2 (fun l ks => exists g, h !! l = Some (OPairSubgroup g) /\ keys g = ks)
    groups kss.

(** The key group at [t] holds the value [v] under the name [n], for
    every [(n, v)] of [kvs]. *)
Definition holds_values (h : list object) (t : loc)
  (kvs : list (string * pyval)) : Prop :=
  exists o d, h !! t = Some o /\ items_of o = Some d
              /\ forall n v, (n, v) ∈ kvs -> d !! n = Some v.

(* =================================================================== *)
(** ** Single EDU key groups *)
(* =================================================================== *)

(** [SingleEduSubgroup._magic_fill] *)
Definition SingleEduSubgroup__magic_fill (self : loc) (current : DocumentPlus)
  (e : EDU) (target : option loc) : M unit :=
  o <- deref self ;;
  match o with
  | OSingleEduSubgroup g =>
      let vec := match target with None => self | Some t => t end in
      for_each (keys g) (fun key => setitem vec (name key) (function key current e))
  | _ => raise TypeError
  end.

(** [SingleEduSubgroup.fill] *)
Definition SingleEduSubgroup_fill (self : loc) (current : DocumentPlus)
  (e : EDU) (target : option loc) : M unit :=
  SingleEduSubgroup__magic_fill self current e target.

Definition SingleEduSubgroup_Meta_features : list (MagicKey single_fn) :=
  [meta_fn "feat_id" feat_id;
   meta_fn "feat_start" feat_start;
   meta_fn "feat_end" feat_end].

Definition SingleEduSubgroup_Meta : M loc :=
  alloc (OSingleEduSubgroup
           (KeyGroup_init "Basic EDU-identification features"
              SingleEduSubgroup_Meta_features)).

Definition SingleEduSubgroup_Text_features : list (MagicKey single_fn) :=
  [discrete_fn "word_first" word_first;
   discrete_fn "word_last" word_last;
   continuous_fn "num_tokens" num_tokens].

Definition SingleEduSubgroup_Text : M loc :=
  alloc (OSingleEduSubgroup
           (KeyGroup_init "Properties of the EDU text itself"
              SingleEduSubgroup_Text_features)).

(** Modelled from the spec: [MergedKeyGroup.__init__] of
    [educe.learning.keys], which is not among the sources.  The keys of
    a merged group are those of its sub-groups, in sub-group order. *)
Fixpoint merged_single_keys (groups : list loc) : M (list (MagicKey single_fn)) :=
  match groups with
  | [] => ret []
  | g :: rest =>
      o <- deref g ;;
      match o with
      | OSingleEduSubgroup kg =>
          ks <- merged_single_keys rest ;; ret (keys kg ++ ks)%list
      | _ => raise TypeError
      end
  end.

(** Modelled from the spec: the same for the sub-groups of a merged
    pair group. *)
Fixpoint merged_pair_keys (groups : list loc) : M (list (MagicKey pair_fn)) :=
  match groups with
  | [] => ret []
  | g :: rest =>
      o <- deref g ;;
      match o with
      | OPairSubgroup kg =>
          ks <- merged_pair_keys rest ;; ret (keys kg ++ ks)%list
      | _ => raise TypeError
      end
  end.

(** [SingleEduKeys(inputs)] *)
Definition SingleEduKeys (inputs : FeatureInput) : M loc :=
  meta <- SingleEduSubgroup_Meta ;;
  txt <- SingleEduSubgroup_Text ;;
  let groups := [meta; txt] in
  ks <- merged_single_keys groups ;;
  alloc (OSingleEduKeys (KeyGroup_init "single EDU features" ks) groups).

(** [SingleEduKeys.fill] *)
Definition SingleEduKeys_fill (self : loc) (current : DocumentPlus)
  (e : EDU) (target : option loc) : M unit :=
  o <- deref self ;;
  match o with
  | OSingleEduKeys _ groups =>
      let vec := match target with None => self | Some t => t end in
      for_each groups (fun group => SingleEduSubgroup_fill group current e (Some vec))
  | _ => raise TypeError
  end.

(* =================================================================== *)
(** ** EDU pairs *)
(* =================================================================== *)

(** [PairSubgroup._magic_fill] *)
Definition PairSubgroup__magic_fill (self : loc) (current : DocumentPlus)
  (e1 e2 : EDU) (target : option loc) : M unit :=
  o <- deref self ;;
  match o with
  | OPairSubgroup g =>
      let vec := match target with None => self | Some t => t end in
      for_each (keys g)
        (fun key => setitem vec (name key) (function key current e1 e2))
  | _ => raise TypeError
  end.

(** [PairSubgroup.fill] *)
Definition PairSubgroup_fill (self : loc) (current : DocumentPlus)
  (e1 e2 : EDU) (target : option loc) : M unit :=
  PairSubgroup__magic_fill self current e1 e2 target.

Definition PairSubGroup_Core : M loc :=
  alloc (OPairSubgroup
           (KeyGroup_init "core features" [meta_fn "feat_grouping" feat_grouping])).

Definition PairSubgroup_Gap : M loc :=
  alloc (OPairSubgroup
           (KeyGroup_init "the gap between EDUs"
              [continuous_fn "num_edus_between" num_edus_between])).

(** [PairKeys(inputs, sf_cache)] *)
Definition PairKeys (inputs : FeatureInput) (sf_cache : option loc) : M loc :=
  core <- PairSubGroup_Core ;;
  gap <- PairSubgroup_Gap ;;
  let groups := [core; gap] in
  units <- match sf_cache with
           | None =>
               u1 <- SingleEduKeys inputs ;;
               u2 <- SingleEduKeys inputs ;;
               ret (Some u1, Some u2)
           | Some _ => ret (None, None)
           end ;;
  ks <- merged_pair_keys groups ;;
  alloc (OPairKeys (mkPairKeysObj (KeyGroup_init "pair features" ks) groups
                      sf_cache (fst units) (snd units))).

(** [self.sf_cache[edu]]: subscripting [None] is a TypeError, a missing
    key a KeyError. *)
Definition sf_cache_lookup (sf_cache : option loc) (e : EDU) : M loc :=
  match sf_cache with
  | None => raise TypeError
  | Some c =>
      o <- deref c ;;
      match o with
      | ODict d =>
          match d !! e with
          | Some v => ret v
          | None => raise KeyError
          end
      | _ => raise TypeError
      end
  end.

(** [vec.edu1 = v] and [vec.edu2 = v].  The vector filled by a
    [PairKeys] is a [PairKeys]; setting the attribute on another kind of
    object is outside the model and reported as an AttributeError. *)
Definition set_edu1 (vec : loc) (v : loc) : M unit :=
  o <- deref vec ;;
  match o with
  | OPairKeys pk =>
      update vec (OPairKeys (mkPairKeysObj (pk_base pk) (pk_groups pk)
                               (pk_sf_cache pk) (Some v) (pk_edu2 pk)))
  | _ => raise AttributeError
  end.

Definition set_edu2 (vec : loc) (v : loc) : M unit :=
  o <- deref vec ;;
  match o with
  | OPairKeys pk =>
      update vec (OPairKeys (mkPairKeysObj (pk_base pk) (pk_groups pk)
                               (pk_sf_cache pk) (pk_edu1 pk) (Some v)))
  | _ => raise AttributeError
  end.

(** [PairKeys.fill] *)
Definition PairKeys_fill (self : loc) (current : DocumentPlus)
  (e1 e2 : EDU) (target : option loc) : M unit :=
  o <- deref self ;;
  match o with
  | OPairKeys pk =>
      let vec := match target with None => self | Some t => t end in
      v1 <- sf_cache_lookup (pk_sf_cache pk) e1 ;;
      set_edu1 vec v1 ;;;
      v2 <- sf_cache_lookup (pk_sf_cache pk) e2 ;;
      set_edu2 vec v2 ;;;
      for_each (pk_groups pk)
        (fun group => PairSubgroup_fill group current e1 e2 (Some vec))
  | _ => raise TypeError
  end.

(** Modelled from the spec: [MergedKeyGroup.csv_headers] and
    [MergedKeyGroup.csv_values] of [educe.learning.keys], which is not
    among the sources.  They flatten the headers and values across the
    sub-groups, in sub-group order and key order within each; the keys
    of the merged group are already in that order, and a fill writes
    the values into the merged group's own dictionary. *)
Definition MergedKeyGroup_csv_headers {F : Type} (g : KeyGroup F)
  : list string := KeyGroup_csv_headers g.

(** Modelled from the spec: [MergedKeyGroup.csv_values], as above. *)
Definition MergedKeyGroup_csv_values {F : Type} (g : KeyGroup F)
  : list pyval := KeyGroup_csv_values g.

(** Modelled from the spec: [MergedKeyGroup.help_text] of
    [educe.learning.keys], which is not among the sources.  It renders
    each sub-group's description followed by its header names. *)
Fixpoint subgroup_help_texts (groups : list loc) : M (list string) :=
  match groups with
  | [] => ret []
  | g :: rest =>
      o <- deref g ;;
      t <- match o with
           | OSingleEduSubgroup kg => ret (KeyGroup_help_text kg)
           | OPairSubgroup kg => ret (KeyGroup_help_text kg)
           | _ => raise TypeError
           end ;;
      ts <- subgroup_help_texts rest ;;
      ret (t :: ts)
  end.

(** Modelled from the spec: [MergedKeyGroup.help_text], the help of the
    sub-groups one after the other. *)
Definition MergedKeyGroup_help_text (groups : list loc) : M string :=
  ts <- subgroup_help_texts groups ;;
  ret (join newline ts).

(** [self.edu1] or [self.edu2] followed by a method call: on [None] the
    call is an AttributeError.  The vectors kept in the single-unit
    cache are [SingleEduKeys]; the model has no other receiver. *)
Definition unit_vector (v : option loc) : M (KeyGroup single_fn * list loc) :=
  match v with
  | None => raise AttributeError
  | Some l =>
      o <- deref l ;;
      match o with
      | OSingleEduKeys g groups => ret (g, groups)
      | _ => raise TypeError
      end
  end.

Definition as_PairKeys (self : loc) : M PairKeysObj :=
  o <- deref self ;;
  match o with
  | OPairKeys pk => ret pk
  | _ => raise TypeError
  end.

(** [PairKeys.csv_headers] *)
Definition PairKeys_csv_headers (self : loc) : M (list string) :=
  pk <- as_PairKeys self ;;
  let own := MergedKeyGroup_csv_headers (pk_base pk) in
  u1 <- unit_vector (pk_edu1 pk) ;;
  u2 <- unit_vector (pk_edu2 pk) ;;
  ret (own
       ++ map (fun h => h +:+ "_EDU1") (MergedKeyGroup_csv_headers (fst u1))
       ++ map (fun h => h +:+ "_EDU2") (MergedKeyGroup_csv_headers (fst u2)))%list.

(** [PairKeys.csv_values] *)
Definition PairKeys_csv_values (self : loc) : M (list pyval) :=
  pk <- as_PairKeys self ;;
  let own := MergedKeyGroup_csv_values (pk_base pk) in
  u1 <- unit_vector (pk_edu1 pk) ;;
  u2 <- unit_vector (pk_edu2 pk) ;;
  ret (own ++ MergedKeyGroup_csv_values (fst u1)
           ++ MergedKeyGroup_csv_values (fst u2))%list.

(** [PairKeys.help_text] *)
Definition PairKeys_help_text (self : loc) : M string :=
  pk <- as_PairKeys self ;;
  own <- MergedKeyGroup_help_text (pk_groups pk) ;;
  u1 <- unit_vector (pk_edu1 pk) ;;
  h1 <- MergedKeyGroup_help_text (snd u1) ;;
  let lines := [own; EmptyString; h1] in
  ret (join newline lines).

(** Modelled from the spec: [ClassKeyGroup] of [educe.learning.keys],
    which is not among the sources: a pair vector annotated with a
    target label.  The vector is the one the driver passes; the label
    is [None] until [set_class]. *)
Definition ClassKeyGroup (group : loc) : M loc :=
  alloc (OClassKeyGroup group VNone).

(** Modelled from the spec: [ClassKeyGroup.set_class], which attaches
    the target label. *)
Definition set_class (self : loc) (cl : pyval) : M unit :=
  o <- deref self ;;
  match o with
  | OClassKeyGroup group _ => update self (OClassKeyGroup group cl)
  | _ => raise AttributeError
  end.

(* =================================================================== *)
(** ** The objects the constructors create *)
(* =================================================================== *)

(** The keys of a [SingleEduKeys] and of a [PairKeys], sub-group after
    sub-group. *)
Definition single_keys : list (MagicKey single_fn) :=
  (SingleEduSubgroup_Meta_features ++ SingleEduSubgroup_Text_features)%list.

Definition pair_keys : list (MagicKey pair_fn) :=
  [meta_fn "feat_grouping" feat_grouping;
   continuous_fn "num_edus_between" num_edus_between].

(** A [SingleEduKeys] created at address [n + 2] with its sub-groups
    at [n] and [n + 1], and the same after it was filled for [e]. *)
Definition fresh_single_vector (n : loc) : object :=
  OSingleEduKeys (KeyGroup_init "single EDU features" single_keys)
    [n; S n].

Definition filled_single_group (current : DocumentPlus) (e : EDU)
  : KeyGroup single_fn :=
  set_items (KeyGroup_init "single EDU features" single_keys)
    (write_all (items (KeyGroup_init "single EDU features" single_keys))
       (single_values single_keys current e)).

Definition filled_single_vector (n : loc) (current : DocumentPlus) (e : EDU)
  : object :=
  OSingleEduKeys (filled_single_group current e) [n; S n].

Definition single_vector_objects (last : object) : list object :=
  [OSingleEduSubgroup
     (KeyGroup_init "Basic EDU-identification features"
        SingleEduSubgroup_Meta_features);
   OSingleEduSubgroup
     (KeyGroup_init "Properties of the EDU text itself"
        SingleEduSubgroup_Text_features);
   last].

(** A [PairKeys] on the cache [c], created at address [n + 2] with its
    sub-groups at [n] and [n + 1], and the same after it was filled for
    the pair [(e1, e2)] whose cached vectors are [v1] and [v2]. *)
Definition fresh_pair_vector (n c : loc) : object :=
  OPairKeys (mkPairKeysObj (KeyGroup_init "pair features" pair_keys)
               [n; S n] (Some c) None None).

Definition filled_pair_keys (n c : loc) (current : DocumentPlus)
  (e1 e2 : EDU) (v1 v2 : loc) : PairKeysObj :=
  mkPairKeysObj
    (set_items (KeyGroup_init "pair features" pair_keys)
       (write_all (items (KeyGroup_init "pair features" pair_keys))
          (pair_values pair_keys current e1 e2)))
    [n; S n] (Some c) (Some v1) (Some v2).

Definition filled_pair_vector (n c : loc) (current : DocumentPlus)
  (e1 e2 : EDU) (v1 v2 : loc) : object :=
  OPairKeys (filled_pair_keys n c current e1 e2 v1 v2).

Definition pair_vector_objects (last : object) : list object :=
  [OPairSubgroup
     (KeyGroup_init "core features" [meta_fn "feat_grouping" feat_grouping]);
   OPairSubgroup
     (KeyGroup_init "the gap between EDUs"
        [continuous_fn "num_edus_between" num_edus_between]);
   last].

(** What one passage through the loop body adds to the store in
    corpus mode, from the address [n] on: the pair vector with its
    sub-groups, then the attachment record and the relation record. *)
Definition labelled_pair_objects (n c : loc) (current : DocumentPlus)
  (e1 e2 : EDU) (v1 v2 : loc) (attachment relation : pyval) : list object :=
  (pair_vector_objects (filled_pair_vector n c current e1 e2 v1 v2)
   ++ [OClassKeyGroup (n + 2) attachment; OClassKeyGroup (n + 2) relation])%list.

(* =================================================================== *)
(** ** Extraction generators *)
(* =================================================================== *)

(** [simplify_deptree]: the outer loop iterates over [dtree], the
    inner one over each [subtree]. *)
Definition simplify_deptree (dtree : Tree DepNode) : gmap (EDU * EDU) string :=
  foldl (fun relations subtree =>
           let src := edu (treenode subtree) in
           foldl (fun relations child =>
                    let cnode := treenode child in
                    <[(src, edu cnode) := rel cnode]> relations)
                 relations (children subtree))
        ∅ (children dtree).

(** The edges [simplify_deptree] goes through, in order: from each
    child of the root to each of its own children. *)
Definition visited_edges (dtree : Tree DepNode) : list ((EDU * EDU) * string) :=
  flat_map (fun subtree =>
              map (fun child => ((edu (treenode subtree), edu (treenode child)),
                                 rel (treenode child)))
                (children subtree))
    (children dtree).

(** [preprocess] *)
Definition preprocess (inputs : FeatureInput) (k : FileId) : DocumentPlus :=
  let rtree := from_rst_tree (corpus_item (corpus inputs) k) in
  let dtree := relaxed_nuclearity_to_deptree rtree in
  mkDocumentPlus k rtree dtree.

(** [itertools.product(xs, ys)]: the first component varies slowest. *)
Definition itertools_product {A B : Type} (xs : list A) (ys : list B)
  : list (A * B) :=
  flat_map (fun x => map (fun y => (x, y)) ys) xs.

(** The pairs for which the loop body does not [continue]. *)
Definition distinct_pairs (edus : list EDU) : list (EDU * EDU) :=
  filter (fun p => fst p <> snd p) (itertools_product edus edus).

(** The local variables of [extract_pair_features] that are only
    assigned on some paths; [None] is a variable not yet bound. *)
Record locals : Type := mkLocals {
  pairs_vec : option loc;
  rels_vec : option loc
}.

(** Reading a local variable. *)
Definition local {A : Type} (n : string) (v : option A) : M A :=
  match v with
  | Some a => ret a
  | None => raise (UnboundLocalError n)
  end.

(** [sf_cache[edu] = v] *)
Definition sf_cache_set (sf_cache : loc) (e : EDU) (v : loc) : M unit :=
  o <- deref sf_cache ;;
  match o with
  | ODict d => update sf_cache (ODict (<[e := v]> d))
  | _ => raise TypeError
  end.

(** [relations[epair] if epair in relations else 'UNRELATED'] *)
Definition relation_label (relations : gmap (EDU * EDU) string)
  (epair : EDU * EDU) : pyval :=
  match relations !! epair with
  | Some r => VStr r
  | None => VStr "UNRELATED"
  end.

(** [epair in relations] *)
Definition attachment_label (relations : gmap (EDU * EDU) string)
  (epair : EDU * EDU) : pyval :=
  VBool (bool_decide (is_Some (relations !! epair))).

(** The body of the loop over [itertools.product(edus, edus)]. *)
Definition pair_body (inputs : FeatureInput) (live : bool)
  (current : DocumentPlus) (relations : gmap (EDU * EDU) string)
  (sf_cache : loc) (lv : locals) (epair : EDU * EDU) : M locals :=
  let edu1 := fst epair in
  let edu2 := snd epair in
  if decide (edu1 = edu2) then ret lv
  else
    vec <- PairKeys inputs (Some sf_cache) ;;
    PairKeys_fill vec current edu1 edu2 None ;;;
    lv' <- (if live then
              yield (vec, vec) ;;; ret lv
            else
              pv <- ClassKeyGroup vec ;;
              rv <- ClassKeyGroup vec ;;
              set_class rv (relation_label relations epair) ;;;
              set_class pv (attachment_label relations epair) ;;;
              ret (mkLocals (Some pv) (Some rv))) ;;
    pv <- local "pairs_vec" (pairs_vec lv') ;;
    rv <- local "rels_vec" (rels_vec lv') ;;
    yield (pv, rv) ;;;
    ret lv'.

(** The body of the loop that builds the single-unit cache:
    [sf_cache[edu] = SingleEduKeys(inputs)], then
    [sf_cache[edu].fill(current, edu)]. *)
Definition cache_unit (inputs : FeatureInput) (current : DocumentPlus)
  (sf_cache : loc) (e : EDU) : M unit :=
  v <- SingleEduKeys inputs ;;
  sf_cache_set sf_cache e v ;;;
  v' <- sf_cache_lookup (Some sf_cache) e ;;
  SingleEduKeys_fill v' current e None.

(** The body of the loop over the corpus. *)
Definition document_body (inputs : FeatureInput) (live : bool)
  (lv : locals) (k : FileId) : M locals :=
  let current := preprocess inputs k in
  let edus := leaves (rsttree current) in
  let relations :=
    if negb live then simplify_deptree (deptree current) else ∅ in
  sf_cache <- alloc (ODict ∅) ;;
  for_each edus (cache_unit inputs current sf_cache) ;;;
  for_each_with (itertools_product edus edus)
    (pair_body inputs live current relations sf_cache) lv.

(** [extract_pair_features], run until it is exhausted or raises: the
    records it yields are the [emitted] of the final world. *)
Definition extract_pair_features (inputs : FeatureInput) (live : bool)
  : M unit :=
  for_each_with (corpus_keys (corpus inputs)) (document_body inputs live)
    (mkLocals None None) ;;;
  ret tt.

(* =================================================================== *)
(** ** What the store holds after an extraction *)
(* =================================================================== *)

(** The dictionary at [c] maps every unit of [edus] to a single-unit
    vector filled for that unit. *)
Definition cached (h : list object) (c : loc) (current : DocumentPlus)
  (edus : list EDU) : Prop :=
  exists d, h !! c = Some (ODict d)
            /\ forall e, e ∈ edus ->
                 exists v n, d !! e = Some v
                             /\ h !! v = Some (filled_single_vector n current e).

(** The record [r] is an attachment vector and a relation vector on
    one pair vector filled for the pair [p], whose unit sub-vectors are
    the filled single-unit vectors of the two units; the labels are
    [attachment] and [relation]. *)
Definition labelled (h : list object) (current : DocumentPlus)
  (p : EDU * EDU) (attachment relation : pyval) (r : loc * loc) : Prop :=
  exists vec n c v1 v2 n1 n2,
    h !! fst r = Some (OClassKeyGroup vec attachment)
    /\ h !! snd r = Some (OClassKeyGroup vec relation)
    /\ h !! vec = Some (filled_pair_vector n c current (fst p) (snd p) v1 v2)
    /\ h !! v1 = Some (filled_single_vector n1 current (fst p))
    /\ h !! v2 = Some (filled_single_vector n2 current (snd p)).

(** What the specification says of [help_text]: the text [txt] has
    the pair-level help [own], then the help [h1] of the first unit
    sub-vector, then the help [h2] of the second one, with whatever
    separators. *)
Definition renders_both_units (txt own h1 h2 : string) : Prop :=
  exists s1 s2 s3, txt = own +:+ s1 +:+ h1 +:+ s2 +:+ h2 +:+ s3.

(** The pairs of the whole corpus in the order of the two loops, each
    with the key of its document. *)
Definition corpus_pairs (inputs : FeatureInput) : list (FileId * (EDU * EDU)) :=
  flat_map (fun k =>
              map (fun p => (k, p))
                (distinct_pairs (leaves (rsttree (preprocess inputs k)))))
    (corpus_keys (corpus inputs)).

(** The record [r] is two label holders on one pair vector built on
    the cache [c], whose unit sub-vectors are the entries of the
    dictionary [d] for the two units of the pair [p]. *)
Definition unit_vectors_from (h : list object) (c : loc) (d : gmap EDU loc)
  (p : EDU * EDU) (r : loc * loc) : Prop :=
  exists vec pk attachment relation,
    h !! fst r = Some (OClassKeyGroup vec attachment)
    /\ h !! snd r = Some (OClassKeyGroup vec relation)
    /\ h !! vec = Some (OPairKeys pk)
    /\ pk_sf_cache pk = Some c
    /\ pk_edu1 pk = d !! fst p
    /\ pk_edu2 pk = d !! snd p.

End Features.

(* ===================================================================== *)
(** * The vocabulary dumper *)
(* ===================================================================== *)

Module Vocabulary.

(** [sorted(xs, key=key)]: a stable sort; an element goes in front of
    the first one whose key is not smaller. *)
Fixpoint insert_by {A : Type} (key : A -> Z) (x : A) (l : list A) : list A :=
  match l with
  | [] => [x]
  | y :: r => if (key x <=? key y)%Z then x :: y :: r else y :: insert_by key x r
  end.

Definition sorted {A : Type} (key : A -> Z) (xs : list A) : list A :=
  foldr (insert_by key) [] xs.

(** ['{fn}\t{fx}\n'.format(fn=..., fx=...)] *)
Definition line_pattern (fn fx : string) : string :=
  fn +:+ String "009" (fx +:+ String "010" EmptyString).

(** A file open for writing, as the calls of [write] see it: the
    strings written so far, in order. *)
Definition file : Type := list string.

Definition write (f : file) (s : string) : file := (f ++ [s])%list.

(** What the file holds once the strings written to it have reached
    it: their concatenation, with nothing between them. *)
Definition contents (f : file) : string := foldr String.append EmptyString f.

(** [_dump_vocabulary(vocabulary, f)], where [items] is what
    [vocabulary.items()] enumerates. *)
Definition _dump_vocabulary (items : list (string * Z)) (f : file) : file :=
  foldl (fun f entry =>
           let feat_name := fst entry in
           let feat_idx := snd entry in
           write f (line_pattern feat_name (PyStr.of_int (feat_idx + 1))))
        f (sorted snd items).

(** Reading the dump back.  The part of [s] before its last tab and
    the part after it. *)
Fixpoint rsplit_tab (s : string) : option (string * string) :=
  match s with
  | EmptyString => None
  | String c r =>
      match rsplit_tab r with
      | Some (before, after) => Some (String c before, after)
      | None => if Ascii.eqb c "009" then Some (EmptyString, r) else None
      end
  end.

(** [s] without the newline that ends it. *)
Fixpoint chomp (s : string) : option string :=
  match s with
  | EmptyString => None
  | String c EmptyString => if Ascii.eqb c "010" then Some EmptyString else None
  | String c r =>
      match chomp r with
      | Some r' => Some (String c r')
      | None => None
      end
  end.

(** The name and the index recorded on a line of the dump. *)
Definition read_line (line : string) : option (string * Z) :=
  match rsplit_tab line with
  | Some (fn, rest) =>
      match chomp rest with
      | Some digits =>
          match PyStr.to_int digits with
          | Some fx => Some (fn, fx)
          | None => None
          end
      | None => None
      end
  | None => None
  end.

(** The records of a dump, sorted again by their recorded index. *)
Definition resorted (lines : list string) : list (string * Z) :=
  sorted snd (omap read_line lines).

(** The lines of the text of a file, as reading the file line by line
    yields them: a line goes up to its newline and includes it; what
    follows the last newline, when there is something, is a last line
    without one. *)
Fixpoint readlines (s : string) : list string :=
  match s with
  | EmptyString => []
  | String c r =>
      if Ascii.eqb c "010" then String c EmptyString :: readlines r
      else
        match readlines r with
        | [] => [String c EmptyString]
        | line :: rest => String c line :: rest
        end
  end.

End Vocabulary.

(* ===================================================================== *)
(** * A small corpus *)
(* ===================================================================== *)

Module Demo.

Definition a : EDU := mkEDU 1 (mkSpan 0 15) "Hello there.<P>" "d1_1".
Definition b : EDU := mkEDU 2 (mkSpan 15 18) ",,," "d1_2".
Definition c : EDU := mkEDU 3 (mkSpan 18 21) "Bye" "d1_3".

(** A dependency tree of one edge: [b] hangs from the head [a]. *)
Definition one_edge : Tree DepNode :=
  Node (mkDepNode a "ROOT") [Node (mkDepNode b "elaboration") []].

(** A chain: [a] heads [b], which heads [c]. *)
Definition chain : Tree DepNode :=
  Node (mkDepNode a "ROOT")
    [Node (mkDepNode b "elaboration") [Node (mkDepNode c "joint") []]].

(** Collaborators for the examples: documents come with their two
    trees; the dependency tree of a document is [chain] when it has
    the three units and [one_edge] otherwise. *)
Definition external : External := {|
  FileId := string;
  id_to_path := fun k => "data/" +:+ k;
  RSTTree := SimpleRSTTree;
  from_rst_tree := fun t => t;
  relaxed_nuclearity_to_deptree :=
    fun t => if decide (leaves t = [a; b; c]) then chain else one_edge
|}.

Definition two_units : @FeatureInput external :=
  @mkFeatureInput external
    (@mkCorpus external ["d1"] (fun _ => Branch [Leaf a; Leaf b])) false.

Definition three_units : @FeatureInput external :=
  @mkFeatureInput external
    (@mkCorpus external ["d1"] (fun _ => Branch [Leaf a; Leaf b; Leaf c])) false.

Definition start : @world external := @mkWorld external [] [].

(** The first document, preprocessed. *)
Definition current : @DocumentPlus external := @preprocess external two_units "d1".

(** A store with two fresh [SingleEduKeys]: the first one at address
    2 after its sub-groups at 0 and 1, the second one at 5. *)
Definition two_vectors : @world external :=
  snd (@bind external _ _ (@SingleEduKeys external two_units)
         (fun _ => @SingleEduKeys external two_units) start).


(** A store with an empty single-unit cache at address 0 and a fresh
    [PairKeys] built on it, at address 3 after its sub-groups. *)
Definition pair_on_empty_cache : @world external :=
  snd (@bind external _ _ (@alloc external (ODict ∅))
         (fun sf_cache => @PairKeys external two_units (Some sf_cache)) start).

(** The store after the extraction over [two_units] in corpus mode:
    the cache at address 0, the vectors of [a] and [b] at 3 and 6, the
    pair vector of [(a, b)] at 9 with its two records at 10 and 11. *)
Definition corpus_run : @world external :=
  snd (@extract_pair_features external two_units false start).

(** A feature name that holds a tab and a newline: [x], tab, [1],
    newline, [y]. *)
Definition name_with_newline : string :=
  String "x" (String "009" (String "1" (String "010" (String "y" EmptyString)))).

End Demo.

(* ===================================================================== *)
(** * Properties *)
(* ===================================================================== *)

Section TrailingMarkup.
Import Re.

Lemma at_dollar_spec (s : string) :
  at_dollar s = true <-> s = EmptyString \/ s = newline.
Proof.
  destruct s as [|c [|c' r]]; simpl.
  - split; auto.
  - destruct (Ascii.eqb_spec c "010") as [->|Hne].
    + split; auto.
    + split; [discriminate|]. intros [[=]|[= ->]]. contradiction.
  - split; [discriminate|]. intros [[=]|[=]].
Qed.

Lemma append_cons (c : ascii) (s x : string) :
  String c s +:+ x = String c (s +:+ x).
Proof. reflexivity. Qed.

(** What [skip_markup] reads is a run of markup. *)
Lemma skip_markup_split_bounded (n : nat) (s : string) :
  (String.length s <= n)%nat ->
  exists m, s = m +:+ skip_markup s /\ skip_markup m = EmptyString.
Proof.
  revert s. induction n as [|n IH]; intros s Hlen.
  - destruct s; [|simpl in Hlen; lia]. exists EmptyString. split; reflexivity.
  - destruct s as [|c r]; [exists EmptyString; split; reflexivity|].
    simpl in Hlen. simpl.
    destruct (Ascii.eqb c "." || Ascii.eqb c ",") eqn:Hc.
    + destruct (IH r) as (m & Hm & Hskip); [lia|].
      exists (String c m). split; [rewrite append_cons, <- Hm; reflexivity|].
      simpl. rewrite Hc. exact Hskip.
    + destruct r as [|c2 [|c3 r']]; try (exists EmptyString; split; reflexivity).
      destruct (Ascii.eqb c "<" && Ascii.eqb c2 "P" && Ascii.eqb c3 ">") eqn:Hp;
        [|exists EmptyString; split; reflexivity].
      simpl in Hlen. destruct (IH r') as (m & Hm & Hskip); [lia|].
      exists (String c (String c2 (String c3 m))).
      split; [rewrite !append_cons, <- Hm; reflexivity|].
      simpl. rewrite Hc, Hp. exact Hskip.
Qed.

Lemma skip_markup_split (s : string) :
  exists m, s = m +:+ skip_markup s /\ skip_markup m = EmptyString.
Proof. apply (skip_markup_split_bounded (String.length s)). lia. Qed.

(** A run of markup in front of [x] is skipped. *)
Lemma skip_markup_app_bounded (n : nat) (m x : string) :
  (String.length m <= n)%nat ->
  skip_markup m = EmptyString -> skip_markup (m +:+ x) = skip_markup x.
Proof.
  revert m. induction n as [|n IH]; intros m Hlen Hm.
  - destruct m; [reflexivity|simpl in Hlen; lia].
  - destruct m as [|c r]; [reflexivity|].
    simpl in Hlen, Hm. rewrite append_cons. simpl.
    destruct (Ascii.eqb c "." || Ascii.eqb c ",") eqn:Hc.
    + apply IH; [lia|exact Hm].
    + destruct r as [|c2 [|c3 r']]; try discriminate.
      destruct (Ascii.eqb c "<" && Ascii.eqb c2 "P" && Ascii.eqb c3 ">") eqn:Hp;
        [|discriminate].
      simpl in Hlen. rewrite !append_cons. rewrite Hp. apply IH; [lia|exact Hm].
Qed.

Lemma skip_markup_app (m x : string) :
  skip_markup m = EmptyString -> skip_markup (m +:+ x) = skip_markup x.
Proof. apply (skip_markup_app_bounded (String.length m)). lia. Qed.

Lemma skip_markup_tail (tail : string) :
  at_dollar tail = true -> skip_markup tail = tail.
Proof. intros Ht. apply at_dollar_spec in Ht as [->| ->]; reflexivity. Qed.

(** The first substitution of [clean_edu_text] removes the run of markup
    that ends the text (up to a final newline), and all of it: what is
    kept in front does not end with markup. *)
Lemma sub_trailing_markup_spec (s : string) :
  exists body m tail,
    s = body +:+ m +:+ tail
    /\ sub_trailing_markup s = body +:+ tail
    /\ skip_markup m = EmptyString
    /\ at_dollar tail = true
    /\ ~ ends_with_markup body.
Proof.
  induction s as [|c r IH].
  - exists EmptyString, EmptyString, EmptyString. repeat split.
    intros (r & [H|[H|H]]); destruct r; discriminate.
  - cbn [sub_trailing_markup].
    destruct (at_dollar (skip_markup (String c r))) eqn:Hd.
    + destruct (skip_markup_split (String c r)) as (m & Hm & Hskip).
      exists EmptyString, m, (skip_markup (String c r)).
      repeat split; auto.
      intros (r0 & [H|[H|H]]); destruct r0; discriminate.
    + destruct IH as (body & m & tail & Hs & Hsub & Hm & Ht & Hbody).
      exists (String c body), m, tail.
      split; [rewrite append_cons, <- Hs; reflexivity|].
      split; [rewrite append_cons, Hsub; reflexivity|].
      split; [exact Hm|]. split; [exact Ht|].
      intros (r0 & Hends).
      assert (Hwhole : forall t, skip_markup t = EmptyString ->
                                 String c body = t -> False).
      { intros t Hskip Heq.
        assert (Hfull : skip_markup (String c r) = tail).
        { rewrite Hs, <- append_cons.
          rewrite Heq, (skip_markup_app t) by exact Hskip.
          rewrite (skip_markup_app m) by exact Hm.
          apply skip_markup_tail, Ht. }
        rewrite Hfull, Ht in Hd. discriminate. }
      destruct r0 as [|c0 r0].
      * destruct Hends as [H|[H|H]];
          eapply Hwhole; try exact H; reflexivity.
      * apply Hbody. exists r0.
        destruct Hends as [H|[H|H]]; rewrite append_cons in H;
          injection H as _ H; auto.
Qed.

End TrailingMarkup.

Section TextFeatures.
Context `{External}.

(** C7. The token pipeline removes the run of [.], [,] and [<P>] that
    ends the text (all of it, up to a final newline) and one leading
    double quote, splits on whitespace and lower-cases the words: the
    text [Hello there.<P>] gives the tokens [hello] and [there], the text
    [,,,] gives no token; and for a unit whose text gives no token,
    [word_first] and [word_last] return [None] (they do not raise), while
    [num_tokens] is 0. *)
Theorem token_pipeline (current : DocumentPlus) :
  (forall e, exists body m tail,
      text e = body +:+ m +:+ tail
      /\ Re.skip_markup m = EmptyString
      /\ Re.at_dollar tail = true
      /\ ~ Re.ends_with_markup body
      /\ edu_tokens e
         = map PyStr.lower (PyStr.split (Re.sub_leading_quote (body +:+ tail))))
  /\ (forall s, Re.sub_leading_quote (String "034" s) = s)
  /\ (forall e, text e = "Hello there.<P>" -> edu_tokens e = ["hello"; "there"])
  /\ (forall e, text e = ",,," -> edu_tokens e = [])
  /\ (forall e, edu_tokens e = [] ->
        word_first current e = VNone
        /\ word_last current e = VNone
        /\ num_tokens current e = VInt 0).
Proof.
  split.
  { intros e.
    destruct (sub_trailing_markup_spec (text e))
      as (body & m & tail & Hs & Hsub & Hm & Ht & Hbody).
    exists body, m, tail. repeat split; auto.
    unfold edu_tokens, clean_edu_text, clean_corpus_word. rewrite Hsub. reflexivity. }
  split; [reflexivity|].
  split; [intros e He; unfold edu_tokens; rewrite He; reflexivity|].
  split; [intros e He; unfold edu_tokens; rewrite He; reflexivity|].
  intros e He.
  unfold word_first, word_last, num_tokens, tokens_feature, edu_feature.
  rewrite He. auto.
Qed.

Lemma length_filter_between (lo hi : Z) (edus : list EDU) :
  length (filter (fun e => lo < num e < hi) edus)
  = length (filter (fun z => lo < z < hi) (map num edus)).
Proof.
  induction edus as [|e edus IH]; [reflexivity|].
  cbn [map]. rewrite !filter_cons.
  destruct (decide (lo < num e < hi)); simpl; rewrite IH; reflexivity.
Qed.

(** How many of [k] consecutive integers from [first] on lie strictly
    between [lo] and [hi]. *)
Lemma count_between_seqZ (k : nat) (first lo hi : Z) :
  Z.of_nat (length (filter (fun z => lo < z < hi) (seqZ first (Z.of_nat k))))
  = Z.max 0 (Z.min hi (first + Z.of_nat k) - Z.max (lo + 1) first).
Proof.
  induction k as [|k IH]; [simpl; lia|].
  rewrite seqZ_S, filter_app, length_app, Nat2Z.inj_add, IH.
  rewrite filter_cons, filter_nil.
  destruct (decide (lo < first + Z.of_nat k < hi)); simpl length; lia.
Qed.

(** C4. [num_edus_between] is [|num(edu2) - num(edu1)| - 1], and it does
    not depend on the order of the two units.  In a document whose units
    are numbered consecutively in document order, this is, for two units
    with different numbers, the number of units strictly between them. *)
Theorem num_edus_between_symmetric (current : DocumentPlus) (u1 u2 : EDU) :
  num_edus_between current u1 u2 = VInt (Z.abs (num u2 - num u1) - 1)
  /\ num_edus_between current u1 u2 = num_edus_between current u2 u1
  /\ (forall (edus : list EDU) (first : Z),
        map num edus = seqZ first (Z.of_nat (length edus)) ->
        u1 ∈ edus -> u2 ∈ edus -> num u1 <> num u2 ->
        num_edus_between current u1 u2
        = VInt (Z.of_nat
                  (length
                     (filter (fun e => Z.min (num u1) (num u2) < num e
                                       < Z.max (num u1) (num u2))
                        edus)))).
Proof.
  unfold num_edus_between, edu_pair_feature.
  split; [reflexivity|].
  split; [do 2 f_equal; lia|].
  intros edus first Hnum H1 H2 Hne. f_equal.
  rewrite length_filter_between, Hnum, count_between_seqZ.
  assert (Hin : forall u, u ∈ edus ->
                          first <= num u < first + Z.of_nat (length edus)).
  { intros u Hu. apply (list_elem_of_fmap_2 num) in Hu.
    change (num <$> edus) with (map num edus) in Hu.
    rewrite Hnum in Hu. apply elem_of_seqZ in Hu. exact Hu. }
  pose proof (Hin u1 H1). pose proof (Hin u2 H2). lia.
Qed.

End TextFeatures.

(** The pipeline on the two sample texts and on a unit without tokens. *)
Lemma token_pipeline_witness :
  @edu_tokens Demo.a = ["hello"; "there"]
  /\ @edu_tokens Demo.b = []
  /\ @word_first Demo.external (@mkDocumentPlus Demo.external "d1" (Leaf Demo.b) Demo.one_edge) Demo.b = VNone
  /\ @word_last Demo.external (@mkDocumentPlus Demo.external "d1" (Leaf Demo.b) Demo.one_edge) Demo.b = VNone.
Proof.
  pose proof (@token_pipeline Demo.external
                (@mkDocumentPlus Demo.external "d1" (Leaf Demo.b) Demo.one_edge))
    as (_ & _ & H1 & H2 & H3).
  split; [apply H1; reflexivity|].
  split; [apply H2; reflexivity|].
  destruct (H3 Demo.b) as (Hf & Hl & _); [apply H2; reflexivity|].
  split; assumption.
Defined.

(** In the sample document, one unit lies between the first and the
    third. *)
Lemma num_edus_between_symmetric_witness :
  @num_edus_between Demo.external Demo.current Demo.a Demo.c
  = VInt (Z.of_nat
            (length
               (filter (fun e => Z.min (num Demo.a) (num Demo.c) < num e
                                 < Z.max (num Demo.a) (num Demo.c))
                  [Demo.a; Demo.b; Demo.c]))).
Proof.
  destruct (@num_edus_between_symmetric Demo.external Demo.current Demo.a Demo.c)
    as (_ & _ & Hcount).
  apply (Hcount [Demo.a; Demo.b; Demo.c] 1).
  - reflexivity.
  - apply list_elem_of_In. simpl. auto.
  - apply list_elem_of_In. simpl. auto.
  - discriminate.
Defined.

Section Enumeration.
Context `{External}.

Lemma length_itertools_product {A B : Type} (xs : list A) (ys : list B) :
  length (itertools_product xs ys) = (length xs * length ys)%nat.
Proof.
  unfold itertools_product.
  induction xs as [|x xs IH]; simpl; [reflexivity|].
  rewrite length_app, length_map, IH. reflexivity.
Qed.

Lemma elem_of_itertools_product {A B : Type} (xs : list A) (ys : list B) x y :
  (x, y) ∈ itertools_product xs ys <-> x ∈ xs /\ y ∈ ys.
Proof.
  unfold itertools_product. rewrite list_elem_of_In, in_flat_map. split.
  - intros (x' & Hx & Hy). apply in_map_iff in Hy as (y' & [= <- <-] & Hy).
    split; apply list_elem_of_In; assumption.
  - intros [Hx Hy]. exists x. split; [apply list_elem_of_In, Hx|].
    apply in_map_iff. exists y. split; [reflexivity|apply list_elem_of_In, Hy].
Qed.

Lemma NoDup_itertools_product {A B : Type} (xs : list A) (ys : list B) :
  NoDup xs -> NoDup ys -> NoDup (itertools_product xs ys).
Proof.
  intros Hxs Hys. unfold itertools_product.
  induction Hxs as [|x xs Hx Hxs IH]; simpl; [constructor|].
  apply NoDup_app. split; [|split; [|exact IH]].
  - apply NoDup_fmap_2; [|exact Hys]. intros y1 y2 [= ->]. reflexivity.
  - intros [x' y'] Hin1 Hin2.
    apply list_elem_of_fmap in Hin1 as (y1 & [= -> ->] & _).
    apply (elem_of_itertools_product xs ys) in Hin2 as [Hx' _]. contradiction.
Qed.

(** The self-pairs of the product with a duplicate-free list. *)
Lemma length_self_pairs (xs ys : list EDU) :
  NoDup ys -> (forall x, x ∈ xs -> x ∈ ys) ->
  length (filter (fun p : EDU * EDU => fst p = snd p) (itertools_product xs ys))
  = length xs.
Proof.
  intros Hys. unfold itertools_product.
  induction xs as [|x xs IH]; intros Hsub; simpl; [reflexivity|].
  rewrite filter_app, length_app, IH by (intros z Hz; apply Hsub; right; exact Hz).
  f_equal.
  assert (Hx : x ∈ ys) by (apply Hsub; left).
  clear IH Hsub. induction Hys as [|y ys Hy Hys IH]; [inversion Hx|].
  simpl. rewrite filter_cons. simpl.
  destruct (decide (x = y)) as [->|Hne].
  - simpl. f_equal.
    clear IH Hx. induction ys as [|z ys IH]; [reflexivity|].
    simpl. rewrite filter_cons. simpl.
    destruct (decide (y = z)) as [->|_]; [exfalso; apply Hy; left|].
    apply IH; [intros Hin; apply Hy; right; exact Hin|].
    inversion Hys; assumption.
  - apply IH. inversion Hx; subst; [contradiction|assumption].
Qed.

Lemma length_filter_split {A : Type} (P : A -> Prop) `{!forall x, Decision (P x)}
  (l : list A) :
  (length (filter P l) + length (filter (fun x => ~ P x) l) = length l)%nat.
Proof.
  induction l as [|x l IH]; [reflexivity|].
  rewrite !filter_cons. destruct (decide (P x)), (decide (~ P x)); simpl; try lia; tauto.
Qed.

Lemma length_distinct_pairs (edus : list EDU) :
  NoDup edus ->
  length (distinct_pairs edus) = (length edus * (length edus - 1))%nat.
Proof.
  intros Hnd. unfold distinct_pairs.
  pose proof (length_filter_split (fun p : EDU * EDU => fst p = snd p)
                (itertools_product edus edus)) as Hsplit.
  rewrite length_self_pairs, length_itertools_product in Hsplit by auto.
  change (fun x : EDU * EDU => ~ fst x = snd x)
    with (fun p : EDU * EDU => fst p <> snd p) in Hsplit.
  nia.
Qed.

Lemma elem_of_distinct_pairs (edus : list EDU) (x y : EDU) :
  (x, y) ∈ distinct_pairs edus <-> x ∈ edus /\ y ∈ edus /\ x <> y.
Proof.
  unfold distinct_pairs. rewrite list_elem_of_filter, elem_of_itertools_product.
  simpl. tauto.
Qed.

(** A pair made of one unit twice is skipped by the loop body. *)
Lemma pair_body_self (inputs : FeatureInput) (live : bool)
  (current : DocumentPlus) relations (sf_cache : loc) (lv : locals) (e : EDU) :
  pair_body inputs live current relations sf_cache lv (e, e) = ret lv.
Proof.
  unfold pair_body. simpl. destruct (decide (e = e)); [reflexivity|contradiction].
Qed.

Lemma bind_ret_l {A B : Type} (a : A) (k : A -> M B) : bind (ret a) k = k a.
Proof. reflexivity. Qed.

Lemma bind_assoc {A B C : Type} (c : M A) (f : A -> M B) (g : B -> M C) (w : world) :
  bind (bind c f) g w = bind c (fun a => bind (f a) g) w.
Proof. unfold bind. destruct (c w) as [[a|e] w']; reflexivity. Qed.

(** The loop over the product is the loop over the distinct pairs. *)
Lemma pair_loop_skips_self_pairs (inputs : FeatureInput) (live : bool)
  (current : DocumentPlus) relations (sf_cache : loc) (pairs : list (EDU * EDU))
  (lv : locals) (w : world) :
  for_each_with pairs (pair_body inputs live current relations sf_cache) lv w
  = for_each_with (filter (fun p => fst p <> snd p) pairs)
      (pair_body inputs live current relations sf_cache) lv w.
Proof.
  revert lv w. induction pairs as [|[x y] pairs IH]; intros lv w; [reflexivity|].
  rewrite filter_cons. simpl fst; simpl snd.
  destruct (decide (x <> y)) as [Hne|Heq].
  - simpl. unfold bind.
    destruct (pair_body inputs live current relations sf_cache lv (x, y) w)
      as [[l|e] w']; [apply IH|reflexivity].
  - assert (x = y) as -> by (destruct (decide (x = y)); [assumption|contradiction]).
    simpl. rewrite pair_body_self, bind_ret_l. apply IH.
Qed.

End Enumeration.

Section DependencyTable.
Context `{External}.

Lemma simplify_deptree_visited (dtree : Tree DepNode) :
  simplify_deptree dtree
  = foldl (fun m kv => <[fst kv := snd kv]> m) ∅ (visited_edges dtree).
Proof.
  unfold simplify_deptree, visited_edges.
  generalize (∅ : gmap (EDU * EDU) string) as m.
  induction (children dtree) as [|subtree rest IH]; intros m; [reflexivity|].
  simpl. rewrite foldl_app, IH. f_equal.
  generalize m. induction (children subtree) as [|child kids IHk]; intros m';
    [reflexivity|].
  simpl. apply IHk.
Qed.

Lemma foldl_insert_is_Some {K V : Type} `{Countable K}
  (l : list (K * V)) (m : gmap K V) (k : K) :
  is_Some (foldl (fun m kv => <[fst kv := snd kv]> m) m l !! k)
  <-> is_Some (m !! k) \/ k ∈ map fst l.
Proof.
  revert m. induction l as [|[k' v] l IH]; intros m; simpl.
  - split; [auto|]. intros [Hm|Hin]; [exact Hm|inversion Hin].
  - rewrite IH, lookup_insert_is_Some. split.
    + intros [[->|[_ Hm]]|Hin]; [right; left|left; exact Hm|right; right; exact Hin].
    + intros [Hm|Hin].
      * destruct (decide (k' = k)); [left; left; assumption|left; right; auto].
      * inversion Hin; subst; [left; left; reflexivity|right; assumption].
Qed.

(** The table has a key exactly for the edges from a child of the root
    to a child of that child. *)
Lemma simplify_deptree_keys (dtree : Tree DepNode) (p c : EDU) :
  is_Some (simplify_deptree dtree !! (p, c))
  <-> exists subtree child,
      subtree ∈ children dtree /\ child ∈ children subtree
      /\ p = edu (treenode subtree) /\ c = edu (treenode child).
Proof.
  rewrite simplify_deptree_visited, foldl_insert_is_Some, lookup_empty.
  unfold visited_edges. split.
  - intros [[? [=]]|Hin].
    apply list_elem_of_fmap in Hin as ([[p' c'] r] & Heq & Hin).
    apply list_elem_of_In, in_flat_map in Hin as (subtree & Hs & Hin).
    apply in_map_iff in Hin as (child & Heq' & Hc).
    simpl in Heq. simplify_eq.
    exists subtree, child. rewrite !list_elem_of_In. auto.
  - intros (subtree & child & Hs & Hc & -> & ->). right.
    apply list_elem_of_fmap.
    exists ((edu (treenode subtree), edu (treenode child)), rel (treenode child)).
    split; [reflexivity|].
    apply list_elem_of_In, in_flat_map. exists subtree.
    split; [apply list_elem_of_In, Hs|].
    apply in_map_iff. exists child. split; [reflexivity|apply list_elem_of_In, Hc].
Qed.

End DependencyTable.

(** C6. On the tree whose head [a] has the single dependent [b], attached
    by [elaboration], [simplify_deptree] returns the empty table: the
    edge from the root to its child is not in it.  On the chain from [a]
    over [b] to [c] it only has the edge from [b] to [c]. *)
Theorem simplify_deptree_drops_root_edges :
  @simplify_deptree Demo.one_edge !! (Demo.a, Demo.b) = None
  /\ @simplify_deptree Demo.one_edge = ∅
  /\ @simplify_deptree Demo.chain !! (Demo.a, Demo.b) = None
  /\ @simplify_deptree Demo.chain !! (Demo.b, Demo.c) = Some "joint".
Proof.
  split; [vm_compute; reflexivity|].
  split; [reflexivity|].
  split; vm_compute; reflexivity.
Qed.

Section VocabularyDump.
Import Vocabulary.

Lemma insert_by_Permutation {A : Type} (key : A -> Z) (x : A) (l : list A) :
  Permutation (insert_by key x l) (x :: l).
Proof.
  induction l as [|y l IH]; simpl; [reflexivity|].
  destruct (key x <=? key y)%Z; [reflexivity|].
  rewrite IH. apply perm_swap.
Qed.

Lemma sorted_Permutation {A : Type} (key : A -> Z) (xs : list A) :
  Permutation (sorted key xs) xs.
Proof.
  induction xs as [|x xs IH]; simpl; [reflexivity|].
  unfold sorted in *. simpl. rewrite insert_by_Permutation, IH. reflexivity.
Qed.

Lemma insert_by_sorted {A : Type} (key : A -> Z) (x : A) (l : list A) :
  StronglySorted (fun a b => (key a <= key b)%Z) l ->
  StronglySorted (fun a b => (key a <= key b)%Z) (insert_by key x l).
Proof.
  induction 1 as [|y l Hl IH Hy]; simpl; [repeat constructor|].
  destruct (Z.leb_spec (key x) (key y)) as [Hle|Hgt].
  - constructor; [constructor; assumption|].
    constructor; [exact Hle|].
    eapply Forall_impl; [exact Hy|]. simpl. intros z Hz. lia.
  - constructor; [exact IH|].
    rewrite insert_by_Permutation. constructor; [lia|exact Hy].
Qed.

Lemma sorted_sorted {A : Type} (key : A -> Z) (xs : list A) :
  StronglySorted (fun a b => (key a <= key b)%Z) (sorted key xs).
Proof.
  induction xs as [|x xs IH]; [constructor|].
  apply insert_by_sorted, IH.
Qed.

(** Sorting a list that is in order changes nothing. *)
Lemma sorted_id {A : Type} (key : A -> Z) (xs : list A) :
  StronglySorted (fun a b => (key a <= key b)%Z) xs -> sorted key xs = xs.
Proof.
  induction 1 as [|x xs Hxs IH Hx]; [reflexivity|].
  unfold sorted in *. simpl. rewrite IH.
  destruct xs as [|y ys]; [reflexivity|]. simpl.
  inversion Hx; subst.
  destruct (Z.leb_spec (key x) (key y)); [reflexivity|lia].
Qed.

Lemma sorted_strict {A : Type} (key : A -> Z) (xs : list A) :
  NoDup (map key xs) ->
  StronglySorted (fun a b => (key a <= key b)%Z) xs ->
  StronglySorted (fun a b => (key a < key b)%Z) xs.
Proof.
  intros Hnd Hs. induction Hs as [|x xs Hxs IH Hx]; [constructor|].
  simpl in Hnd. apply NoDup_cons in Hnd as [Hnotin Hnd].
  constructor; [apply IH, Hnd|].
  apply Forall_forall. intros y Hy.
  rewrite Forall_forall in Hx. specialize (Hx y Hy).
  assert (key x <> key y).
  { intros Heq. apply Hnotin. rewrite Heq.
    apply list_elem_of_In, in_map, list_elem_of_In, Hy. }
  lia.
Qed.

Lemma dump_writes_sorted_lines (items : list (string * Z)) (f : file) :
  _dump_vocabulary items f
  = (f ++ map (fun e => line_pattern (fst e) (PyStr.of_int (snd e + 1)))
            (sorted snd items))%list.
Proof.
  unfold _dump_vocabulary, write.
  generalize (sorted snd items) as l. intros l. revert f.
  induction l as [|e l IH]; intros f; simpl; [rewrite app_nil_r; reflexivity|].
  rewrite IH, <- app_assoc. reflexivity.
Qed.

Lemma rsplit_tab_app_None (s1 s2 : string) :
  rsplit_tab s1 = None -> rsplit_tab s2 = None -> rsplit_tab (s1 +:+ s2) = None.
Proof.
  intros H1 H2. induction s1 as [|c r IH]; simpl in *; [exact H2|].
  destruct (rsplit_tab r) as [[? ?]|]; [discriminate|].
  rewrite IH by reflexivity.
  destruct (Ascii.eqb c "009"); [discriminate|reflexivity].
Qed.

Lemma rsplit_tab_uint (d : Decimal.uint) :
  rsplit_tab (NilEmpty.string_of_uint d) = None.
Proof. induction d; simpl; rewrite ?IHd; reflexivity. Qed.

Lemma rsplit_tab_of_int (z : Z) : rsplit_tab (PyStr.of_int z) = None.
Proof.
  unfold PyStr.of_int, NilZero.string_of_int, NilZero.string_of_uint.
  destruct (Z.to_int z) as [d|d]; destruct d; simpl;
    rewrite ?rsplit_tab_uint; reflexivity.
Qed.

Lemma rsplit_tab_last (fn rest : string) :
  rsplit_tab rest = None ->
  rsplit_tab (fn +:+ String "009" rest) = Some (fn, rest).
Proof.
  intros Hrest. induction fn as [|c r IH]; simpl.
  - rewrite Hrest. reflexivity.
  - rewrite IH. reflexivity.
Qed.

Lemma chomp_newline (s : string) : chomp (s +:+ newline) = Some s.
Proof.
  induction s as [|c r IH]; [reflexivity|].
  change (String c r +:+ newline) with (String c (r +:+ newline)).
  simpl. rewrite IH. destruct r; reflexivity.
Qed.

(** [int(str(z))] is [z]. *)
Lemma to_int_of_int (z : Z) : PyStr.to_int (PyStr.of_int z) = Some z.
Proof.
  unfold PyStr.to_int, PyStr.of_int.
  rewrite NilZero.isi.
  - rewrite DecimalZ.of_to. reflexivity.
  - destruct z; simpl; try discriminate.
    intros [= Hp]. apply (DecimalPos.Unsigned.to_uint_nonnil _ Hp).
  - destruct z; simpl; try discriminate.
    intros [= Hp]. apply (DecimalPos.Unsigned.to_uint_nonnil _ Hp).
Qed.

(** A written line reads back as the name and the written index. *)
Lemma read_line_pattern (fn : string) (z : Z) :
  read_line (line_pattern fn (PyStr.of_int z)) = Some (fn, z).
Proof.
  unfold read_line, line_pattern.
  rewrite rsplit_tab_last.
  - change (String "010" EmptyString) with newline.
    rewrite chomp_newline, to_int_of_int. reflexivity.
  - apply rsplit_tab_app_None; [apply rsplit_tab_of_int|reflexivity].
Qed.

Lemma omap_read_lines (entries : list (string * Z)) :
  omap read_line
    (map (fun e => line_pattern (fst e) (PyStr.of_int (snd e + 1))) entries)
  = map (fun e => (fst e, (snd e + 1)%Z)) entries.
Proof.
  induction entries as [|e l IH]; [reflexivity|].
  change (omap read_line (map ?f (e :: l)))
    with (match read_line (f e) with
          | Some y => y :: omap read_line (map f l)
          | None => omap read_line (map f l)
          end).
  cbv beta. rewrite read_line_pattern, IH. reflexivity.
Qed.

Lemma shifted_sorted (entries : list (string * Z)) :
  StronglySorted (fun a b => (snd a <= snd b)%Z) entries ->
  StronglySorted (fun a b : string * Z => (snd a <= snd b)%Z)
    (map (fun e => (fst e, (snd e + 1)%Z)) entries).
Proof.
  induction 1 as [|e l Hl IH He]; simpl; constructor; [exact IH|].
  apply Forall_forall. intros x Hx.
  apply list_elem_of_In, in_map_iff in Hx as (y & <- & Hy).
  apply list_elem_of_In in Hy.
  rewrite Forall_forall in He. specialize (He y Hy). simpl. lia.
Qed.

Lemma append_append (s1 s2 s3 : string) : (s1 +:+ s2) +:+ s3 = s1 +:+ (s2 +:+ s3).
Proof.
  induction s1 as [|c s1 IH]; [reflexivity|].
  rewrite !append_cons, IH. reflexivity.
Qed.

Lemma contents_app (f g : file) : contents (f ++ g)%list = contents f +:+ contents g.
Proof.
  unfold contents. induction f as [|s f IH]; [reflexivity|].
  simpl. rewrite IH, append_append. reflexivity.
Qed.

Lemma chars_append (s1 s2 : string) :
  list_ascii_of_string (s1 +:+ s2)
  = (list_ascii_of_string s1 ++ list_ascii_of_string s2)%list.
Proof.
  induction s1 as [|c s1 IH]; [reflexivity|].
  rewrite append_cons. simpl. rewrite IH. reflexivity.
Qed.

(** A line that was written with its newline is read back whole. *)
Lemma readlines_line (body rest : string) :
  ~ In "010"%char (list_ascii_of_string body) ->
  readlines (body +:+ newline +:+ rest) = (body +:+ newline) :: readlines rest.
Proof.
  induction body as [|c body IH]; intros Hbody; [reflexivity|].
  rewrite !append_cons. cbn [readlines].
  destruct (Ascii.eqb_spec c "010") as [->|Hc].
  - exfalso. apply Hbody. left. reflexivity.
  - rewrite IH by (intros Hin; apply Hbody; right; exact Hin). reflexivity.
Qed.

Lemma no_newline_uint (d : Decimal.uint) :
  ~ In "010"%char (list_ascii_of_string (NilEmpty.string_of_uint d)).
Proof.
  induction d; simpl; [intros []|..]; intros [Heq|Hin]; try discriminate; auto.
Qed.

(** [str(z)] has no newline. *)
Lemma no_newline_of_int (z : Z) :
  ~ In "010"%char (list_ascii_of_string (PyStr.of_int z)).
Proof.
  unfold PyStr.of_int, NilZero.string_of_int, NilZero.string_of_uint.
  destruct (Z.to_int z) as [d|d]; destruct d; simpl;
    intros Hin; repeat (destruct Hin as [Heq|Hin]; [discriminate|]);
    try (exact (no_newline_uint _ Hin)); try contradiction.
Qed.

Lemma readlines_contents (entries : list (string * Z)) :
  Forall (fun e => ~ In "010"%char (list_ascii_of_string (fst e))) entries ->
  readlines
    (contents (map (fun e => line_pattern (fst e) (PyStr.of_int (snd e + 1))) entries))
  = map (fun e => line_pattern (fst e) (PyStr.of_int (snd e + 1))) entries.
Proof.
  induction 1 as [|e l He Hl IH]; [reflexivity|].
  cbn [map contents foldr]. fold (contents (map (fun e => line_pattern (fst e) (PyStr.of_int (snd e + 1))) l)).
  assert (Hline : line_pattern (fst e) (PyStr.of_int (snd e + 1))
                  = (fst e +:+ String "009" (PyStr.of_int (snd e + 1))) +:+ newline).
  { unfold line_pattern, newline. rewrite append_append, append_cons.
    reflexivity. }
  rewrite Hline, append_append, readlines_line, IH; [reflexivity|].
  rewrite chars_append. intros Hin. apply in_app_or in Hin as [Hin|Hin].
  - exact (He Hin).
  - destruct Hin as [Heq|Hin]; [discriminate|].
    exact (no_newline_of_int _ Hin).
Qed.

(** C8, as the code has it. For a vocabulary with distinct indices
    whose names have no newline, whatever the order in which the
    dictionary enumerates its entries, the serializer adds to the file
    one line per entry, of the form name, tab, index + 1, newline, in
    ascending order of index; the lines of what was added, read back
    from the text of the file, each give their name with the index
    shifted by one, sorting them again by recorded index leaves them
    in the order they were written, and the mapping they give is the
    vocabulary with every index shifted by exactly one. *)
Theorem dump_vocabulary_round_trip (vocabulary : gmap string Z)
  (items : list (string * Z)) (f : file) :
  Permutation items (map_to_list vocabulary) ->
  NoDup (map snd items) ->
  Forall (fun e => ~ In "010"%char (list_ascii_of_string (fst e))) items ->
  exists entries written,
    contents (_dump_vocabulary items f) = contents f +:+ written
    /\ Permutation entries items
    /\ StronglySorted (fun a b => (snd a < snd b)%Z) entries
    /\ readlines written
       = map (fun e => fst e +:+ String "009"
                        (PyStr.of_int (snd e + 1) +:+ newline)) entries
    /\ length (readlines written) = size vocabulary
    /\ map read_line (readlines written)
       = map (fun e => Some (fst e, (snd e + 1)%Z)) entries
    /\ resorted (readlines written) = map (fun e => (fst e, (snd e + 1)%Z)) entries
    /\ list_to_map (resorted (readlines written))
       = ((fun i => i + 1)%Z <$> vocabulary).
Proof.
  intros Hperm Hnd Hnames.
  set (line := fun e : string * Z => line_pattern (fst e) (PyStr.of_int (snd e + 1))).
  exists (sorted snd items), (contents (map line (sorted snd items))).
  pose proof (sorted_Permutation snd items) as Hsp.
  pose proof (sorted_sorted snd items) as Hss.
  assert (Hread : readlines (contents (map line (sorted snd items)))
                  = map line (sorted snd items)).
  { apply readlines_contents. apply Forall_forall. intros e He.
    rewrite Forall_forall in Hnames. apply Hnames. rewrite <- Hsp. exact He. }
  rewrite Hread.
  assert (Hres : resorted (map line (sorted snd items))
                 = map (fun e => (fst e, (snd e + 1)%Z)) (sorted snd items)).
  { unfold resorted, line. rewrite omap_read_lines.
    apply sorted_id, shifted_sorted, Hss. }
  split; [rewrite dump_writes_sorted_lines; apply contents_app|].
  split; [exact Hsp|].
  split.
  { apply sorted_strict; [|exact Hss].
    assert (Hp : Permutation (map snd (sorted snd items)) (map snd items))
      by apply Permutation_map, Hsp.
    rewrite Hp. exact Hnd. }
  split; [reflexivity|].
  split.
  { rewrite length_map, (Permutation_length Hsp), (Permutation_length Hperm).
    apply length_map_to_list. }
  split.
  { rewrite map_map. apply map_ext. intros e. apply read_line_pattern. }
  split; [exact Hres|].
  rewrite Hres.
  change (map (fun e : string * Z => (fst e, (snd e + 1)%Z)) (sorted snd items))
    with (prod_map id (fun i => (i + 1)%Z) <$> sorted snd items).
  rewrite list_to_map_fmap. f_equal.
  transitivity (list_to_map (map_to_list vocabulary) : gmap string Z);
    [|apply list_to_map_to_list].
  apply list_to_map_proper.
  - assert (Hp : Permutation ((sorted snd items).*1) ((map_to_list vocabulary).*1)).
    { apply fmap_Permutation. etransitivity; [exact Hsp|exact Hperm]. }
    rewrite Hp. apply NoDup_fst_map_to_list.
  - etransitivity; [exact Hsp|exact Hperm].
Qed.

End VocabularyDump.

(** A vocabulary of three names, dumped into an empty file. *)
Lemma dump_vocabulary_round_trip_witness :
  exists entries written,
    Vocabulary.contents
      (Vocabulary._dump_vocabulary [("a", 2%Z); ("b", 0%Z); ("c", 1%Z)] [])
    = written
    /\ Permutation entries [("a", 2%Z); ("b", 0%Z); ("c", 1%Z)]
    /\ StronglySorted (fun x y => (snd x < snd y)%Z) entries
    /\ Vocabulary.resorted (Vocabulary.readlines written)
       = map (fun e => (fst e, (snd e + 1)%Z)) entries
    /\ list_to_map (Vocabulary.resorted (Vocabulary.readlines written))
       = ((fun i => i + 1)%Z <$>
            (list_to_map [("a", 2%Z); ("b", 0%Z); ("c", 1%Z)] : gmap string Z)).
Proof.
  destruct (dump_vocabulary_round_trip
              (list_to_map [("a", 2%Z); ("b", 0%Z); ("c", 1%Z)])
              [("a", 2%Z); ("b", 0%Z); ("c", 1%Z)] [])
    as (entries & written & Hdump & Hperm & Hsorted & _ & _ & _ & Hres & Hmap).
  - symmetry. apply map_to_list_to_map.
    apply (bool_decide_unpack _). vm_compute. reflexivity.
  - apply (bool_decide_unpack _). vm_compute. reflexivity.
  - repeat constructor; simpl; intros Hin;
      repeat (destruct Hin as [Heq|Hin]; [discriminate|]); exact Hin.
  - exists entries, written. auto.
Defined.

(** C8, the part that fails: a name may hold a newline.  The vocabulary
    of the one name [x], tab, [1], newline, [y] at index 1 has distinct
    indices, but it leaves in the file the very text that the
    vocabulary of [x] at 0 and [y] at 1 leaves: two lines for one
    entry, and what is read back is not the vocabulary shifted by
    one. *)
Lemma dump_vocabulary_newline_in_name :
  NoDup (map snd [(Demo.name_with_newline, 1%Z)])
  /\ Vocabulary.contents
       (Vocabulary._dump_vocabulary [(Demo.name_with_newline, 1%Z)] [])
     = Vocabulary.contents
         (Vocabulary._dump_vocabulary [("x", 0%Z); ("y", 1%Z)] [])
  /\ length (Vocabulary.readlines
               (Vocabulary.contents
                  (Vocabulary._dump_vocabulary [(Demo.name_with_newline, 1%Z)] [])))
     = 2%nat
  /\ Vocabulary.resorted
       (Vocabulary.readlines
          (Vocabulary.contents
             (Vocabulary._dump_vocabulary [(Demo.name_with_newline, 1%Z)] [])))
     = [("x", 1%Z); ("y", 2%Z)]
  /\ list_to_map
       (Vocabulary.resorted
          (Vocabulary.readlines
             (Vocabulary.contents
                (Vocabulary._dump_vocabulary [(Demo.name_with_newline, 1%Z)] []))))
     <> ((fun i => i + 1)%Z <$>
           (list_to_map [(Demo.name_with_newline, 1%Z)] : gmap string Z)).
Proof.
  split; [apply (bool_decide_unpack _); vm_compute; reflexivity|].
  split; [vm_compute; reflexivity|].
  split; [vm_compute; reflexivity|].
  split; [vm_compute; reflexivity|].
  intros Heq. apply (f_equal (fun m : gmap string Z => m !! "x")) in Heq.
  vm_compute in Heq. discriminate.
Qed.

Section Store.
Context `{External}.

Lemma bind_run {A B : Type} (c : M A) (k : A -> M B) (w w' : world) (a : A) :
  c w = (Ok a, w') -> bind c k w = k a w'.
Proof. intros Hc. unfold bind. rewrite Hc. reflexivity. Qed.

Lemma bind_run_raise {A B : Type} (c : M A) (k : A -> M B) (w w' : world) (e : exn) :
  c w = (Raise e, w') -> bind c k w = (Raise e, w').
Proof. intros Hc. unfold bind. rewrite Hc. reflexivity. Qed.

Lemma deref_Some (w : world) (l : loc) (o : object) :
  heap w !! l = Some o -> deref l w = (Ok o, w).
Proof. intros Hl. unfold deref. rewrite Hl. reflexivity. Qed.

Lemma world_eta (w : world) : mkWorld (heap w) (emitted w) = w.
Proof. destruct w; reflexivity. Qed.

Lemma assign_item_with_items (o : object) (d : gmap string pyval) n v :
  items_of o = Some d -> assign_item o n v = Some (with_items o (<[n := v]> d)).
Proof. destruct o; simpl; intros [= <-]; reflexivity. Qed.

Lemma with_items_id (o : object) (d : gmap string pyval) :
  items_of o = Some d -> with_items o d = o.
Proof.
  destruct o as [g|g groups|g|pk| |]; simpl; intros [= <-]; try reflexivity.
  - destruct g; reflexivity.
  - destruct g; reflexivity.
  - destruct g; reflexivity.
  - destruct pk as [g ? ? ? ?]; destruct g; reflexivity.
Qed.

Lemma with_items_twice (o : object) (d1 d2 : gmap string pyval) :
  with_items (with_items o d1) d2 = with_items o d2.
Proof. destruct o; reflexivity. Qed.

Lemma items_of_with_items (o : object) (d d' : gmap string pyval) :
  items_of o = Some d -> items_of (with_items o d') = Some d'.
Proof. destruct o; simpl; intros [= <-]; reflexivity. Qed.

Lemma setitem_run (w : world) (t : loc) (o : object) (d : gmap string pyval) n v :
  heap w !! t = Some o -> items_of o = Some d ->
  setitem t n v w
  = (Ok tt, mkWorld (<[t := with_items o (<[n := v]> d)]> (heap w)) (emitted w)).
Proof.
  intros Ht Hd. unfold setitem.
  rewrite (bind_run _ _ _ _ _ (deref_Some _ _ _ Ht)).
  rewrite (assign_item_with_items _ _ _ _ Hd). reflexivity.
Qed.

(** A loop of item assignments on one key group. *)
Lemma for_each_setitem {A : Type} (ks : list A) (nm : A -> string)
  (val : A -> pyval) (w : world) (t : loc) (o : object) (d : gmap string pyval) :
  heap w !! t = Some o -> items_of o = Some d ->
  for_each ks (fun k => setitem t (nm k) (val k)) w
  = (Ok tt,
     mkWorld (<[t := with_items o (write_all d (map (fun k => (nm k, val k)) ks))]>
                (heap w))
       (emitted w)).
Proof.
  revert w o d. induction ks as [|k ks IH]; intros w o d Ht Hd.
  - unfold write_all. simpl. unfold ret.
    rewrite (with_items_id _ _ Hd), (list_insert_id _ _ _ Ht).
    rewrite world_eta. reflexivity.
  - simpl.
    rewrite (bind_run _ _ _ _ _ (setitem_run _ _ _ _ _ _ Ht Hd)).
    rewrite (IH _ (with_items o (<[nm k := val k]> d)) (<[nm k := val k]> d)).
    + unfold write_all. simpl.
      rewrite list_insert_insert_eq, with_items_twice. reflexivity.
    + simpl. apply list_lookup_insert_eq. eapply lookup_lt_Some, Ht.
    + eapply items_of_with_items, Hd.
Qed.

Lemma write_all_app (d : gmap string pyval) (l1 l2 : list (string * pyval)) :
  write_all d (l1 ++ l2) = write_all (write_all d l1) l2.
Proof. apply foldl_app. Qed.

Lemma write_all_lookup_other (d : gmap string pyval) (kvs : list (string * pyval)) n :
  n ∉ map fst kvs -> write_all d kvs !! n = d !! n.
Proof.
  revert d. induction kvs as [|[k v] kvs IH]; intros d Hn; [reflexivity|].
  simpl. rewrite IH.
  - apply lookup_insert_ne. intros ->. apply Hn. left.
  - intros Hin. apply Hn. right. exact Hin.
Qed.

Lemma write_all_lookup (d : gmap string pyval) (kvs : list (string * pyval)) n v :
  NoDup (map fst kvs) -> (n, v) ∈ kvs -> write_all d kvs !! n = Some v.
Proof.
  revert d. induction kvs as [|[k v'] kvs IH]; intros d Hnd Hin; [inversion Hin|].
  simpl in *. apply NoDup_cons in Hnd as [Hk Hnd].
  apply elem_of_cons in Hin as [[= -> ->]|Hin].
  - rewrite write_all_lookup_other by exact Hk. apply lookup_insert_eq.
  - apply IH; assumption.
Qed.

(** [SingleEduSubgroup.fill]: the values of the receiver's keys are
    written into [target], or into the receiver without a target. *)
Lemma SingleEduSubgroup_fill_run (w : world) (self : loc)
  (g : KeyGroup single_fn) (current : DocumentPlus) (e : EDU)
  (target : option loc) (o : object) (d : gmap string pyval) :
  heap w !! self = Some (OSingleEduSubgroup g) ->
  heap w !! default self target = Some o ->
  items_of o = Some d ->
  SingleEduSubgroup_fill self current e target w
  = (Ok tt,
     mkWorld (<[default self target :=
                  with_items o (write_all d (single_values (keys g) current e))]>
                (heap w))
       (emitted w)).
Proof.
  intros Hself Hvec Hd.
  unfold SingleEduSubgroup_fill, SingleEduSubgroup__magic_fill.
  rewrite (bind_run _ _ _ _ _ (deref_Some _ _ _ Hself)).
  replace (match target with None => self | Some t => t end)
    with (default self target) by (destruct target; reflexivity).
  apply (for_each_setitem (keys g) name (fun k => function k current e)); assumption.
Qed.

Lemma single_values_app (ks1 ks2 : list (MagicKey single_fn)) current e :
  single_values (ks1 ++ ks2) current e
  = (single_values ks1 current e ++ single_values ks2 current e)%list.
Proof. apply map_app. Qed.

Lemma single_subgroups_update (h : list object) groups kss (vec : loc)
  (o : object) (d : gmap string pyval) :
  single_subgroups h groups kss -> h !! vec = Some o ->
  single_subgroups (<[vec := with_items o d]> h) groups kss.
Proof.
  intros Hg Hvec. induction Hg as [|l ks groups kss (g & Hl & Hks) Hg IH];
    constructor; [|exact IH].
  destruct (decide (vec = l)) as [->|Hne].
  - rewrite Hl in Hvec. injection Hvec as <-.
    exists (set_items g d). split; [|exact Hks].
    apply list_lookup_insert_eq. eapply lookup_lt_Some, Hl.
  - exists g. split; [|exact Hks]. rewrite list_lookup_insert_ne; assumption.
Qed.

(** The loop of [SingleEduKeys.fill] over the sub-groups. *)
Lemma for_each_subgroup_fill (groups : list loc) kss (w : world)
  (current : DocumentPlus) (e : EDU) (vec : loc) (o : object)
  (d : gmap string pyval) :
  single_subgroups (heap w) groups kss ->
  heap w !! vec = Some o -> items_of o = Some d ->
  for_each groups
    (fun group => SingleEduSubgroup_fill group current e (Some vec)) w
  = (Ok tt,
     mkWorld (<[vec := with_items o
                         (write_all d (single_values (concat kss) current e))]>
                (heap w))
       (emitted w)).
Proof.
  intros Hg. revert w o d Hg.
  generalize dependent kss. induction groups as [|l groups IH];
    intros kss w o d Hg Hvec Hd; inversion Hg as [|? ks ? kss' (g & Hl & Hks) Hg']; subst.
  - unfold write_all. simpl. unfold ret.
    rewrite (with_items_id _ _ Hd), (list_insert_id _ _ _ Hvec), world_eta.
    reflexivity.
  - simpl.
    rewrite (bind_run _ _ _ _ _
               (SingleEduSubgroup_fill_run w l g current e (Some vec) o d Hl Hvec Hd)).
    simpl default.
    erewrite IH.
    + simpl. rewrite list_insert_insert_eq, with_items_twice.
      rewrite single_values_app, write_all_app. reflexivity.
    + simpl. apply single_subgroups_update; eassumption.
    + simpl. apply list_lookup_insert_eq. eapply lookup_lt_Some, Hvec.
    + eapply items_of_with_items, Hd.
Qed.

Lemma SingleEduKeys_fill_run (w : world) (self : loc)
  (g : KeyGroup single_fn) (groups : list loc) kss
  (current : DocumentPlus) (e : EDU)
  (target : option loc) (o : object) (d : gmap string pyval) :
  heap w !! self = Some (OSingleEduKeys g groups) ->
  single_subgroups (heap w) groups kss ->
  heap w !! default self target = Some o ->
  items_of o = Some d ->
  SingleEduKeys_fill self current e target w
  = (Ok tt,
     mkWorld (<[default self target :=
                  with_items o (write_all d (single_values (concat kss) current e))]>
                (heap w))
       (emitted w)).
Proof.
  intros Hself Hg Hvec Hd. unfold SingleEduKeys_fill.
  rewrite (bind_run _ _ _ _ _ (deref_Some _ _ _ Hself)).
  replace (match target with None => self | Some t => t end)
    with (default self target) by (destruct target; reflexivity).
  eapply for_each_subgroup_fill; eassumption.
Qed.

(** What a fill leaves in the store: the target holds the values, and
    every other object is as before. *)
Lemma updated_holds_values (h : list object) (vec : loc) (o : object)
  (d : gmap string pyval) (kvs : list (string * pyval)) :
  h !! vec = Some o -> items_of o = Some d -> NoDup (map fst kvs) ->
  holds_values (<[vec := with_items o (write_all d kvs)]> h) vec kvs
  /\ (forall l, l <> vec ->
        (<[vec := with_items o (write_all d kvs)]> h) !! l = h !! l).
Proof.
  intros Hvec Hd Hnd. split.
  - exists (with_items o (write_all d kvs)), (write_all d kvs).
    split; [apply list_lookup_insert_eq; eapply lookup_lt_Some, Hvec|].
    split; [eapply items_of_with_items, Hd|].
    intros n v Hin. apply write_all_lookup; assumption.
  - intros l Hne. apply list_lookup_insert_ne. auto.
Qed.

Lemma single_values_names (ks : list (MagicKey single_fn)) current e :
  map fst (single_values ks current e) = map name ks.
Proof. unfold single_values. rewrite map_map. reflexivity. Qed.

(** C10. A fill with an explicit target other than the receiver, on a
    single-unit sub-group ([receiver] is [inl]) as on the merged
    single-unit group ([inr], with its sub-groups), returns normally,
    leaves in the target the computed value of every declared key under
    the key's name, and leaves the receiver and every object other than
    the target as they were.  Without a target the values are written
    into the receiver itself. *)
Theorem fill_writes_target_only (w : world) (self t : loc)
  (current : DocumentPlus) (e : EDU) (o : object) (d : gmap string pyval)
  (ks : list (MagicKey single_fn)) (fill : option loc -> M unit) :
  (exists g, heap w !! self = Some (OSingleEduSubgroup g) /\ keys g = ks
             /\ fill = SingleEduSubgroup_fill self current e)
  \/ (exists g groups kss,
        heap w !! self = Some (OSingleEduKeys g groups)
        /\ single_subgroups (heap w) groups kss /\ concat kss = ks
        /\ fill = SingleEduKeys_fill self current e) ->
  NoDup (map name ks) ->
  t <> self ->
  heap w !! t = Some o ->
  items_of o = Some d ->
  (exists w',
      fill (Some t) w = (Ok tt, w')
      /\ holds_values (heap w') t (single_values ks current e)
      /\ heap w' !! self = heap w !! self
      /\ (forall l, l <> t -> heap w' !! l = heap w !! l)
      /\ emitted w' = emitted w)
  /\ (exists w',
        fill None w = (Ok tt, w')
        /\ holds_values (heap w') self (single_values ks current e)
        /\ (forall l, l <> self -> heap w' !! l = heap w !! l)).
Proof.
  intros Hrecv Hnd Hne Ht Hd.
  rewrite <- (single_values_names ks current e) in Hnd.
  destruct Hrecv as [(g & Hself & <- & ->)|(g & groups & kss & Hself & Hg & <- & ->)].
  - split.
    + rewrite (SingleEduSubgroup_fill_run w self g current e (Some t) o d Hself Ht Hd).
      eexists. split; [reflexivity|]. simpl.
      destruct (updated_holds_values (heap w) t o d _ Ht Hd Hnd) as [Hv Hother].
      repeat split; auto.
    + rewrite (SingleEduSubgroup_fill_run w self g current e None
                 (OSingleEduSubgroup g) (items g) Hself Hself eq_refl).
      eexists. split; [reflexivity|]. simpl.
      apply (updated_holds_values (heap w) self _ (items g) _ Hself eq_refl Hnd).
  - split.
    + rewrite (SingleEduKeys_fill_run w self g groups kss current e (Some t) o d
                 Hself Hg Ht Hd).
      eexists. split; [reflexivity|]. simpl.
      destruct (updated_holds_values (heap w) t o d _ Ht Hd Hnd) as [Hv Hother].
      repeat split; auto.
    + rewrite (SingleEduKeys_fill_run w self g groups kss current e None
                 (OSingleEduKeys g groups) (items g) Hself Hg Hself eq_refl).
      eexists. split; [reflexivity|]. simpl.
      apply (updated_holds_values (heap w) self _ (items g) _ Hself eq_refl Hnd).
Qed.

End Store.

(** Filling the second of two fresh single-unit vectors through the
    first one, and a sub-group of the first into the second. *)
Lemma fill_writes_target_only_witness :
  (exists w',
      @SingleEduKeys_fill Demo.external 2%nat Demo.current Demo.a (Some 5%nat)
        Demo.two_vectors = (Ok tt, w')
      /\ heap w' !! 2%nat = heap Demo.two_vectors !! 2%nat
      /\ holds_values (heap w') 5%nat
           (single_values
              (@SingleEduSubgroup_Meta_features Demo.external
               ++ @SingleEduSubgroup_Text_features Demo.external)
              Demo.current Demo.a))
  /\ (exists w',
        @SingleEduSubgroup_fill Demo.external 0%nat Demo.current Demo.a (Some 5%nat)
          Demo.two_vectors = (Ok tt, w')
        /\ heap w' !! 0%nat = heap Demo.two_vectors !! 0%nat).
Proof.
  split.
  - edestruct (@fill_writes_target_only Demo.external Demo.two_vectors 2%nat 5%nat
                 Demo.current Demo.a)
      as [(w' & Hrun & Hv & Hs & _) _].
    + right. do 3 eexists.
      split; [reflexivity|].
      split; [|split; reflexivity].
      unfold single_subgroups.
      constructor; [eexists; split; reflexivity|].
      constructor; [eexists; split; reflexivity|].
      constructor.
    + apply (bool_decide_unpack _). vm_compute. reflexivity.
    + discriminate.
    + reflexivity.
    + reflexivity.
    + exists w'. split; [exact Hrun|]. split; [exact Hs|exact Hv].
  - edestruct (@fill_writes_target_only Demo.external Demo.two_vectors 0%nat 5%nat
                 Demo.current Demo.a)
      as [(w' & Hrun & _ & Hs & _) _].
    + left. eexists. split; [reflexivity|]. split; reflexivity.
    + apply (bool_decide_unpack _). vm_compute. reflexivity.
    + discriminate.
    + reflexivity.
    + reflexivity.
    + exists w'. split; [exact Hrun|exact Hs].
Defined.

Section PairFill.
Context `{External}.

Lemma sf_cache_lookup_run (w : world) (c : loc) (d : gmap EDU loc) (e : EDU) :
  heap w !! c = Some (ODict d) ->
  sf_cache_lookup (Some c) e w
  = (match d !! e with Some v => Ok v | None => Raise KeyError end, w).
Proof.
  intros Hc. unfold sf_cache_lookup.
  rewrite (bind_run _ _ _ _ _ (deref_Some _ _ _ Hc)).
  destruct (d !! e); reflexivity.
Qed.

Lemma sf_cache_lookup_Some (w : world) (c : loc) (d : gmap EDU loc) (e : EDU) v :
  heap w !! c = Some (ODict d) -> d !! e = Some v ->
  sf_cache_lookup (Some c) e w = (Ok v, w).
Proof. intros Hc He. rewrite (sf_cache_lookup_run _ _ _ _ Hc), He. reflexivity. Qed.

Lemma sf_cache_lookup_None (w : world) (c : loc) (d : gmap EDU loc) (e : EDU) :
  heap w !! c = Some (ODict d) -> d !! e = None ->
  sf_cache_lookup (Some c) e w = (Raise KeyError, w).
Proof. intros Hc He. rewrite (sf_cache_lookup_run _ _ _ _ Hc), He. reflexivity. Qed.

Lemma set_edu1_run (w : world) (vec : loc) (pk : PairKeysObj) (v : loc) :
  heap w !! vec = Some (OPairKeys pk) ->
  set_edu1 vec v w
  = (Ok tt,
     mkWorld (<[vec := OPairKeys (mkPairKeysObj (pk_base pk) (pk_groups pk)
                                    (pk_sf_cache pk) (Some v) (pk_edu2 pk))]>
                (heap w))
       (emitted w)).
Proof.
  intros Hv. unfold set_edu1.
  rewrite (bind_run _ _ _ _ _ (deref_Some _ _ _ Hv)). reflexivity.
Qed.

Lemma set_edu2_run (w : world) (vec : loc) (pk : PairKeysObj) (v : loc) :
  heap w !! vec = Some (OPairKeys pk) ->
  set_edu2 vec v w
  = (Ok tt,
     mkWorld (<[vec := OPairKeys (mkPairKeysObj (pk_base pk) (pk_groups pk)
                                    (pk_sf_cache pk) (pk_edu1 pk) (Some v))]>
                (heap w))
       (emitted w)).
Proof.
  intros Hv. unfold set_edu2.
  rewrite (bind_run _ _ _ _ _ (deref_Some _ _ _ Hv)). reflexivity.
Qed.

(** C9. When one of the two units has no entry in the single-unit cache
    of a [PairKeys], [fill] raises KeyError at the lookup: no pair
    feature is written, nothing is yielded, no object other than the
    filled vector changes, and the sub-vector of the missing unit is
    not replaced (when the first unit is the missing one, the store is
    untouched). *)
Theorem PairKeys_fill_missing_unit (w : world) (self c : loc)
  (pk vpk : PairKeysObj) (d : gmap EDU loc) (current : DocumentPlus)
  (e1 e2 : EDU) (target : option loc) :
  heap w !! self = Some (OPairKeys pk) ->
  pk_sf_cache pk = Some c ->
  heap w !! c = Some (ODict d) ->
  heap w !! default self target = Some (OPairKeys vpk) ->
  d !! e1 = None \/ d !! e2 = None ->
  exists w' vpk',
    PairKeys_fill self current e1 e2 target w = (Raise KeyError, w')
    /\ emitted w' = emitted w
    /\ (forall l, l <> default self target -> heap w' !! l = heap w !! l)
    /\ heap w' !! default self target = Some (OPairKeys vpk')
    /\ pk_base vpk' = pk_base vpk
    /\ pk_edu2 vpk' = pk_edu2 vpk
    /\ (d !! e1 = None -> w' = w).
Proof.
  intros Hself Hcache Hdict Hvec Hmiss.
  unfold PairKeys_fill.
  rewrite (bind_run _ _ _ _ _ (deref_Some _ _ _ Hself)).
  replace (match target with None => self | Some t => t end)
    with (default self target) by (destruct target; reflexivity).
  rewrite Hcache.
  destruct (d !! e1) as [v1|] eqn:He1.
  - destruct Hmiss as [[=]|He2].
    rewrite (bind_run _ _ _ _ _ (sf_cache_lookup_Some _ _ _ _ _ Hdict He1)).
    rewrite (bind_run _ _ _ _ _ (set_edu1_run _ _ _ v1 Hvec)).
    assert (Hne : default self target <> c).
    { intros Heq. rewrite Heq, Hdict in Hvec. discriminate. }
    erewrite bind_run_raise.
    2:{ apply (sf_cache_lookup_None _ c d e2); [|exact He2].
        simpl. rewrite list_lookup_insert_ne by exact Hne. exact Hdict. }
    eexists _, _. split; [reflexivity|]. simpl.
    split; [reflexivity|].
    split; [intros l Hl; apply list_lookup_insert_ne; auto|].
    split; [apply list_lookup_insert_eq; eapply lookup_lt_Some, Hvec|].
    split; [reflexivity|]. split; [reflexivity|discriminate].
  - rewrite (bind_run_raise _ _ _ _ _ (sf_cache_lookup_None _ _ _ _ Hdict He1)).
    exists w, vpk. repeat split; auto.
Qed.

End PairFill.

(** A pair vector built on an empty cache cannot be filled. *)
Lemma PairKeys_fill_missing_unit_witness :
  @PairKeys_fill Demo.external 3%nat Demo.current Demo.a Demo.b None
    Demo.pair_on_empty_cache
  = (Raise KeyError, Demo.pair_on_empty_cache).
Proof.
  epose proof (@PairKeys_fill_missing_unit Demo.external Demo.pair_on_empty_cache
                 3%nat 0%nat _ _ ∅ Demo.current Demo.a Demo.b None) as Hfill.
  edestruct Hfill as (w' & vpk' & Hrun & _ & _ & _ & _ & _ & Hsame).
  - reflexivity.
  - reflexivity.
  - reflexivity.
  - reflexivity.
  - left. reflexivity.
  - rewrite Hrun, Hsame; reflexivity.
Defined.

Section Constructors.
Context `{External}.

Lemma alloc_run (o : object) (w : world) :
  alloc o w = (Ok (length (heap w)), mkWorld (heap w ++ [o]) (emitted w)).
Proof. reflexivity. Qed.

(** Reading an object that was appended to the store. *)
Lemma lookup_appended {A : Type} (l x : list A) (i : nat) :
  ((l ++ x)%list) !! (length l + i)%nat = x !! i.
Proof.
  rewrite lookup_app_r by lia. f_equal. lia.
Qed.

Lemma lookup_appended_0 {A : Type} (l x : list A) :
  ((l ++ x)%list) !! length l = x !! 0%nat.
Proof. rewrite <- (lookup_appended l x 0). f_equal. lia. Qed.

Lemma SingleEduKeys_run (inputs : FeatureInput) (w : world) :
  SingleEduKeys inputs w
  = (Ok (length (heap w) + 2)%nat,
     mkWorld (heap w ++ single_vector_objects (fresh_single_vector (length (heap w))))
       (emitted w)).
Proof.
  destruct w as [h em]. unfold SingleEduKeys, SingleEduSubgroup_Meta,
    SingleEduSubgroup_Text, merged_single_keys.
  rewrite (bind_run _ _ _ _ _ (alloc_run _ _)). simpl heap; simpl emitted.
  rewrite (bind_run _ _ _ _ _ (alloc_run _ _)). simpl heap; simpl emitted.
  rewrite length_app. simpl length.
  erewrite (bind_run (bind (deref (length h)) _)).
  2:{ erewrite bind_run.
      2:{ apply deref_Some. simpl. rewrite <- app_assoc, lookup_appended_0.
          reflexivity. }
      simpl. erewrite bind_run.
      2:{ erewrite bind_run.
          2:{ apply deref_Some. simpl. rewrite <- app_assoc, lookup_appended.
              reflexivity. }
          simpl. reflexivity. }
      reflexivity. }
  rewrite alloc_run. simpl.
  rewrite !length_app. simpl length.
  rewrite <- !app_assoc. simpl.
  replace (length h + 1)%nat with (S (length h)) by lia.
  f_equal. f_equal. lia.
Qed.

Lemma PairKeys_run (inputs : FeatureInput) (c : loc) (w : world) :
  PairKeys inputs (Some c) w
  = (Ok (length (heap w) + 2)%nat,
     mkWorld (heap w ++ pair_vector_objects (fresh_pair_vector (length (heap w)) c))
       (emitted w)).
Proof.
  destruct w as [h em]. unfold PairKeys, PairSubGroup_Core, PairSubgroup_Gap,
    merged_pair_keys.
  rewrite (bind_run _ _ _ _ _ (alloc_run _ _)). simpl heap; simpl emitted.
  rewrite (bind_run _ _ _ _ _ (alloc_run _ _)). simpl heap; simpl emitted.
  rewrite length_app. simpl length.
  rewrite bind_ret_l.
  erewrite (bind_run (bind (deref (length h)) _)).
  2:{ erewrite bind_run.
      2:{ apply deref_Some. simpl. rewrite <- app_assoc, lookup_appended_0.
          reflexivity. }
      simpl. erewrite bind_run.
      2:{ erewrite bind_run.
          2:{ apply deref_Some. simpl. rewrite <- app_assoc, lookup_appended.
              reflexivity. }
          simpl. reflexivity. }
      reflexivity. }
  rewrite alloc_run. simpl.
  rewrite !length_app. simpl length.
  rewrite <- !app_assoc. simpl.
  replace (length h + 1)%nat with (S (length h)) by lia.
  f_equal. f_equal. lia.
Qed.

End Constructors.

Section PairVectors.
Context `{External}.

Lemma PairSubgroup_fill_run (w : world) (self : loc)
  (g : KeyGroup pair_fn) (current : DocumentPlus) (e1 e2 : EDU)
  (target : option loc) (o : object) (d : gmap string pyval) :
  heap w !! self = Some (OPairSubgroup g) ->
  heap w !! default self target = Some o ->
  items_of o = Some d ->
  PairSubgroup_fill self current e1 e2 target w
  = (Ok tt,
     mkWorld (<[default self target :=
                  with_items o (write_all d (pair_values (keys g) current e1 e2))]>
                (heap w))
       (emitted w)).
Proof.
  intros Hself Hvec Hd.
  unfold PairSubgroup_fill, PairSubgroup__magic_fill.
  rewrite (bind_run _ _ _ _ _ (deref_Some _ _ _ Hself)).
  replace (match target with None => self | Some t => t end)
    with (default self target) by (destruct target; reflexivity).
  apply (for_each_setitem (keys g) name (fun k => function k current e1 e2));
    assumption.
Qed.

Lemma pair_subgroups_update (h : list object) groups kss (vec : loc)
  (o : object) (d : gmap string pyval) :
  pair_subgroups h groups kss -> h !! vec = Some o ->
  pair_subgroups (<[vec := with_items o d]> h) groups kss.
Proof.
  intros Hg Hvec. induction Hg as [|l ks groups kss (g & Hl & Hks) Hg IH];
    constructor; [|exact IH].
  destruct (decide (vec = l)) as [->|Hne].
  - rewrite Hl in Hvec. injection Hvec as <-.
    exists (set_items g d). split; [|exact Hks].
    apply list_lookup_insert_eq. eapply lookup_lt_Some, Hl.
  - exists g. split; [|exact Hks]. rewrite list_lookup_insert_ne; assumption.
Qed.

(** The loop of [PairKeys.fill] over the sub-groups. *)
Lemma for_each_pair_subgroup_fill (groups : list loc) kss (w : world)
  (current : DocumentPlus) (e1 e2 : EDU) (vec : loc) (o : object)
  (d : gmap string pyval) :
  pair_subgroups (heap w) groups kss ->
  heap w !! vec = Some o -> items_of o = Some d ->
  for_each groups
    (fun group => PairSubgroup_fill group current e1 e2 (Some vec)) w
  = (Ok tt,
     mkWorld (<[vec := with_items o
                         (write_all d (pair_values (concat kss) current e1 e2))]>
                (heap w))
       (emitted w)).
Proof.
  intros Hg. revert w o d Hg.
  generalize dependent kss. induction groups as [|l groups IH];
    intros kss w o d Hg Hvec Hd; inversion Hg as [|? ks ? kss' (g & Hl & Hks) Hg']; subst.
  - unfold write_all. simpl. unfold ret.
    rewrite (with_items_id _ _ Hd), (list_insert_id _ _ _ Hvec), world_eta.
    reflexivity.
  - simpl.
    rewrite (bind_run _ _ _ _ _
               (PairSubgroup_fill_run w l g current e1 e2 (Some vec) o d Hl Hvec Hd)).
    simpl default.
    erewrite IH.
    + simpl. rewrite list_insert_insert_eq, with_items_twice.
      unfold pair_values. rewrite map_app, write_all_app. reflexivity.
    + simpl. apply pair_subgroups_update; eassumption.
    + simpl. apply list_lookup_insert_eq. eapply lookup_lt_Some, Hvec.
    + eapply items_of_with_items, Hd.
Qed.

Lemma pair_subgroups_insert_vector (h : list object) groups kss (self : loc)
  (pk : PairKeysObj) (o : object) :
  pair_subgroups h groups kss -> h !! self = Some (OPairKeys pk) ->
  pair_subgroups (<[self := o]> h) groups kss.
Proof.
  intros Hg Hself. induction Hg as [|l ks groups kss (g & Hl & Hks) Hg IH];
    constructor; [|exact IH].
  exists g. split; [|exact Hks].
  rewrite list_lookup_insert_ne; [exact Hl|].
  intros ->. rewrite Hl in Hself. discriminate.
Qed.

(** [PairKeys.fill] without a target, when both units are cached. *)
Lemma PairKeys_fill_run (w : world) (self c : loc) (pk : PairKeysObj)
  (d : gmap EDU loc) kss (current : DocumentPlus) (e1 e2 : EDU) (v1 v2 : loc) :
  heap w !! self = Some (OPairKeys pk) ->
  pk_sf_cache pk = Some c ->
  heap w !! c = Some (ODict d) ->
  d !! e1 = Some v1 -> d !! e2 = Some v2 ->
  pair_subgroups (heap w) (pk_groups pk) kss ->
  PairKeys_fill self current e1 e2 None w
  = (Ok tt,
     mkWorld
       (<[self :=
            OPairKeys
              (mkPairKeysObj
                 (set_items (pk_base pk)
                    (write_all (items (pk_base pk))
                       (pair_values (concat kss) current e1 e2)))
                 (pk_groups pk) (Some c) (Some v1) (Some v2))]> (heap w))
       (emitted w)).
Proof.
  intros Hself Hcache Hdict He1 He2 Hg.
  assert (Hne : self <> c).
  { intros Heq. rewrite Heq, Hdict in Hself. discriminate. }
  assert (Hlt : (self < length (heap w))%nat) by (eapply lookup_lt_Some, Hself).
  unfold PairKeys_fill.
  rewrite (bind_run _ _ _ _ _ (deref_Some _ _ _ Hself)).
  rewrite Hcache.
  rewrite (bind_run _ _ _ _ _ (sf_cache_lookup_Some _ _ _ _ _ Hdict He1)).
  rewrite (bind_run _ _ _ _ _ (set_edu1_run _ _ _ v1 Hself)).
  erewrite bind_run.
  2:{ apply (sf_cache_lookup_Some _ c d e2 v2); [|exact He2].
      simpl. rewrite list_lookup_insert_ne by exact Hne. exact Hdict. }
  erewrite bind_run.
  2:{ apply set_edu2_run. simpl. apply list_lookup_insert_eq. exact Hlt. }
  simpl pk_base; simpl pk_groups; simpl pk_sf_cache; simpl pk_edu1.
  cbn [heap emitted]. rewrite list_insert_insert_eq, Hcache.
  rewrite (for_each_pair_subgroup_fill (pk_groups pk) kss _ current e1 e2 self
             (OPairKeys (mkPairKeysObj (pk_base pk) (pk_groups pk) (Some c)
                           (Some v1) (Some v2)))
             (items (pk_base pk))).
  - simpl. rewrite !list_insert_insert_eq. reflexivity.
  - simpl. apply pair_subgroups_insert_vector with (pk := pk); eassumption.
  - simpl. apply list_lookup_insert_eq. exact Hlt.
  - reflexivity.
Qed.

End PairVectors.

Section LoopBody.
Context `{External}.

Lemma set_class_run (w : world) (l group : loc) (cl0 cl : pyval) :
  heap w !! l = Some (OClassKeyGroup group cl0) ->
  set_class l cl w
  = (Ok tt, mkWorld (<[l := OClassKeyGroup group cl]> (heap w)) (emitted w)).
Proof.
  intros Hl. unfold set_class.
  rewrite (bind_run _ _ _ _ _ (deref_Some _ _ _ Hl)). reflexivity.
Qed.

(** A fresh pair vector is filled from the cache. *)
Lemma PairKeys_fill_fresh (current : DocumentPlus)
  (c : loc) (d : gmap EDU loc) (e1 e2 : EDU) (v1 v2 : loc) (w : world) :
  heap w !! c = Some (ODict d) -> d !! e1 = Some v1 -> d !! e2 = Some v2 ->
  PairKeys_fill (length (heap w) + 2)%nat current e1 e2 None
    (mkWorld (heap w ++ pair_vector_objects (fresh_pair_vector (length (heap w)) c))
       (emitted w))
  = (Ok tt,
     mkWorld
       (heap w ++ pair_vector_objects
                    (filled_pair_vector (length (heap w)) c current e1 e2 v1 v2))
       (emitted w)).
Proof.
  intros Hc He1 He2.
  rewrite (PairKeys_fill_run _ _ c
             (mkPairKeysObj (KeyGroup_init "pair features" pair_keys)
                [length (heap w); S (length (heap w))] (Some c) None None)
             d
             [[meta_fn "feat_grouping" feat_grouping];
              [continuous_fn "num_edus_between" num_edus_between]]
             current e1 e2 v1 v2).
  - simpl heap. rewrite insert_app_r. reflexivity.
  - simpl. rewrite lookup_appended. reflexivity.
  - reflexivity.
  - simpl. apply lookup_app_l_Some, Hc.
  - exact He1.
  - exact He2.
  - simpl. constructor.
    { eexists. split; [rewrite lookup_appended_0; reflexivity|reflexivity]. }
    constructor; [|constructor].
    eexists. split.
    { replace (S (length (heap w))) with (length (heap w) + 1)%nat by lia.
      rewrite lookup_appended. reflexivity. }
    reflexivity.
Qed.

(** The loop body in corpus mode, for two different cached units. *)
Lemma pair_body_corpus (inputs : FeatureInput) (current : DocumentPlus)
  (relations : gmap (EDU * EDU) string) (c : loc) (d : gmap EDU loc)
  (lv : locals) (e1 e2 : EDU) (v1 v2 : loc) (w : world) :
  heap w !! c = Some (ODict d) -> d !! e1 = Some v1 -> d !! e2 = Some v2 ->
  e1 <> e2 ->
  pair_body inputs false current relations c lv (e1, e2) w
  = (Ok (mkLocals (Some (length (heap w) + 3)%nat) (Some (length (heap w) + 4)%nat)),
     mkWorld
       (heap w ++ labelled_pair_objects (length (heap w)) c current
                    e1 e2 v1 v2
                    (attachment_label relations (e1, e2))
                    (relation_label relations (e1, e2)))
       (emitted w ++ [((length (heap w) + 3)%nat, (length (heap w) + 4)%nat)])).
Proof.
  intros Hc He1 He2 Hne. unfold pair_body. cbn [fst snd].
  destruct (decide (e1 = e2)) as [Heq|_]; [contradiction|].
  rewrite (bind_run _ _ _ _ _ (PairKeys_run inputs c w)).
  rewrite (bind_run _ _ _ _ _
             (PairKeys_fill_fresh current c d e1 e2 v1 v2 w Hc He1 He2)).
  unfold ClassKeyGroup.
  set (X := pair_vector_objects _).
  assert (HX : length X = 3%nat) by reflexivity.
  rewrite bind_assoc.
  rewrite (bind_run _ _ _ _ _ (alloc_run _ _)). cbn [heap emitted].
  rewrite bind_assoc.
  rewrite (bind_run _ _ _ _ _ (alloc_run _ _)). cbn [heap emitted].
  rewrite !length_app, HX. simpl length.
  rewrite <- !app_assoc. simpl app.
  replace (length (heap w) + 3 + 1)%nat with (length (heap w) + 4)%nat by lia.
  rewrite bind_assoc.
  erewrite bind_run.
  2:{ apply (set_class_run _ _ (length (heap w) + 2)%nat VNone).
      cbn [heap]. rewrite lookup_appended. reflexivity. }
  rewrite bind_assoc.
  erewrite bind_run.
  2:{ apply (set_class_run _ _ (length (heap w) + 2)%nat VNone).
      cbn [heap]. rewrite list_lookup_insert_ne by lia.
      rewrite lookup_appended. reflexivity. }
  cbn [heap emitted]. rewrite bind_ret_l.
  cbn [pairs_vec rels_vec local]. rewrite !bind_ret_l.
  unfold yield, bind, ret. cbn [heap emitted].
  rewrite !insert_app_r. reflexivity.
Qed.

End LoopBody.

Section CacheLoop.
Context `{External}.

Lemma sf_cache_set_run (w : world) (c : loc) (d : gmap EDU loc) (e : EDU) (v : loc) :
  heap w !! c = Some (ODict d) ->
  sf_cache_set c e v w
  = (Ok tt, mkWorld (<[c := ODict (<[e := v]> d)]> (heap w)) (emitted w)).
Proof.
  intros Hc. unfold sf_cache_set.
  rewrite (bind_run _ _ _ _ _ (deref_Some _ _ _ Hc)). reflexivity.
Qed.

(** One passage through the cache loop: three objects are appended,
    the vector is entered in the dictionary and filled. *)
Lemma cache_unit_run (inputs : FeatureInput) (current : DocumentPlus)
  (c : loc) (d : gmap EDU loc) (e : EDU) (w : world) :
  heap w !! c = Some (ODict d) ->
  cache_unit inputs current c e w
  = (Ok tt,
     mkWorld
       (<[c := ODict (<[e := (length (heap w) + 2)%nat]> d)]> (heap w)
        ++ single_vector_objects
             (filled_single_vector (length (heap w)) current e))
       (emitted w)).
Proof.
  intros Hc. unfold cache_unit.
  assert (Hlt : (c < length (heap w))%nat) by (eapply lookup_lt_Some, Hc).
  rewrite (bind_run _ _ _ _ _ (SingleEduKeys_run inputs w)).
  erewrite bind_run.
  2:{ apply (sf_cache_set_run _ c d). simpl. apply lookup_app_l_Some, Hc. }
  cbn [heap emitted].
  rewrite insert_app_l by exact Hlt.
  set (h1 := <[c := _]> (heap w)).
  assert (Hlen : length h1 = length (heap w)) by apply length_insert.
  erewrite bind_run.
  2:{ apply (sf_cache_lookup_Some _ c (<[e := (length (heap w) + 2)%nat]> d)).
      - simpl. apply lookup_app_l_Some. unfold h1.
        apply list_lookup_insert_eq. exact Hlt.
      - apply lookup_insert_eq. }
  rewrite <- Hlen.
  rewrite (SingleEduKeys_fill_run _ _
             (KeyGroup_init "single EDU features" single_keys)
             [length h1; S (length h1)]
             [SingleEduSubgroup_Meta_features; SingleEduSubgroup_Text_features]
             current e None
             (fresh_single_vector (length h1))
             (items (KeyGroup_init "single EDU features" single_keys))).
  - cbn [heap emitted default]. rewrite insert_app_r. reflexivity.
  - cbn [heap]. rewrite lookup_appended. reflexivity.
  - cbn [heap]. constructor.
    { eexists. split; [rewrite lookup_appended_0; reflexivity|reflexivity]. }
    constructor; [|constructor].
    eexists. split.
    { replace (S (length h1)) with (length h1 + 1)%nat by lia.
      rewrite lookup_appended. reflexivity. }
    reflexivity.
  - cbn [heap default]. rewrite lookup_appended. reflexivity.
  - reflexivity.
Qed.

Lemma cached_step (h : list object) (c : loc) (d : gmap EDU loc)
  (current : DocumentPlus) (done : list EDU) (e : EDU) :
  h !! c = Some (ODict d) ->
  cached h c current done ->
  cached (<[c := ODict (<[e := (length h + 2)%nat]> d)]> h
          ++ single_vector_objects (filled_single_vector (length h) current e))
    c current (done ++ [e]).
Proof.
  intros Hc (d0 & Hc0 & Hdone).
  rewrite Hc in Hc0. injection Hc0 as <-.
  assert (Hlt : (c < length h)%nat) by (eapply lookup_lt_Some, Hc).
  exists (<[e := (length h + 2)%nat]> d). split.
  - apply lookup_app_l_Some, list_lookup_insert_eq, Hlt.
  - intros e' Hin. destruct (decide (e' = e)) as [->|Hne].
    + exists (length h + 2)%nat, (length h). split; [apply lookup_insert_eq|].
      rewrite <- (length_insert h c (ODict (<[e := (length h + 2)%nat]> d))) at 1.
      rewrite lookup_appended. reflexivity.
    + apply elem_of_app in Hin as [Hin|Hin].
      2:{ apply list_elem_of_singleton in Hin. contradiction. }
      destruct (Hdone e' Hin) as (v & n & Hv & Hobj).
      exists v, n. split; [rewrite lookup_insert_ne by auto; exact Hv|].
      apply lookup_app_l_Some. rewrite list_lookup_insert_ne; [exact Hobj|].
      intros ->. rewrite Hc in Hobj. discriminate.
Qed.

(** The cache loop: it returns, yields nothing, appends to the store
    and only updates the dictionary; afterwards every unit is cached. *)
Lemma cache_loop (inputs : FeatureInput) (current : DocumentPlus) (c : loc)
  (edus done : list EDU) (w : world) :
  cached (heap w) c current done ->
  exists w',
    for_each edus (cache_unit inputs current c) w = (Ok tt, w')
    /\ cached (heap w') c current (done ++ edus)
    /\ emitted w' = emitted w
    /\ (length (heap w) <= length (heap w'))%nat
    /\ (forall l, (l < length (heap w))%nat -> l <> c ->
          heap w' !! l = heap w !! l).
Proof.
  revert done w. induction edus as [|e edus IH]; intros done w Hinv.
  - exists w. rewrite app_nil_r. repeat split; auto.
  - destruct Hinv as (d & Hc & Hdone).
    assert (Hlt : (c < length (heap w))%nat) by (eapply lookup_lt_Some, Hc).
    simpl.
    rewrite (bind_run _ _ _ _ _ (cache_unit_run inputs current c d e w Hc)).
    match goal with
    | |- context [for_each edus _ ?w1] =>
        destruct (IH (done ++ [e])%list w1) as (w' & Hrun & Hinv' & Hem & Hlen & Hold)
    end.
    { simpl. apply (cached_step _ _ _ _ _ _ Hc). exists d. split; assumption. }
    exists w'. split; [exact Hrun|].
    split; [rewrite <- app_assoc in Hinv'; exact Hinv'|].
    split; [exact Hem|].
    simpl in Hlen, Hold. rewrite length_app, length_insert in Hlen, Hold.
    split; [lia|].
    intros l Hl Hne. rewrite Hold by (try lia; auto).
    rewrite lookup_app_l by (rewrite length_insert; lia).
    apply list_lookup_insert_ne. auto.
Qed.

End CacheLoop.

Section CorpusMode.
Context `{External}.

Lemma cached_app (h x : list object) (c : loc) (current : DocumentPlus)
  (edus : list EDU) :
  cached h c current edus -> cached (h ++ x) c current edus.
Proof.
  intros (d & Hc & Hall). exists d. split; [apply lookup_app_l_Some, Hc|].
  intros e He. destruct (Hall e He) as (v & n & Hv & Hobj).
  exists v, n. split; [exact Hv|apply lookup_app_l_Some, Hobj].
Qed.

Lemma labelled_app (h x : list object) (current : DocumentPlus) (p : EDU * EDU)
  (att rl : pyval) (r : loc * loc) :
  labelled h current p att rl r -> labelled (h ++ x) current p att rl r.
Proof.
  intros (vec & n & c & v1 & v2 & n1 & n2 & H1 & H2 & H3 & H4 & H5).
  exists vec, n, c, v1, v2, n1, n2.
  repeat split; apply lookup_app_l_Some; assumption.
Qed.

(** A store that grew and kept its old objects is an extension. *)
Lemma extension_of_lookups {A : Type} (h h' : list A) :
  (length h <= length h')%nat ->
  (forall l, (l < length h)%nat -> h' !! l = h !! l) ->
  exists x, h' = (h ++ x)%list.
Proof.
  intros Hlen Hold. exists (drop (length h) h').
  rewrite <- (take_drop (length h) h') at 1. f_equal.
  apply list_eq. intros i.
  destruct (decide (i < length h)%nat) as [Hi|Hi].
  - rewrite lookup_take_lt by exact Hi. apply Hold, Hi.
  - rewrite lookup_take_ge by lia. symmetry. apply lookup_ge_None. lia.
Qed.

(** The loop over the pairs in corpus mode: one labelled record per
    pair, in order; the store is only extended. *)
Lemma pair_loop_corpus (inputs : FeatureInput) (current : DocumentPlus)
  (relations : gmap (EDU * EDU) string) (c : loc) (edus : list EDU)
  (pairs : list (EDU * EDU)) (lv : locals) (w : world) :
  cached (heap w) c current edus ->
  Forall (fun p => fst p ∈ edus /\ snd p ∈ edus /\ fst p <> snd p) pairs ->
  exists lv' w' x recs,
    for_each_with pairs (pair_body inputs false current relations c) lv w
    = (Ok lv', w')
    /\ heap w' = (heap w ++ x)%list
    /\ emitted w' = (emitted w ++ recs)%list
    /\ Forall2 (fun p r =>
                  labelled (heap w') current p (attachment_label relations p)
                    (relation_label relations p) r)
         pairs recs.
Proof.
  intros Hcached Hpairs. revert lv w Hcached.
  induction Hpairs as [|[e1 e2] pairs (He1 & He2 & Hne) Hpairs IH];
    intros lv w Hcached.
  - exists lv, w, [], []. simpl. rewrite !app_nil_r.
    repeat split; auto.
  - simpl in He1, He2, Hne.
    destruct Hcached as (d & Hc & Hall).
    destruct (Hall e1 He1) as (v1 & n1 & Hv1 & Ho1).
    destruct (Hall e2 He2) as (v2 & n2 & Hv2 & Ho2).
    cbn [for_each_with].
    rewrite (bind_run _ _ _ _ _
               (pair_body_corpus inputs current relations c d lv e1 e2 v1 v2 w
                  Hc Hv1 Hv2 Hne)).
    match goal with
    | |- context [for_each_with pairs _ ?lv1 ?w1] =>
        destruct (IH lv1 w1) as (lv' & w' & x & recs & Hrun & Hheap & Hem & Hrecs)
    end.
    { cbn [heap]. apply cached_app. exists d. split; assumption. }
    cbn [heap emitted] in Hheap, Hem.
    exists lv', w'. eexists. eexists.
    split; [exact Hrun|].
    split; [rewrite Hheap, <- app_assoc; reflexivity|].
    split; [rewrite Hem, <- app_assoc; reflexivity|].
    simpl. constructor; [|exact Hrecs].
    rewrite Hheap. apply labelled_app.
    exists (length (heap w) + 2)%nat, (length (heap w)), c, v1, v2, n1, n2.
    cbn [fst snd].
    split; [rewrite lookup_appended; reflexivity|].
    split; [rewrite lookup_appended; reflexivity|].
    split; [rewrite lookup_appended; reflexivity|].
    split; apply lookup_app_l_Some; assumption.
Qed.

(** One document in corpus mode. *)
Lemma document_body_corpus (inputs : FeatureInput) (lv : locals) (k : FileId)
  (w : world) :
  exists lv' w' x recs,
    document_body inputs false lv k w = (Ok lv', w')
    /\ heap w' = (heap w ++ x)%list
    /\ emitted w' = (emitted w ++ recs)%list
    /\ Forall2 (fun p r =>
                  labelled (heap w') (preprocess inputs k) p
                    (attachment_label
                       (simplify_deptree (deptree (preprocess inputs k))) p)
                    (relation_label
                       (simplify_deptree (deptree (preprocess inputs k))) p) r)
         (distinct_pairs (leaves (rsttree (preprocess inputs k)))) recs.
Proof.
  unfold document_body. cbn [negb].
  set (current := preprocess inputs k).
  set (edus := leaves (rsttree current)).
  set (relations := simplify_deptree (deptree current)).
  rewrite (bind_run _ _ _ _ _ (alloc_run _ _)).
  destruct (cache_loop inputs current (length (heap w)) edus []
              (mkWorld (heap w ++ [ODict ∅]) (emitted w)))
    as (w1 & Hrun1 & Hcached & Hem1 & Hlen1 & Hold1).
  { exists ∅. split; [cbn [heap]; rewrite lookup_appended_0; reflexivity|].
    intros e He. inversion He. }
  rewrite (bind_run _ _ _ _ _ Hrun1).
  cbn [heap emitted] in Hem1, Hlen1, Hold1. rewrite length_app in Hlen1, Hold1.
  simpl length in Hlen1, Hold1. simpl app in Hcached.
  destruct (extension_of_lookups (heap w) (heap w1)) as (x1 & Hx1).
  { lia. }
  { intros l Hl. rewrite Hold1 by lia. apply lookup_app_l. exact Hl. }
  rewrite pair_loop_skips_self_pairs.
  destruct (pair_loop_corpus inputs current relations (length (heap w)) edus
              (distinct_pairs edus) lv w1 Hcached)
    as (lv' & w' & x & recs & Hrun & Hheap & Hem & Hrecs).
  { apply Forall_forall. intros [e1 e2] Hin.
    apply elem_of_distinct_pairs in Hin. exact Hin. }
  exists lv', w', (x1 ++ x)%list, recs.
  split; [exact Hrun|].
  split; [rewrite Hheap, Hx1, <- app_assoc; reflexivity|].
  split; [rewrite Hem, Hem1; reflexivity|].
  exact Hrecs.
Qed.

(** The loop over the corpus in corpus mode. *)
Lemma corpus_loop (inputs : FeatureInput) (ks : list FileId) (lv : locals)
  (w : world) :
  exists lv' w' x recs,
    for_each_with ks (document_body inputs false) lv w = (Ok lv', w')
    /\ heap w' = (heap w ++ x)%list
    /\ emitted w' = (emitted w ++ recs)%list
    /\ Forall2 (fun kp r =>
                  labelled (heap w') (preprocess inputs (fst kp)) (snd kp)
                    (attachment_label
                       (simplify_deptree (deptree (preprocess inputs (fst kp))))
                       (snd kp))
                    (relation_label
                       (simplify_deptree (deptree (preprocess inputs (fst kp))))
                       (snd kp)) r)
         (flat_map (fun k =>
                      map (fun p => (k, p))
                        (distinct_pairs (leaves (rsttree (preprocess inputs k)))))
            ks)
         recs.
Proof.
  revert lv w. induction ks as [|k ks IH]; intros lv w.
  - exists lv, w, [], []. simpl. rewrite !app_nil_r. repeat split; auto.
  - destruct (document_body_corpus inputs lv k w)
      as (lv1 & w1 & x1 & recs1 & Hrun1 & Hheap1 & Hem1 & Hrecs1).
    destruct (IH lv1 w1) as (lv' & w' & x & recs & Hrun & Hheap & Hem & Hrecs).
    exists lv', w', (x1 ++ x)%list, (recs1 ++ recs)%list.
    cbn [for_each_with]. rewrite (bind_run _ _ _ _ _ Hrun1).
    split; [exact Hrun|].
    split; [rewrite Hheap, Hheap1, <- app_assoc; reflexivity|].
    split; [rewrite Hem, Hem1, <- app_assoc; reflexivity|].
    cbn [flat_map]. apply Forall2_app; [|exact Hrecs].
    apply Forall2_fmap_l.
    eapply Forall2_impl; [exact Hrecs1|].
    intros p r Hl. cbn [fst snd]. rewrite Hheap. apply labelled_app, Hl.
Qed.

Lemma NoDup_occurs_once {A : Type} (l : list A) (x : A) :
  NoDup l -> x ∈ l ->
  (exists l1 l2, l = (l1 ++ x :: l2)%list /\ (x ∉ l1) /\ (x ∉ l2)).
Proof.
  intros Hnd Hin. apply list_elem_of_split in Hin as (l1 & l2 & ->).
  exists l1, l2. split; [reflexivity|].
  apply NoDup_app in Hnd as (_ & Hdisj & Hnd2).
  apply NoDup_cons in Hnd2 as [Hx _].
  split; [|exact Hx].
  intros Hin1. apply (Hdisj x Hin1). left.
Qed.

(** C2. With [live=False] the generator runs to its end without an
    exception and yields, document after document, one record per
    ordered pair of different units, in the order of the enumeration:
    an attachment vector and a relation vector on the same filled pair
    vector, the first labelled [True] or [False] according to whether
    the pair is a key of the document's relation table, the second
    labelled with the table's relation for the pair, or [UNRELATED]
    when the table has none.  When the units of a document are
    pairwise different, every ordered pair of two of them is
    enumerated exactly once. *)
Theorem extract_pair_features_corpus_mode (inputs : FeatureInput) (w : world) :
  exists w' recs,
    extract_pair_features inputs false w = (Ok tt, w')
    /\ emitted w' = (emitted w ++ recs)%list
    /\ Forall2 (fun kp r =>
                  let current := preprocess inputs (fst kp) in
                  let relations := simplify_deptree (deptree current) in
                  labelled (heap w') current (snd kp)
                    (VBool (bool_decide (is_Some (relations !! snd kp))))
                    (match relations !! snd kp with
                     | Some relation => VStr relation
                     | None => VStr "UNRELATED"
                     end) r)
         (corpus_pairs inputs) recs
    /\ (forall k edus e1 e2,
          edus = leaves (rsttree (preprocess inputs k)) ->
          NoDup edus -> e1 ∈ edus -> e2 ∈ edus -> e1 <> e2 ->
          (exists before after,
              distinct_pairs edus = (before ++ (e1, e2) :: after)%list
              /\ ((e1, e2) ∉ before) /\ ((e1, e2) ∉ after))).
Proof.
  destruct (corpus_loop inputs (corpus_keys (corpus inputs)) (mkLocals None None) w)
    as (lv' & w' & x & recs & Hrun & _ & Hem & Hrecs).
  exists w', recs. unfold extract_pair_features.
  rewrite (bind_run _ _ _ _ _ Hrun).
  split; [reflexivity|]. split; [exact Hem|]. split; [exact Hrecs|].
  intros k edus e1 e2 _ Hnd He1 He2 Hne.
  apply NoDup_occurs_once.
  - apply NoDup_filter, NoDup_itertools_product; assumption.
  - apply elem_of_distinct_pairs. auto.
Qed.

End CorpusMode.

(** The two units of the sample document give two records, and the pair
    of the first unit with the second is enumerated once. *)
Lemma extract_pair_features_corpus_mode_witness :
  exists w' recs,
    @extract_pair_features Demo.external Demo.two_units false Demo.start = (Ok tt, w')
    /\ emitted w' = recs
    /\ length recs = 2%nat
    /\ (exists before after,
          distinct_pairs [Demo.a; Demo.b]
          = (before ++ (Demo.a, Demo.b) :: after)%list
          /\ ((Demo.a, Demo.b) ∉ before) /\ ((Demo.a, Demo.b) ∉ after)).
Proof.
  destruct (@extract_pair_features_corpus_mode Demo.external Demo.two_units Demo.start)
    as (w' & recs & Hrun & Hem & Hrecs & Honce).
  exists w', recs. split; [exact Hrun|]. split; [exact Hem|].
  split; [symmetry; exact (Forall2_length _ _ _ Hrecs)|].
  apply (Honce "d1" [Demo.a; Demo.b] Demo.a Demo.b).
  - reflexivity.
  - apply (bool_decide_unpack _). vm_compute. reflexivity.
  - apply list_elem_of_In. simpl. auto.
  - apply list_elem_of_In. simpl. auto.
  - discriminate.
Defined.

Section LiveMode.
Context `{External}.

(** The loop body in live mode, the first time two different cached
    units are reached: the pair vector is yielded twice over, and the
    second [yield] finds [pairs_vec] unbound. *)
Lemma pair_body_live (inputs : FeatureInput) (current : DocumentPlus)
  (relations : gmap (EDU * EDU) string) (c : loc) (d : gmap EDU loc)
  (e1 e2 : EDU) (v1 v2 : loc) (w : world) :
  heap w !! c = Some (ODict d) -> d !! e1 = Some v1 -> d !! e2 = Some v2 ->
  e1 <> e2 ->
  pair_body inputs true current relations c (mkLocals None None) (e1, e2) w
  = (Raise (UnboundLocalError "pairs_vec"),
     mkWorld
       (heap w ++ pair_vector_objects
                    (filled_pair_vector (length (heap w)) c current e1 e2 v1 v2))
       (emitted w ++ [((length (heap w) + 2)%nat, (length (heap w) + 2)%nat)])).
Proof.
  intros Hc He1 He2 Hne. unfold pair_body. cbn [fst snd].
  destruct (decide (e1 = e2)) as [Heq|_]; [contradiction|].
  rewrite (bind_run _ _ _ _ _ (PairKeys_run inputs c w)).
  rewrite (bind_run _ _ _ _ _
             (PairKeys_fill_fresh current c d e1 e2 v1 v2 w Hc He1 He2)).
  reflexivity.
Qed.

(** One document in live mode: without two different units nothing is
    yielded; otherwise one record is yielded and the generator dies. *)
Lemma document_body_live (inputs : FeatureInput) (k : FileId) (w : world) :
  match distinct_pairs (leaves (rsttree (preprocess inputs k))) with
  | [] =>
      exists w', document_body inputs true (mkLocals None None) k w
                 = (Ok (mkLocals None None), w')
                 /\ emitted w' = emitted w
  | p :: _ =>
      exists w' vec n c v1 v2,
        document_body inputs true (mkLocals None None) k w
        = (Raise (UnboundLocalError "pairs_vec"), w')
        /\ emitted w' = (emitted w ++ [(vec, vec)])%list
        /\ heap w' !! vec
           = Some (filled_pair_vector n c (preprocess inputs k) (fst p) (snd p) v1 v2)
  end.
Proof.
  unfold document_body. cbn [negb].
  set (current := preprocess inputs k).
  set (edus := leaves (rsttree current)).
  rewrite (bind_run _ _ _ _ _ (alloc_run _ _)).
  destruct (cache_loop inputs current (length (heap w)) edus []
              (mkWorld (heap w ++ [ODict ∅]) (emitted w)))
    as (w1 & Hrun1 & Hcached & Hem1 & _ & _).
  { exists ∅. split; [cbn [heap]; rewrite lookup_appended_0; reflexivity|].
    intros e He. inversion He. }
  rewrite (bind_run _ _ _ _ _ Hrun1). simpl app in Hcached.
  rewrite pair_loop_skips_self_pairs. fold (distinct_pairs edus).
  pose proof (elem_of_distinct_pairs edus) as Hmem.
  destruct (distinct_pairs edus) as [|[e1 e2] rest].
  - exists w1. split; [reflexivity|exact Hem1].
  - destruct (proj1 (Hmem e1 e2)) as (He1 & He2 & Hne); [left|].
    destruct Hcached as (d & Hc & Hall).
    destruct (Hall e1 He1) as (v1 & n1 & Hv1 & _).
    destruct (Hall e2 He2) as (v2 & n2 & Hv2 & _).
    cbn [for_each_with].
    rewrite (bind_run_raise _ _ _ _ _
               (pair_body_live inputs current ∅ _ d e1 e2 v1 v2 w1 Hc Hv1 Hv2 Hne)).
    eexists _, (length (heap w1) + 2)%nat, _, _, v1, v2.
    split; [reflexivity|]. cbn [heap emitted fst snd].
    split; [rewrite Hem1; reflexivity|].
    rewrite lookup_appended. reflexivity.
Qed.

(** In live mode the generator yields at most one record: it returns
    normally only when no document has two different units, and
    otherwise raises UnboundLocalError right after the first record. *)
Lemma live_mode_stops_after_first_record (inputs : FeatureInput) (w : world) :
  match corpus_pairs inputs with
  | [] =>
      exists w', extract_pair_features inputs true w = (Ok tt, w')
                 /\ emitted w' = emitted w
  | kp :: _ =>
      exists w' vec n c v1 v2,
        extract_pair_features inputs true w
        = (Raise (UnboundLocalError "pairs_vec"), w')
        /\ emitted w' = (emitted w ++ [(vec, vec)])%list
        /\ heap w' !! vec
           = Some (filled_pair_vector n c (preprocess inputs (fst kp))
                     (fst (snd kp)) (snd (snd kp)) v1 v2)
  end.
Proof.
  unfold extract_pair_features, corpus_pairs.
  generalize (corpus_keys (corpus inputs)) as ks. intros ks. revert w.
  induction ks as [|k ks IH]; intros w.
  - exists w. split; reflexivity.
  - cbn [flat_map for_each_with].
    pose proof (document_body_live inputs k w) as Hdoc.
    destruct (distinct_pairs (leaves (rsttree (preprocess inputs k))))
      as [|p rest].
    + destruct Hdoc as (w1 & Hrun1 & Hem1).
      cbn [map app]. specialize (IH w1).
      destruct (flat_map _ ks) as [|kp rest'].
      * destruct IH as (w' & Hrun & Hem). exists w'.
        rewrite bind_assoc, (bind_run _ _ _ _ _ Hrun1).
        split; [exact Hrun|]. rewrite Hem. exact Hem1.
      * destruct IH as (w' & vec & n & c & v1 & v2 & Hrun & Hem & Hvec).
        exists w', vec, n, c, v1, v2.
        rewrite bind_assoc, (bind_run _ _ _ _ _ Hrun1).
        split; [exact Hrun|]. split; [rewrite Hem, Hem1; reflexivity|exact Hvec].
    + destruct Hdoc as (w' & vec & n & c & v1 & v2 & Hrun & Hem & Hvec).
      cbn [map app]. exists w', vec, n, c, v1, v2.
      rewrite bind_assoc, (bind_run_raise _ _ _ _ _ Hrun).
      split; [reflexivity|]. split; [exact Hem|exact Hvec].
Qed.

End LiveMode.

(** C1. In live mode, on a corpus of one document with the two units [a]
    and [b], the generator yields one record, made of the pair vector of
    [(a, b)] twice, and then raises UnboundLocalError on [pairs_vec]: the
    pair [(b, a)] is never reached.  (The relation table is empty: the
    labels are not computed.) *)
Theorem live_mode_raises_after_first_pair :
  fst (@extract_pair_features Demo.external Demo.two_units true Demo.start)
  = Raise (UnboundLocalError "pairs_vec")
  /\ emitted (snd (@extract_pair_features Demo.external Demo.two_units true Demo.start))
     = [(9%nat, 9%nat)]
  /\ distinct_pairs (leaves (Branch [Leaf Demo.a; Leaf Demo.b]))
     = [(Demo.a, Demo.b); (Demo.b, Demo.a)].
Proof.
  split; [vm_compute; reflexivity|].
  split; vm_compute; reflexivity.
Qed.

Section EnumerationRun.
Context `{External}.

(** C3. The loop over [itertools.product(edus, edus)] of one document
    whose N units are pairwise different.  With [live=False] it runs to
    its end and produces exactly N * (N - 1) records, one for each
    ordered pair of two different units and in the order of the
    product: each record is built on a pair vector filled for its pair,
    no pair comes twice, and for two different units [a] and [b] both
    the record of [(a, b)] and the record of [(b, a)] are produced.
    With [live=True] and at least two units the same loop produces the
    record of the first pair only: the exception on [pairs_vec] ends it,
    and the other N * (N - 1) - 1 pairs are never reached. *)
Theorem pair_enumeration_complete (inputs : FeatureInput) (k : FileId)
  (lv : locals) (w : world) :
  NoDup (leaves (rsttree (preprocess inputs k))) ->
  let current := preprocess inputs k in
  let edus := leaves (rsttree current) in
  let relations := simplify_deptree (deptree current) in
  (exists lv' w' recs,
      document_body inputs false lv k w = (Ok lv', w')
      /\ emitted w' = (emitted w ++ recs)%list
      /\ length recs = (length edus * (length edus - 1))%nat
      /\ Forall2 (fun p r =>
                    labelled (heap w') current p (attachment_label relations p)
                      (relation_label relations p) r)
           (distinct_pairs edus) recs
      /\ NoDup (distinct_pairs edus)
      /\ (forall x y,
            (x, y) ∈ distinct_pairs edus <-> x ∈ edus /\ y ∈ edus /\ x <> y)
      /\ (forall a b, a ∈ edus -> b ∈ edus -> a <> b ->
            exists rab rba,
              rab ∈ recs /\ rba ∈ recs
              /\ labelled (heap w') current (a, b)
                   (attachment_label relations (a, b))
                   (relation_label relations (a, b)) rab
              /\ labelled (heap w') current (b, a)
                   (attachment_label relations (b, a))
                   (relation_label relations (b, a)) rba))
  /\ ((2 <= length edus)%nat ->
      exists w' vec n c v1 v2 p rest,
        document_body inputs true (mkLocals None None) k w
        = (Raise (UnboundLocalError "pairs_vec"), w')
        /\ emitted w' = (emitted w ++ [(vec, vec)])%list
        /\ distinct_pairs edus = p :: rest
        /\ length rest = (length edus * (length edus - 1) - 1)%nat
        /\ rest <> []
        /\ heap w' !! vec
           = Some (filled_pair_vector n c current (fst p) (snd p) v1 v2)).
Proof.
  intros Hnd current edus relations.
  pose proof (length_distinct_pairs edus Hnd) as Hlen.
  split.
  - destruct (document_body_corpus inputs lv k w)
      as (lv' & w' & x & recs & Hrun & _ & Hem & Hrecs).
    fold current in Hrecs. fold edus in Hrecs. fold relations in Hrecs.
    exists lv', w', recs.
    split; [exact Hrun|]. split; [exact Hem|].
    split; [rewrite <- Hlen; symmetry; eapply Forall2_length, Hrecs|].
    split; [exact Hrecs|].
    split; [apply NoDup_filter, NoDup_itertools_product; exact Hnd|].
    split; [apply elem_of_distinct_pairs|].
    assert (Hone : forall p, p ∈ distinct_pairs edus ->
              exists r, r ∈ recs
                        /\ labelled (heap w') current p
                             (attachment_label relations p)
                             (relation_label relations p) r).
    { intros p Hp. apply list_elem_of_lookup in Hp as (i & Hi).
      destruct (Forall2_lookup_l _ _ _ _ _ Hrecs Hi) as (r & Hr & Hlab).
      exists r. split; [eapply list_elem_of_lookup_2, Hr|exact Hlab]. }
    intros a b Ha Hb Hne.
    destruct (Hone (a, b)) as (rab & Hin1 & Hl1);
      [apply elem_of_distinct_pairs; auto|].
    destruct (Hone (b, a)) as (rba & Hin2 & Hl2);
      [apply elem_of_distinct_pairs; auto|].
    exists rab, rba. auto.
  - intros Htwo.
    pose proof (document_body_live inputs k w) as Hlive.
    fold current in Hlive. fold edus in Hlive.
    destruct (distinct_pairs edus) as [|p rest] eqn:Hpairs.
    + simpl in Hlen. nia.
    + destruct Hlive as (w' & vec & n & c & v1 & v2 & Hrun & Hem & Hvec).
      exists w', vec, n, c, v1, v2, p, rest.
      split; [exact Hrun|]. split; [exact Hem|]. split; [reflexivity|].
      simpl in Hlen.
      split; [lia|]. split; [|exact Hvec].
      destruct rest; [simpl in Hlen; nia|discriminate].
Qed.

End EnumerationRun.

(** The sample document of two units: two records with [live=False],
    one record and the exception with [live=True]. *)
Lemma pair_enumeration_complete_witness :
  (exists lv' w' recs,
      @document_body Demo.external Demo.two_units false (mkLocals None None)
        "d1" Demo.start = (Ok lv', w')
      /\ emitted w' = recs /\ length recs = 2%nat)
  /\ (exists w' vec,
        @document_body Demo.external Demo.two_units true (mkLocals None None)
          "d1" Demo.start = (Raise (UnboundLocalError "pairs_vec"), w')
        /\ emitted w' = [(vec, vec)]).
Proof.
  destruct (@pair_enumeration_complete Demo.external Demo.two_units "d1"
              (mkLocals None None) Demo.start) as [Hcorpus Hlive].
  - apply (bool_decide_unpack _). vm_compute. reflexivity.
  - split.
    + destruct Hcorpus as (lv' & w' & recs & Hrun & Hem & Hlen & _).
      exists lv', w', recs. split; [exact Hrun|]. split; [exact Hem|exact Hlen].
    + destruct Hlive as (w' & vec & _ & _ & _ & _ & _ & _ & Hrun & Hem & _).
      { vm_compute. lia. }
      exists w', vec. split; [exact Hrun|exact Hem].
Defined.

Section PairOutput.
Context `{External}.

Lemma unit_vector_run (w : world) (v : loc) (g : KeyGroup single_fn)
  (groups : list loc) :
  heap w !! v = Some (OSingleEduKeys g groups) ->
  unit_vector (Some v) w = (Ok (g, groups), w).
Proof.
  intros Hv. unfold unit_vector.
  rewrite (bind_run _ _ _ _ _ (deref_Some _ _ _ Hv)). reflexivity.
Qed.

Lemma as_PairKeys_run (w : world) (self : loc) (pk : PairKeysObj) :
  heap w !! self = Some (OPairKeys pk) -> as_PairKeys self w = (Ok pk, w).
Proof.
  intros Hs. unfold as_PairKeys.
  rewrite (bind_run _ _ _ _ _ (deref_Some _ _ _ Hs)). reflexivity.
Qed.

(** Rendering help text reads the store and leaves it as it is. *)
Lemma subgroup_help_texts_pure (groups : list loc) (w : world) :
  snd (subgroup_help_texts groups w) = w.
Proof.
  induction groups as [|g groups IH]; [reflexivity|].
  simpl. unfold bind, deref.
  destruct (heap w !! g) as [o|]; [|reflexivity].
  destruct o; try reflexivity.
  - unfold ret at 1. specialize IH.
    destruct (subgroup_help_texts groups w) as [[ts|e] w'] eqn:Hrec;
      simpl in IH; subst w'; reflexivity.
  - unfold ret at 1.
    destruct (subgroup_help_texts groups w) as [[ts|e] w'] eqn:Hrec;
      simpl in IH; subst w'; reflexivity.
Qed.

Lemma help_text_run (groups : list loc) (w : world) (txt : string) :
  fst (MergedKeyGroup_help_text groups w) = Ok txt ->
  MergedKeyGroup_help_text groups w = (Ok txt, w).
Proof.
  unfold MergedKeyGroup_help_text, bind.
  pose proof (subgroup_help_texts_pure groups w) as Hpure.
  destruct (subgroup_help_texts groups w) as [[ts|e] w']; simpl in *; subst w'.
  - unfold ret. simpl. intros [= <-]. reflexivity.
  - discriminate.
Qed.

(** C5, as the code has it. For a [PairKeys] whose two unit sub-vectors
    are set, [csv_headers] returns the pair-level headers, then the
    headers of the first sub-vector with the suffix [_EDU1], then those
    of the second with the suffix [_EDU2]; [csv_values] returns the
    pair-level values, then the values of the first and of the second
    sub-vector; [help_text] is the pair-level help, an empty line, and
    the help of the first sub-vector, once.  None of them changes the
    store. *)
Theorem PairKeys_output_layout (w : world) (self v1 v2 : loc)
  (pk : PairKeysObj) (g1 g2 : KeyGroup single_fn) (groups1 groups2 : list loc)
  (own h1 : string) :
  heap w !! self = Some (OPairKeys pk) ->
  pk_edu1 pk = Some v1 ->
  pk_edu2 pk = Some v2 ->
  heap w !! v1 = Some (OSingleEduKeys g1 groups1) ->
  heap w !! v2 = Some (OSingleEduKeys g2 groups2) ->
  fst (MergedKeyGroup_help_text (pk_groups pk) w) = Ok own ->
  fst (MergedKeyGroup_help_text groups1 w) = Ok h1 ->
  PairKeys_csv_headers self w
  = (Ok (MergedKeyGroup_csv_headers (pk_base pk)
         ++ map (fun h => h +:+ "_EDU1") (MergedKeyGroup_csv_headers g1)
         ++ map (fun h => h +:+ "_EDU2") (MergedKeyGroup_csv_headers g2))%list, w)
  /\ PairKeys_csv_values self w
     = (Ok (MergedKeyGroup_csv_values (pk_base pk)
            ++ MergedKeyGroup_csv_values g1
            ++ MergedKeyGroup_csv_values g2)%list, w)
  /\ PairKeys_help_text self w = (Ok (own +:+ newline +:+ newline +:+ h1), w).
Proof.
  intros Hself He1 He2 Hv1 Hv2 Hown Hh1.
  unfold PairKeys_csv_headers, PairKeys_csv_values, PairKeys_help_text.
  rewrite !(bind_run _ _ _ _ _ (as_PairKeys_run _ _ _ Hself)).
  rewrite He1, He2.
  rewrite !(bind_run _ _ _ _ _ (unit_vector_run _ _ _ _ Hv1)).
  rewrite !(bind_run _ _ _ _ _ (unit_vector_run _ _ _ _ Hv2)).
  split; [reflexivity|]. split; [reflexivity|].
  rewrite (bind_run _ _ _ _ _ (help_text_run _ _ _ Hown)).
  rewrite (bind_run _ _ _ _ _ (unit_vector_run _ _ _ _ Hv1)).
  cbn [snd]. rewrite (bind_run _ _ _ _ _ (help_text_run _ _ _ Hh1)). reflexivity.
Qed.

Lemma length_append (s1 s2 : string) :
  String.length (s1 +:+ s2) = (String.length s1 + String.length s2)%nat.
Proof. induction s1 as [|c s1 IH]; simpl; [reflexivity|]. rewrite IH. reflexivity. Qed.

End PairOutput.

(** The pair vector of [(a, b)] after the extraction over the sample
    document: its headers and values, with those of the cached vectors
    of [a] and [b]. *)
Lemma PairKeys_output_layout_witness :
  fst (@PairKeys_csv_headers Demo.external 9%nat Demo.corpus_run)
  = Ok ["feat_grouping"; "num_edus_between";
        "feat_id_EDU1"; "feat_start_EDU1"; "feat_end_EDU1";
        "word_first_EDU1"; "word_last_EDU1"; "num_tokens_EDU1";
        "feat_id_EDU2"; "feat_start_EDU2"; "feat_end_EDU2";
        "word_first_EDU2"; "word_last_EDU2"; "num_tokens_EDU2"]
  /\ fst (@PairKeys_csv_values Demo.external 9%nat Demo.corpus_run)
     = Ok [VStr "d1"; VInt 0;
           VStr "d1_1"; VInt 0; VInt 15; VStr "hello"; VStr "there"; VInt 2;
           VStr "d1_2"; VInt 15; VInt 18; VNone; VNone; VInt 0].
Proof.
  epose proof (@PairKeys_output_layout Demo.external Demo.corpus_run
                 9%nat 3%nat 6%nat
                 (filled_pair_keys 7 0 Demo.current Demo.a Demo.b 3 6)
                 (filled_single_group Demo.current Demo.a)
                 (filled_single_group Demo.current Demo.b)
                 [1%nat; 2%nat] [4%nat; 5%nat] _ _) as Hlayout.
  destruct Hlayout as (Hh & Hv & _).
  - vm_compute. reflexivity.
  - reflexivity.
  - reflexivity.
  - vm_compute. reflexivity.
  - vm_compute. reflexivity.
  - vm_compute. reflexivity.
  - vm_compute. reflexivity.
  - rewrite Hh, Hv. split; vm_compute; reflexivity.
Defined.

(** C5, the part that fails: the help text of the pair vector of [(a, b)]
    is too short to hold the pair-level help and the help of both unit
    sub-vectors. *)
Lemma PairKeys_help_text_omits_second_unit :
  exists txt own h1 h2,
    fst (@PairKeys_help_text Demo.external 9%nat Demo.corpus_run) = Ok txt
    /\ fst (@MergedKeyGroup_help_text Demo.external [7%nat; 8%nat] Demo.corpus_run)
       = Ok own
    /\ fst (@MergedKeyGroup_help_text Demo.external [1%nat; 2%nat] Demo.corpus_run)
       = Ok h1
    /\ fst (@MergedKeyGroup_help_text Demo.external [4%nat; 5%nat] Demo.corpus_run)
       = Ok h2
    /\ ~ renders_both_units txt own h1 h2.
Proof.
  eexists _, _, _, _.
  split; [vm_compute; reflexivity|].
  split; [vm_compute; reflexivity|].
  split; [vm_compute; reflexivity|].
  split; [vm_compute; reflexivity|].
  intros (s1 & s2 & s3 & Heq).
  apply (f_equal String.length) in Heq.
  rewrite !length_append in Heq.
  simpl in Heq. lia.
Qed.

(* ===================================================================== *)
(** * Further properties of the text features *)
(* ===================================================================== *)

Section Tokens.
Context `{External}.

Lemma chars_rev_app (s1 s2 : string) :
  list_ascii_of_string (String.rev_app s1 s2)
  = (rev (list_ascii_of_string s1) ++ list_ascii_of_string s2)%list.
Proof.
  revert s2. induction s1 as [|c s1 IH]; intros s2; [reflexivity|].
  simpl. rewrite IH. simpl. rewrite <- app_assoc. reflexivity.
Qed.

Lemma chars_rev (s : string) :
  list_ascii_of_string (String.rev s) = rev (list_ascii_of_string s).
Proof. unfold String.rev. rewrite chars_rev_app. simpl. apply app_nil_r. Qed.

Lemma rev_nonempty (s : string) : s <> EmptyString -> String.rev s <> EmptyString.
Proof.
  intros Hs Hrev. apply (f_equal list_ascii_of_string) in Hrev.
  rewrite chars_rev in Hrev. simpl in Hrev.
  destruct s as [|c s]; [contradiction|].
  simpl in Hrev. destruct (rev (list_ascii_of_string s)); discriminate.
Qed.

(** The words [split] returns are not empty and have no whitespace. *)
Lemma split_go_words (s word : string) :
  (forall c, In c (list_ascii_of_string word) -> PyStr.isspace c = false) ->
  Forall (fun t => t <> EmptyString
                   /\ forall c, In c (list_ascii_of_string t) ->
                                PyStr.isspace c = false)
    (PyStr.split_go word s).
Proof.
  revert word. induction s as [|c s IH]; intros word Hword.
  - simpl. destruct word as [|c0 w0]; [constructor|].
    constructor; [|constructor]. split; [apply rev_nonempty; discriminate|].
    intros c Hc. rewrite chars_rev in Hc. apply in_rev in Hc. auto.
  - simpl. destruct (PyStr.isspace c) eqn:Hsp.
    + destruct word as [|c0 w0].
      * apply IH. intros c' [].
      * constructor; [|apply IH; intros c' []].
        split; [apply rev_nonempty; discriminate|].
        intros c' Hc'. rewrite chars_rev in Hc'. apply in_rev in Hc'. auto.
    + apply IH. intros c' [<-|Hc']; auto.
Qed.

Lemma chars_lower (s : string) :
  list_ascii_of_string (PyStr.lower s)
  = map PyStr.lower_char (list_ascii_of_string s).
Proof. induction s as [|c s IH]; simpl; [reflexivity|]. rewrite IH. reflexivity. Qed.

Lemma lower_char_idempotent (c : ascii) :
  PyStr.lower_char (PyStr.lower_char c) = PyStr.lower_char c.
Proof. destruct c as [[] [] [] [] [] [] [] []]; reflexivity. Qed.

Lemma isspace_lower_char (c : ascii) :
  PyStr.isspace (PyStr.lower_char c) = PyStr.isspace c.
Proof. destruct c as [[] [] [] [] [] [] [] []]; reflexivity. Qed.

(** X1. No token of a unit is empty, and no token has a whitespace
    character or an upper-case letter (lower-casing a character of a
    token gives the character itself). *)
Theorem tokens_are_clean_words (e : EDU) (t : string) :
  t ∈ edu_tokens e ->
  t <> EmptyString
  /\ forall c, In c (list_ascii_of_string t) ->
               PyStr.isspace c = false /\ PyStr.lower_char c = c.
Proof.
  unfold edu_tokens, clean_corpus_word. intros Ht.
  apply list_elem_of_In, in_map_iff in Ht as (w & <- & Hw).
  pose proof (split_go_words (clean_edu_text (text e)) EmptyString) as Hall.
  rewrite Forall_forall in Hall.
  destruct (Hall (fun c Hc => match Hc with end) w) as (Hne & Hsp).
  { apply list_elem_of_In. exact Hw. }
  split.
  - destruct w; [contradiction|discriminate].
  - intros c Hc. rewrite chars_lower in Hc.
    apply in_map_iff in Hc as (c0 & <- & Hc0).
    rewrite isspace_lower_char, lower_char_idempotent. auto.
Qed.

(** X2. The three text features agree on the unit without tokens:
    [word_first] is [None] exactly when [word_last] is, exactly when
    [num_tokens] is 0; [num_tokens] is never negative; and a unit of one
    token has the same first and last word. *)
Theorem token_features_agree (current : DocumentPlus) (e : EDU) :
  (word_first current e = VNone <-> num_tokens current e = VInt 0)
  /\ (word_last current e = VNone <-> num_tokens current e = VInt 0)
  /\ (exists n, num_tokens current e = VInt n /\ 0 <= n)
  /\ (num_tokens current e = VInt 1 -> word_first current e = word_last current e)
  /\ (forall t, word_first current e = VStr t -> t ∈ edu_tokens e)
  /\ (forall t, word_last current e = VStr t -> t ∈ edu_tokens e).
Proof.
  unfold word_first, word_last, num_tokens, tokens_feature, edu_feature.
  destruct (edu_tokens e) as [|t0 rest] eqn:Htok.
  - simpl. repeat split; auto; try discriminate.
    exists 0. split; [reflexivity|lia].
  - split; [split; [discriminate|intros [= Hlen]; simpl in Hlen; lia]|].
    split.
    { split; [|intros [= Hlen]; simpl in Hlen; lia].
      destruct (last (t0 :: rest)) eqn:Hlast; [discriminate|].
      apply last_None in Hlast. discriminate. }
    split; [eexists; split; [reflexivity|lia]|].
    split.
    { intros [= Hlen]. destruct rest; [reflexivity|simpl in Hlen; lia]. }
    split.
    { simpl. intros t [= <-]. left. }
    intros t. destruct (last (t0 :: rest)) as [t'|] eqn:Hlast; [|discriminate].
    intros [= <-]. apply last_Some in Hlast as (l' & ->).
    apply elem_of_app. right. left.
Qed.

End Tokens.

Section MoreText.
Context `{External}.

Lemma split_go_no_words (s : string) :
  Forall (fun c => PyStr.isspace c = true) (list_ascii_of_string s) ->
  PyStr.split_go EmptyString s = [].
Proof.
  induction s as [|c s IH]; intros Hall; [reflexivity|].
  simpl in Hall. apply Forall_cons in Hall as [Hc Hs].
  simpl. rewrite Hc. apply IH, Hs.
Qed.

Lemma split_go_open_word (s : string) (c0 : ascii) (w0 : string) :
  PyStr.split_go (String c0 w0) s <> [].
Proof.
  revert c0 w0. induction s as [|c s IH]; intros c0 w0; simpl; [discriminate|].
  destruct (PyStr.isspace c); [discriminate|apply IH].
Qed.

Lemma split_go_some_word (s : string) :
  PyStr.split_go EmptyString s = [] ->
  Forall (fun c => PyStr.isspace c = true) (list_ascii_of_string s).
Proof.
  induction s as [|c s IH]; intros Hs; [constructor|].
  simpl in Hs. destruct (PyStr.isspace c) eqn:Hc.
  - constructor; [exact Hc|apply IH, Hs].
  - exfalso. exact (split_go_open_word s c EmptyString Hs).
Qed.

(** X3. A unit has no token exactly when its cleaned text only has
    whitespace; this is the case of a text made of markup only, followed
    or not by a final newline. *)
Theorem no_token_iff_blank (e : EDU) :
  (edu_tokens e = []
   <-> Forall (fun c => PyStr.isspace c = true)
         (list_ascii_of_string (clean_edu_text (text e))))
  /\ (forall m tail,
        text e = m +:+ tail -> Re.skip_markup m = EmptyString ->
        Re.at_dollar tail = true -> edu_tokens e = []).
Proof.
  assert (Hiff : edu_tokens e = []
                 <-> Forall (fun c => PyStr.isspace c = true)
                       (list_ascii_of_string (clean_edu_text (text e)))).
  { unfold edu_tokens, PyStr.split. split.
    - intros Hm. apply split_go_some_word.
      destruct (PyStr.split_go EmptyString (clean_edu_text (text e)));
        [reflexivity|discriminate].
    - intros Hall. rewrite (split_go_no_words _ Hall). reflexivity. }
  split; [exact Hiff|].
  intros m tail Htext Hm Htail. apply Hiff.
  unfold clean_edu_text. rewrite Htext.
  assert (Hsub : Re.sub_trailing_markup (m +:+ tail) = tail).
  { assert (Hskip : Re.skip_markup (m +:+ tail) = tail).
    { rewrite (skip_markup_app m tail Hm). apply skip_markup_tail, Htail. }
    destruct (m +:+ tail) as [|c r] eqn:Hmt.
    - simpl in Hskip. subst tail. reflexivity.
    - cbn [Re.sub_trailing_markup]. rewrite Hskip, Htail. reflexivity. }
  rewrite Hsub. apply at_dollar_spec in Htail as [->| ->].
  - constructor.
  - repeat constructor.
Qed.

(** X4. [num_edus_between] is never below -1; it is -1 exactly for two
    units with the same index and 0 exactly for two units whose indices
    differ by one. *)
Theorem num_edus_between_bounds (current : DocumentPlus) (u1 u2 : EDU) :
  exists n,
    num_edus_between current u1 u2 = VInt n
    /\ -1 <= n
    /\ (n = -1 <-> num u1 = num u2)
    /\ (n = 0 <-> num u2 = num u1 + 1 \/ num u1 = num u2 + 1).
Proof.
  unfold num_edus_between, edu_pair_feature.
  eexists. split; [reflexivity|]. lia.
Qed.

End MoreText.

Section Grouping.
Context `{External}.

Lemma basename_go_no_slash (p seen : string) :
  (forall c, In c (list_ascii_of_string p) -> c <> "/"%char) ->
  PyStr.basename_go seen p = String.rev_app seen p.
Proof.
  revert seen. induction p as [|c p IH]; intros seen Hp; [reflexivity|].
  simpl. destruct (Ascii.eqb_spec c "/") as [->|Hc].
  - exfalso. apply (Hp "/"%char); [left|]; reflexivity.
  - rewrite IH by (intros c' Hc'; apply Hp; right; exact Hc'). reflexivity.
Qed.

Lemma basename_go_after_slash (d n seen : string) :
  PyStr.basename_go seen (d +:+ String "/" n) = PyStr.basename_go EmptyString n.
Proof.
  revert seen. induction d as [|c d IH]; intros seen.
  - reflexivity.
  - rewrite append_cons. simpl. destruct (Ascii.eqb c "/"); apply IH.
Qed.

Lemma basename_go_chars (p seen : string) (c : ascii) :
  In c (list_ascii_of_string (PyStr.basename_go seen p)) ->
  In c (list_ascii_of_string seen) \/ In c (list_ascii_of_string p).
Proof.
  revert seen. induction p as [|c0 p IH]; intros seen Hc.
  - simpl in Hc. rewrite chars_rev in Hc. apply in_rev in Hc. auto.
  - simpl in Hc. destruct (Ascii.eqb c0 "/").
    + apply IH in Hc as [[]|Hc]. right. right. exact Hc.
    + apply IH in Hc as [[<-|Hc]|Hc]; simpl; auto.
Qed.

Lemma basename_go_slash_free (p seen : string) :
  ~ In "/"%char (list_ascii_of_string seen) ->
  ~ In "/"%char (list_ascii_of_string (PyStr.basename_go seen p)).
Proof.
  revert seen. induction p as [|c p IH]; intros seen Hseen.
  - simpl. rewrite chars_rev. intros Hin. apply in_rev in Hin. auto.
  - simpl. destruct (Ascii.eqb_spec c "/") as [->|Hc].
    + apply IH. intros [].
    + apply IH. intros [Heq|Hin]; [congruence|auto].
Qed.

(** X5. The grouping feature of a pair is the last component of the
    document's path: it has no slash, it is what follows the last slash
    of the path (the whole path when it has none), and it is the same for
    all pairs of one document. *)
Theorem feat_grouping_is_file_name (current : DocumentPlus) (e1 e2 : EDU) :
  exists file_name,
    feat_grouping current e1 e2 = VStr file_name
    /\ ~ In "/"%char (list_ascii_of_string file_name)
    /\ (forall c, In c (list_ascii_of_string file_name) ->
                  In c (list_ascii_of_string (id_to_path (key current))))
    /\ (forall d n,
          id_to_path (key current) = d +:+ String "/" n ->
          ~ In "/"%char (list_ascii_of_string n) -> file_name = n)
    /\ (~ In "/"%char (list_ascii_of_string (id_to_path (key current))) ->
        file_name = id_to_path (key current))
    /\ (forall e1' e2', feat_grouping current e1' e2' = VStr file_name).
Proof.
  exists (PyStr.basename (id_to_path (key current))).
  split; [reflexivity|]. unfold PyStr.basename.
  split; [apply basename_go_slash_free; intros []|].
  split.
  { intros c Hc. apply basename_go_chars in Hc as [[]|Hc]. exact Hc. }
  split.
  { intros d n Hpath Hn. rewrite Hpath, basename_go_after_slash.
    rewrite basename_go_no_slash; [reflexivity|].
    intros c Hc ->. contradiction. }
  split; [|reflexivity].
  intros Hn. rewrite basename_go_no_slash; [reflexivity|].
  intros c Hc ->. contradiction.
Qed.

End Grouping.

(* ===================================================================== *)
(** * Further properties of the vocabulary dump and of the dependency table *)
(* ===================================================================== *)

Section VocabularyMore.
Import Vocabulary.

Lemma filter_insert_by {A : Type} (key : A -> Z) (k : Z) (x : A) (l : list A) :
  filter (fun e => key e = k) (insert_by key x l)
  = filter (fun e => key e = k) (x :: l).
Proof.
  induction l as [|y l IH]; [reflexivity|].
  simpl. destruct (Z.leb_spec (key x) (key y)) as [Hle|Hgt]; [reflexivity|].
  rewrite filter_cons, IH, !filter_cons.
  destruct (decide (key y = k)), (decide (key x = k)); try reflexivity. lia.
Qed.

(** [sorted] keeps the elements of equal key in their order. *)
Lemma sorted_stable {A : Type} (key : A -> Z) (k : Z) (xs : list A) :
  filter (fun e => key e = k) (sorted key xs) = filter (fun e => key e = k) xs.
Proof.
  induction xs as [|x xs IH]; [reflexivity|].
  unfold sorted in *. simpl. rewrite filter_insert_by, !filter_cons, IH.
  reflexivity.
Qed.

(** X6. Whatever the vocabulary (two names may have the same index),
    the serializer leaves what the file holds in place and appends one
    line per entry, the indices in ascending order; the entries of one
    index are written in the order in which the dictionary enumerates
    them. *)
Theorem dump_vocabulary_appends_sorted (items : list (string * Z)) (f : file) :
  exists entries,
    _dump_vocabulary items f
    = (f ++ map (fun e => fst e +:+ String "009"
                            (PyStr.of_int (snd e + 1) +:+ newline)) entries)%list
    /\ Permutation entries items
    /\ length (_dump_vocabulary items f) = (length f + length items)%nat
    /\ StronglySorted (fun a b => (snd a <= snd b)%Z) entries
    /\ (forall i, filter (fun e => snd e = i) entries
                  = filter (fun e => snd e = i) items).
Proof.
  exists (sorted snd items).
  pose proof (sorted_Permutation snd items) as Hp.
  split; [apply dump_writes_sorted_lines|].
  split; [exact Hp|].
  split.
  { rewrite dump_writes_sorted_lines, length_app, length_map.
    rewrite (Permutation_length Hp). reflexivity. }
  split; [apply sorted_sorted|].
  intros i. apply sorted_stable.
Qed.

Lemma strictly_sorted_unique (l1 l2 : list (string * Z)) :
  StronglySorted (fun a b => (snd a < snd b)%Z) l1 ->
  StronglySorted (fun a b => (snd a < snd b)%Z) l2 ->
  Permutation l1 l2 -> l1 = l2.
Proof.
  intros H1. revert l2. induction H1 as [|x l1 Hl1 IH Hx]; intros l2 H2 Hp.
  - apply Permutation_nil in Hp. subst. reflexivity.
  - destruct H2 as [|y l2 Hl2 Hy].
    + symmetry in Hp. apply Permutation_nil in Hp. discriminate.
    + assert (Hxy : x = y).
      { assert (Hin : x ∈ y :: l2) by (rewrite <- Hp; left).
        assert (Hin' : y ∈ x :: l1) by (rewrite Hp; left).
        apply elem_of_cons in Hin as [Heq|Hin]; [exact Heq|].
        apply elem_of_cons in Hin' as [Heq|Hin']; [symmetry; exact Heq|].
        rewrite Forall_forall in Hx, Hy.
        specialize (Hx y Hin'). specialize (Hy x Hin). lia. }
      subst y. f_equal. apply IH; [exact Hl2|].
      eapply Permutation_cons_inv, Hp.
Qed.

(** X7. When the indices are distinct, what the serializer writes does
    not depend on the order in which the dictionary enumerates its
    entries. *)
Theorem dump_vocabulary_order_independent (items1 items2 : list (string * Z))
  (f : file) :
  Permutation items1 items2 ->
  NoDup (map snd items1) ->
  _dump_vocabulary items1 f = _dump_vocabulary items2 f.
Proof.
  intros Hp Hnd. rewrite !dump_writes_sorted_lines. do 2 f_equal.
  assert (Hnd2 : NoDup (map snd items2)).
  { assert (Hq : Permutation (map snd items1) (map snd items2))
      by apply Permutation_map, Hp.
    rewrite <- Hq. exact Hnd. }
  apply strictly_sorted_unique.
  - apply sorted_strict; [|apply sorted_sorted].
    assert (Hq : Permutation (map snd (sorted snd items1)) (map snd items1))
      by apply Permutation_map, sorted_Permutation.
    rewrite Hq. exact Hnd.
  - apply sorted_strict; [|apply sorted_sorted].
    assert (Hq : Permutation (map snd (sorted snd items2)) (map snd items2))
      by apply Permutation_map, sorted_Permutation.
    rewrite Hq. exact Hnd2.
  - rewrite !sorted_Permutation. exact Hp.
Qed.

(** X8. Two entries are written as the same line only when they have
    the same name and the same index, also when names contain tabs. *)
Theorem dump_line_injective (fn1 fn2 : string) (i1 i2 : Z) :
  line_pattern fn1 (PyStr.of_int (i1 + 1)) = line_pattern fn2 (PyStr.of_int (i2 + 1)) ->
  fn1 = fn2 /\ i1 = i2.
Proof.
  intros Heq. apply (f_equal read_line) in Heq.
  rewrite !read_line_pattern in Heq. injection Heq as -> Hi. split; [reflexivity|lia].
Qed.

End VocabularyMore.

Section DependencyTableMore.
Context `{External}.

Lemma foldl_insert_lookup_last {K V : Type} `{Countable K}
  (l1 l2 : list (K * V)) (m : gmap K V) (k : K) (v : V) :
  k ∉ map fst l2 ->
  foldl (fun m kv => <[fst kv := snd kv]> m) m (l1 ++ (k, v) :: l2) !! k = Some v.
Proof.
  intros Hk. rewrite foldl_app. simpl.
  generalize (foldl (fun m kv => <[fst kv := snd kv]> m) m l1). intros m'.
  assert (Hgen : forall m0 : gmap K V,
             m0 !! k = Some v ->
             foldl (fun m kv => <[fst kv := snd kv]> m) m0 l2 !! k = Some v).
  { clear m'. induction l2 as [|[k' v'] l2 IH]; intros m0 Hm0; [exact Hm0|].
    simpl. apply IH.
    - intros Hin. apply Hk. right. exact Hin.
    - rewrite lookup_insert_ne; [exact Hm0|]. intros ->. apply Hk. left. }
  apply Hgen, lookup_insert_eq.
Qed.

Lemma foldl_insert_lookup_elem {K V : Type} `{Countable K}
  (l : list (K * V)) (m : gmap K V) (k : K) (v : V) :
  foldl (fun m kv => <[fst kv := snd kv]> m) m l !! k = Some v ->
  m !! k = Some v \/ (k, v) ∈ l.
Proof.
  revert m. induction l as [|[k' v'] l IH]; intros m Hl; [left; exact Hl|].
  simpl in Hl. apply IH in Hl as [Hm|Hin]; [|right; right; exact Hin].
  destruct (decide (k' = k)) as [->|Hne].
  - rewrite lookup_insert_eq in Hm. injection Hm as ->. right. left.
  - rewrite lookup_insert_ne in Hm by exact Hne. left. exact Hm.
Qed.

(** X9. A relation found in the table of [simplify_deptree] for a pair
    of units is the relation tag of a node with the second unit that
    hangs from a child of the root with the first unit; when several
    such edges have the same two units, the table keeps the relation of
    the last one in tree order.  The label of the root plays no part. *)
Theorem simplify_deptree_values (dtree : Tree DepNode) (p c : EDU) (r : string) :
  (simplify_deptree dtree !! (p, c) = Some r ->
   exists subtree child,
     subtree ∈ children dtree /\ child ∈ children subtree
     /\ p = edu (treenode subtree) /\ c = edu (treenode child)
     /\ r = rel (treenode child))
  /\ (forall before after,
        visited_edges dtree = (before ++ ((p, c), r) :: after)%list ->
        (p, c) ∉ map fst after ->
        simplify_deptree dtree !! (p, c) = Some r)
  /\ (forall label, simplify_deptree (Node label (children dtree))
                    = simplify_deptree dtree).
Proof.
  split; [|split].
  - rewrite simplify_deptree_visited. intros Hl.
    apply foldl_insert_lookup_elem in Hl as [Hl|Hin];
      [rewrite lookup_empty in Hl; discriminate|].
    unfold visited_edges in Hin.
    apply list_elem_of_In, in_flat_map in Hin as (subtree & Hs & Hin).
    apply in_map_iff in Hin as (child & Heq & Hc).
    simplify_eq.
    exists subtree, child. rewrite !list_elem_of_In. auto.
  - intros before after Hv Hlast. rewrite simplify_deptree_visited, Hv.
    apply foldl_insert_lookup_last, Hlast.
  - intros label. reflexivity.
Qed.

(** X10. The keys of the table of [simplify_deptree] are exactly the
    pairs made of the unit of a child of the root and the unit of a
    child of that child: no edge that leaves the root and no edge
    deeper in the tree is a key on its own account.  A tree whose root
    has only leaves for children gives the empty table, and then every
    pair is labelled [False] and [UNRELATED]. *)
Theorem simplify_deptree_domain (dtree : Tree DepNode) :
  (forall p c,
      is_Some (simplify_deptree dtree !! (p, c))
      <-> exists subtree child,
          subtree ∈ children dtree /\ child ∈ children subtree
          /\ p = edu (treenode subtree) /\ c = edu (treenode child))
  /\ (Forall (fun subtree => children subtree = []) (children dtree) ->
      simplify_deptree dtree = ∅
      /\ forall epair,
          attachment_label (simplify_deptree dtree) epair = VBool false
          /\ relation_label (simplify_deptree dtree) epair = VStr "UNRELATED").
Proof.
  split; [intros p c; apply simplify_deptree_keys|].
  intros Hflat.
  assert (Hempty : simplify_deptree dtree = ∅).
  { rewrite simplify_deptree_visited. unfold visited_edges.
    induction Hflat as [|subtree rest Hs Hflat IH]; [reflexivity|].
    cbn [flat_map]. rewrite Hs. exact IH. }
  split; [exact Hempty|].
  intros epair. rewrite Hempty. unfold attachment_label, relation_label.
  rewrite lookup_empty. split; reflexivity.
Qed.

End DependencyTableMore.

(* ===================================================================== *)
(** * Further properties of the key groups *)
(* ===================================================================== *)

Section FillRoundTrip.
Context `{External}.

(** After the values of a list of keys with different names were
    written, each key's slot reads as its value. *)
Lemma csv_values_after_write {F : Type} (g : KeyGroup F) (val : MagicKey F -> pyval)
  (d : gmap string pyval) :
  NoDup (map name (keys g)) ->
  KeyGroup_csv_values
    (set_items g (write_all d (map (fun k => (name k, val k)) (keys g))))
  = map val (keys g).
Proof.
  intros Hnd. unfold KeyGroup_csv_values. cbn [keys items set_items].
  apply map_ext_in. intros k Hk.
  rewrite (write_all_lookup d _ (name k) (val k)); [reflexivity| |].
  - rewrite map_map. exact Hnd.
  - apply list_elem_of_In, in_map_iff. exists k. auto.
Qed.

(** X11. Filling a single-unit sub-group in place and reading it back:
    when its keys have different names, whatever the group held before,
    [csv_values] then returns the values the keys' functions compute for
    the unit, in the order of the keys, under unchanged headers; nothing
    of an earlier fill stays, no other object changes and nothing is
    yielded. *)
Theorem SingleEduSubgroup_fill_then_csv_values (w : world) (self : loc)
  (current : DocumentPlus) (e : EDU) (g : KeyGroup single_fn) :
  heap w !! self = Some (OSingleEduSubgroup g) ->
  NoDup (map name (keys g)) ->
  exists w' g',
    SingleEduSubgroup_fill self current e None w = (Ok tt, w')
    /\ heap w' = <[self := OSingleEduSubgroup g']> (heap w)
    /\ emitted w' = emitted w
    /\ KeyGroup_csv_headers g' = KeyGroup_csv_headers g
    /\ KeyGroup_csv_values g' = map (fun k => function k current e) (keys g).
Proof.
  intros Hself Hnd.
  exists (mkWorld
            (<[self := with_items (OSingleEduSubgroup g)
                         (write_all (items g) (single_values (keys g) current e))]>
               (heap w)) (emitted w)),
    (set_items g (write_all (items g) (single_values (keys g) current e))).
  split.
  { apply (SingleEduSubgroup_fill_run w self g current e None
             (OSingleEduSubgroup g) (items g) Hself Hself eq_refl). }
  split; [reflexivity|]. split; [reflexivity|]. split; [reflexivity|].
  apply (csv_values_after_write g (fun k => function k current e)), Hnd.
Qed.

(** X12. The same for a merged single-unit group whose keys are those
    of its sub-groups: after [fill], [csv_values] returns the values of
    all the keys for the unit, sub-group after sub-group; the sub-groups
    themselves are read only, their own dictionaries stay as they
    were. *)
Theorem SingleEduKeys_fill_then_csv_values (w : world) (self : loc)
  (current : DocumentPlus) (e : EDU) (g : KeyGroup single_fn)
  (groups : list loc) (kss : list (list (MagicKey single_fn))) :
  heap w !! self = Some (OSingleEduKeys g groups) ->
  single_subgroups (heap w) groups kss ->
  concat kss = keys g ->
  NoDup (map name (keys g)) ->
  exists w' g',
    SingleEduKeys_fill self current e None w = (Ok tt, w')
    /\ heap w' = <[self := OSingleEduKeys g' groups]> (heap w)
    /\ emitted w' = emitted w
    /\ single_subgroups (heap w') groups kss
    /\ (forall l, l ∈ groups -> heap w' !! l = heap w !! l)
    /\ KeyGroup_csv_headers g' = KeyGroup_csv_headers g
    /\ KeyGroup_csv_values g' = map (fun k => function k current e) (keys g).
Proof.
  intros Hself Hg Hkss Hnd.
  exists (mkWorld
            (<[self := with_items (OSingleEduKeys g groups)
                         (write_all (items g)
                            (single_values (concat kss) current e))]>
               (heap w)) (emitted w)),
    (set_items g (write_all (items g) (single_values (keys g) current e))).
  assert (Hother : forall l, l ∈ groups -> l <> self).
  { intros l Hl ->. unfold single_subgroups in Hg.
    apply list_elem_of_lookup in Hl as (i & Hi).
    destruct (Forall2_lookup_l _ _ _ _ _ Hg Hi) as (ks & _ & g0 & Hobj & _).
    rewrite Hself in Hobj. discriminate. }
  split.
  { apply (SingleEduKeys_fill_run w self g groups kss current e None
             (OSingleEduKeys g groups) (items g) Hself Hg Hself eq_refl). }
  split; [rewrite Hkss; reflexivity|]. split; [reflexivity|].
  split.
  { cbn [heap]. apply single_subgroups_update; assumption. }
  split.
  { intros l Hl. cbn [heap]. apply list_lookup_insert_ne. intros ->.
    exact (Hother _ Hl eq_refl). }
  split; [reflexivity|].
  apply (csv_values_after_write g (fun k => function k current e)), Hnd.
Qed.

End FillRoundTrip.

Section HelpMode.
Context `{External}.

(** [PairKeys(inputs)] without a cache creates its two sub-groups, then
    the two single-unit vectors with theirs, then itself. *)
Lemma PairKeys_run_without_cache (inputs : FeatureInput) (w : world) :
  PairKeys inputs None w
  = (Ok (length (heap w) + 8)%nat,
     mkWorld
       (heap w
        ++ [OPairSubgroup
              (KeyGroup_init "core features" [meta_fn "feat_grouping" feat_grouping]);
            OPairSubgroup
              (KeyGroup_init "the gap between EDUs"
                 [continuous_fn "num_edus_between" num_edus_between])]
        ++ single_vector_objects (fresh_single_vector (length (heap w) + 2))
        ++ single_vector_objects (fresh_single_vector (length (heap w) + 5))
        ++ [OPairKeys
              (mkPairKeysObj (KeyGroup_init "pair features" pair_keys)
                 [length (heap w); S (length (heap w))] None
                 (Some (length (heap w) + 4)%nat)
                 (Some (length (heap w) + 7)%nat))])%list
       (emitted w)).
Proof.
  destruct w as [h em]. unfold PairKeys, PairSubGroup_Core, PairSubgroup_Gap,
    merged_pair_keys.
  rewrite (bind_run _ _ _ _ _ (alloc_run _ _)). simpl heap; simpl emitted.
  rewrite (bind_run _ _ _ _ _ (alloc_run _ _)). simpl heap; simpl emitted.
  rewrite length_app. simpl length.
  rewrite bind_assoc.
  rewrite (bind_run _ _ _ _ _ (SingleEduKeys_run inputs _)).
  cbn [heap emitted]. rewrite bind_assoc.
  rewrite (bind_run _ _ _ _ _ (SingleEduKeys_run inputs _)).
  cbn [heap emitted]. rewrite bind_ret_l. cbn [fst snd].
  rewrite !length_app. simpl length.
  erewrite (bind_run (bind (deref (length h)) _)).
  2:{ erewrite bind_run.
      2:{ apply deref_Some. simpl. rewrite <- !app_assoc, lookup_appended_0.
          reflexivity. }
      simpl. erewrite bind_run.
      2:{ erewrite bind_run.
          2:{ apply deref_Some. simpl. rewrite <- !app_assoc, lookup_appended.
              reflexivity. }
          simpl. reflexivity. }
      reflexivity. }
  rewrite alloc_run. simpl.
  rewrite !length_app. simpl length.
  rewrite <- !app_assoc. simpl.
  replace (length h + 1)%nat with (S (length h)) by lia.
  replace (S (length h) + 1)%nat with (length h + 2)%nat by lia.
  replace (length h + 2 + 3)%nat with (length h + 5)%nat by lia.
  replace (length h + 5 + 3)%nat with (length h + 8)%nat by lia.
  replace (length h + 2 + 2)%nat with (length h + 4)%nat by lia.
  replace (length h + 5 + 2)%nat with (length h + 7)%nat by lia.
  reflexivity.
Qed.

(** The help of two sub-groups that are in the store. *)
Lemma help_text_of_two (w : world) (l1 l2 : loc) (o1 o2 : object) :
  heap w !! l1 = Some o1 -> heap w !! l2 = Some o2 ->
  (exists g, o1 = OSingleEduSubgroup g) \/ (exists g, o1 = OPairSubgroup g) ->
  (exists g, o2 = OSingleEduSubgroup g) \/ (exists g, o2 = OPairSubgroup g) ->
  exists txt, MergedKeyGroup_help_text [l1; l2] w = (Ok txt, w).
Proof.
  intros H1 H2 K1 K2. unfold MergedKeyGroup_help_text, subgroup_help_texts.
  rewrite !bind_assoc, (bind_run _ _ _ _ _ (deref_Some _ _ _ H1)).
  destruct K1 as [[g1 ->]|[g1 ->]], K2 as [[g2 ->]|[g2 ->]];
    rewrite !bind_assoc, bind_ret_l, !bind_assoc,
      (bind_run _ _ _ _ _ (deref_Some _ _ _ H2));
    rewrite ?bind_assoc, ?bind_ret_l; eexists; reflexivity.
Qed.

(** X13. [PairKeys(inputs)] without a cache, as the help command builds
    it: the constructor only adds objects to the store and yields
    nothing; the new vector has its own two single-unit vectors, so its
    fourteen headers, its row (every slot is still [None]) and its help
    text can be rendered without a fill, and rendering leaves the store
    as it is; but [fill] on it raises TypeError, whatever the units and
    the target, and changes nothing. *)
Theorem PairKeys_without_cache (inputs : FeatureInput) (w : world) :
  exists vec w' x,
    PairKeys inputs None w = (Ok vec, w')
    /\ heap w' = (heap w ++ x)%list
    /\ emitted w' = emitted w
    /\ PairKeys_csv_headers vec w'
       = (Ok ["feat_grouping"; "num_edus_between";
              "feat_id_EDU1"; "feat_start_EDU1"; "feat_end_EDU1";
              "word_first_EDU1"; "word_last_EDU1"; "num_tokens_EDU1";
              "feat_id_EDU2"; "feat_start_EDU2"; "feat_end_EDU2";
              "word_first_EDU2"; "word_last_EDU2"; "num_tokens_EDU2"], w')
    /\ PairKeys_csv_values vec w' = (Ok (repeat VNone 14), w')
    /\ (exists txt, PairKeys_help_text vec w' = (Ok txt, w'))
    /\ (forall current e1 e2 target,
          PairKeys_fill vec current e1 e2 target w' = (Raise TypeError, w')).
Proof.
  eexists _, _, _. split; [apply PairKeys_run_without_cache|].
  split; [reflexivity|]. split; [reflexivity|].
  set (w' := mkWorld _ _).
  assert (Hvec : heap w' !! (length (heap w) + 8)%nat
                 = Some (OPairKeys
                           (mkPairKeysObj (KeyGroup_init "pair features" pair_keys)
                              [length (heap w); S (length (heap w))] None
                              (Some (length (heap w) + 4)%nat)
                              (Some (length (heap w) + 7)%nat)))).
  { subst w'. cbn [heap]. rewrite lookup_appended. reflexivity. }
  assert (Hv1 : heap w' !! (length (heap w) + 4)%nat
                = Some (fresh_single_vector (length (heap w) + 2))).
  { subst w'. cbn [heap]. rewrite lookup_appended. reflexivity. }
  assert (Hv2 : heap w' !! (length (heap w) + 7)%nat
                = Some (fresh_single_vector (length (heap w) + 5))).
  { subst w'. cbn [heap]. rewrite lookup_appended. reflexivity. }
  unfold PairKeys_csv_headers, PairKeys_csv_values, PairKeys_help_text,
    PairKeys_fill.
  split.
  { rewrite (bind_run _ _ _ _ _ (as_PairKeys_run _ _ _ Hvec)). cbn [pk_edu1 pk_edu2].
    rewrite (bind_run _ _ _ _ _ (unit_vector_run _ _ _ _ Hv1)).
    rewrite (bind_run _ _ _ _ _ (unit_vector_run _ _ _ _ Hv2)).
    reflexivity. }
  split.
  { rewrite (bind_run _ _ _ _ _ (as_PairKeys_run _ _ _ Hvec)). cbn [pk_edu1 pk_edu2].
    rewrite (bind_run _ _ _ _ _ (unit_vector_run _ _ _ _ Hv1)).
    rewrite (bind_run _ _ _ _ _ (unit_vector_run _ _ _ _ Hv2)).
    reflexivity. }
  split.
  { rewrite (bind_run _ _ _ _ _ (as_PairKeys_run _ _ _ Hvec)).
    cbn [pk_edu1 pk_groups].
    edestruct (help_text_of_two w' (length (heap w)) (S (length (heap w))))
      as (own & Hown).
    { subst w'. cbn [heap]. rewrite lookup_appended_0. reflexivity. }
    { subst w'. cbn [heap].
      replace (S (length (heap w))) with (length (heap w) + 1)%nat by lia.
      rewrite lookup_appended. reflexivity. }
    { right. eexists. reflexivity. }
    { right. eexists. reflexivity. }
    rewrite (bind_run _ _ _ _ _ Hown).
    rewrite (bind_run _ _ _ _ _ (unit_vector_run _ _ _ _ Hv1)). cbn [snd].
    edestruct (help_text_of_two w' (length (heap w) + 2)%nat
                (S (length (heap w) + 2))) as (h1 & Hh1).
    { subst w'. cbn [heap]. rewrite lookup_appended. reflexivity. }
    { subst w'. cbn [heap].
      replace (S (length (heap w) + 2)) with (length (heap w) + 3)%nat by lia.
      rewrite lookup_appended. reflexivity. }
    { left. eexists. reflexivity. }
    { left. eexists. reflexivity. }
    rewrite (bind_run _ _ _ _ _ Hh1). eexists. reflexivity. }
  intros current e1 e2 target.
  rewrite (bind_run _ _ _ _ _ (deref_Some _ _ _ Hvec)). reflexivity.
Qed.

(** X14. A [PairKeys] built on a cache has no unit vectors until it is
    filled: on the vector the constructor returns, [csv_headers],
    [csv_values] and [help_text] all raise AttributeError, and leave
    the store as it is. *)
Theorem PairKeys_unfilled_cannot_be_rendered (inputs : FeatureInput) (c : loc)
  (w : world) :
  exists vec w',
    PairKeys inputs (Some c) w = (Ok vec, w')
    /\ PairKeys_csv_headers vec w' = (Raise AttributeError, w')
    /\ PairKeys_csv_values vec w' = (Raise AttributeError, w')
    /\ PairKeys_help_text vec w' = (Raise AttributeError, w').
Proof.
  eexists _, _. split; [apply PairKeys_run|].
  set (w' := mkWorld _ _).
  assert (Hvec : heap w' !! (length (heap w) + 2)%nat
                 = Some (fresh_pair_vector (length (heap w)) c)).
  { subst w'. cbn [heap]. rewrite lookup_appended. reflexivity. }
  unfold PairKeys_csv_headers, PairKeys_csv_values, PairKeys_help_text.
  rewrite !(bind_run _ _ _ _ _ (as_PairKeys_run _ _ _ Hvec)).
  split; [reflexivity|]. split; [reflexivity|].
  cbn [pk_edu1 pk_groups].
  edestruct (help_text_of_two w' (length (heap w)) (S (length (heap w))))
    as (own & Hown).
  { subst w'. cbn [heap]. rewrite lookup_appended_0. reflexivity. }
  { subst w'. cbn [heap].
    replace (S (length (heap w))) with (length (heap w) + 1)%nat by lia.
    rewrite lookup_appended. reflexivity. }
  { right. eexists. reflexivity. }
  { right. eexists. reflexivity. }
  rewrite (bind_run _ _ _ _ _ Hown). reflexivity.
Qed.

End HelpMode.

Section PairTarget.
Context `{External}.

(** X15. [PairKeys.fill] with or without a target, when both units are
    cached: the unit vectors are looked up in the cache of the receiver
    and the pair features are computed by the sub-groups of the
    receiver, but everything is written on the target (the receiver
    itself without one): the target gets the two cached vectors by
    reference and the pair values, keeps its own cache and sub-groups,
    and no other object changes; in particular the receiver is not
    touched when the target is another vector. *)
Theorem PairKeys_fill_to_target (w : world) (self c : loc) (target : option loc)
  (pk tpk : PairKeysObj) (d : gmap EDU loc) kss (current : DocumentPlus)
  (e1 e2 : EDU) (v1 v2 : loc) :
  heap w !! self = Some (OPairKeys pk) ->
  pk_sf_cache pk = Some c ->
  heap w !! c = Some (ODict d) ->
  d !! e1 = Some v1 -> d !! e2 = Some v2 ->
  pair_subgroups (heap w) (pk_groups pk) kss ->
  heap w !! default self target = Some (OPairKeys tpk) ->
  exists w',
    PairKeys_fill self current e1 e2 target w = (Ok tt, w')
    /\ heap w'
       = <[default self target :=
             OPairKeys
               (mkPairKeysObj
                  (set_items (pk_base tpk)
                     (write_all (items (pk_base tpk))
                        (pair_values (concat kss) current e1 e2)))
                  (pk_groups tpk) (pk_sf_cache tpk) (Some v1) (Some v2))]> (heap w)
    /\ emitted w' = emitted w
    /\ (forall l, l <> default self target -> heap w' !! l = heap w !! l)
    /\ (forall t, target = Some t -> t <> self ->
                  heap w' !! self = Some (OPairKeys pk)).
Proof.
  intros Hself Hcache Hdict He1 He2 Hg Hvec.
  set (vec := default self target) in *.
  assert (Hne : vec <> c).
  { intros Heq. rewrite Heq, Hdict in Hvec. discriminate. }
  assert (Hlt : (vec < length (heap w))%nat) by (eapply lookup_lt_Some, Hvec).
  eexists. split.
  { unfold PairKeys_fill.
    rewrite (bind_run _ _ _ _ _ (deref_Some _ _ _ Hself)).
    replace (match target with None => self | Some t => t end)
      with vec by (destruct target; reflexivity).
    rewrite Hcache.
    rewrite (bind_run _ _ _ _ _ (sf_cache_lookup_Some _ _ _ _ _ Hdict He1)).
    rewrite (bind_run _ _ _ _ _ (set_edu1_run _ _ _ v1 Hvec)).
    erewrite bind_run.
    2:{ apply (sf_cache_lookup_Some _ c d e2 v2); [|exact He2].
        simpl. rewrite list_lookup_insert_ne by exact Hne. exact Hdict. }
    erewrite bind_run.
    2:{ apply set_edu2_run. simpl. apply list_lookup_insert_eq. exact Hlt. }
    simpl pk_base; simpl pk_groups; simpl pk_sf_cache; simpl pk_edu1.
    cbn [heap emitted]. rewrite list_insert_insert_eq.
    apply (for_each_pair_subgroup_fill (pk_groups pk) kss _ current e1 e2 vec
             (OPairKeys (mkPairKeysObj (pk_base tpk) (pk_groups tpk)
                           (pk_sf_cache tpk) (Some v1) (Some v2)))
             (items (pk_base tpk))).
    - simpl. apply pair_subgroups_insert_vector with (pk := tpk); eassumption.
    - simpl. apply list_lookup_insert_eq. exact Hlt.
    - reflexivity. }
  cbn [heap emitted with_items pk_base pk_groups pk_sf_cache pk_edu1 pk_edu2].
  split; [rewrite list_insert_insert_eq; reflexivity|].
  split; [reflexivity|].
  split.
  { intros l Hl. rewrite !list_lookup_insert_ne by auto. reflexivity. }
  intros t -> Hne'. subst vec. cbn [default].
  rewrite !list_lookup_insert_ne by auto. exact Hself.
Qed.

End PairTarget.

Section Aliasing.
Context `{External}.

(** X16. A pair vector holds its unit vectors by reference: when the
    single-unit vector it has for its first unit is filled again, for
    another unit, the pair vector itself is not written, and yet its
    row now shows the values of the other unit in the first unit's
    columns, between its own pair values and the unchanged values of
    the second unit. *)
Theorem pair_row_reads_through_reference (w : world) (vec v1 v2 : loc)
  (pk : PairKeysObj) (g1 g2 : KeyGroup single_fn) (groups1 groups2 : list loc)
  (kss : list (list (MagicKey single_fn))) (current : DocumentPlus) (e' : EDU) :
  heap w !! vec = Some (OPairKeys pk) ->
  pk_edu1 pk = Some v1 -> pk_edu2 pk = Some v2 -> v1 <> v2 ->
  heap w !! v1 = Some (OSingleEduKeys g1 groups1) ->
  heap w !! v2 = Some (OSingleEduKeys g2 groups2) ->
  single_subgroups (heap w) groups1 kss -> concat kss = keys g1 ->
  NoDup (map name (keys g1)) ->
  exists w',
    SingleEduKeys_fill v1 current e' None w = (Ok tt, w')
    /\ heap w' !! vec = Some (OPairKeys pk)
    /\ PairKeys_csv_values vec w
       = (Ok (MergedKeyGroup_csv_values (pk_base pk)
              ++ MergedKeyGroup_csv_values g1
              ++ MergedKeyGroup_csv_values g2)%list, w)
    /\ PairKeys_csv_values vec w'
       = (Ok (MergedKeyGroup_csv_values (pk_base pk)
              ++ map (fun k => function k current e') (keys g1)
              ++ MergedKeyGroup_csv_values g2)%list, w').
Proof.
  intros Hvec He1 He2 Hne Hv1 Hv2 Hg Hkss Hnd.
  assert (Hne1 : v1 <> vec).
  { intros ->. rewrite Hvec in Hv1. discriminate. }
  assert (Hlt : (v1 < length (heap w))%nat) by (eapply lookup_lt_Some, Hv1).
  eexists. split.
  { apply (SingleEduKeys_fill_run w v1 g1 groups1 kss current e' None
             (OSingleEduKeys g1 groups1) (items g1) Hv1 Hg Hv1 eq_refl). }
  cbn [default with_items].
  set (w' := mkWorld _ _).
  assert (Hvec' : heap w' !! vec = Some (OPairKeys pk)).
  { subst w'. cbn [heap]. rewrite list_lookup_insert_ne by exact Hne1. exact Hvec. }
  split; [exact Hvec'|].
  unfold PairKeys_csv_values.
  split.
  { rewrite (bind_run _ _ _ _ _ (as_PairKeys_run _ _ _ Hvec)), He1, He2.
    rewrite (bind_run _ _ _ _ _ (unit_vector_run _ _ _ _ Hv1)).
    rewrite (bind_run _ _ _ _ _ (unit_vector_run _ _ _ _ Hv2)).
    reflexivity. }
  rewrite (bind_run _ _ _ _ _ (as_PairKeys_run _ _ _ Hvec')), He1, He2.
  erewrite bind_run.
  2:{ apply unit_vector_run. subst w'. cbn [heap].
      apply list_lookup_insert_eq. exact Hlt. }
  erewrite bind_run.
  2:{ apply unit_vector_run. subst w'. cbn [heap].
      rewrite list_lookup_insert_ne by exact Hne. exact Hv2. }
  unfold ret. cbn [fst]. do 4 f_equal.
  unfold MergedKeyGroup_csv_values. rewrite Hkss.
  apply (csv_values_after_write g1 (fun k => function k current e')), Hnd.
Qed.

End Aliasing.

(* ===================================================================== *)
(** * Further properties of the extraction *)
(* ===================================================================== *)

Section Rows.
Context `{External}.

Lemma filled_single_group_values (current : DocumentPlus) (e : EDU) :
  KeyGroup_csv_values (filled_single_group current e)
  = map (fun k => function k current e) single_keys.
Proof.
  apply (csv_values_after_write (KeyGroup_init "single EDU features" single_keys)
           (fun k => function k current e)).
  apply (bool_decide_unpack _). vm_compute. reflexivity.
Qed.

Lemma filled_pair_keys_values (n c : loc) (current : DocumentPlus)
  (e1 e2 : EDU) (v1 v2 : loc) :
  KeyGroup_csv_values (pk_base (filled_pair_keys n c current e1 e2 v1 v2))
  = map (fun k => function k current e1 e2) pair_keys.
Proof.
  apply (csv_values_after_write (KeyGroup_init "pair features" pair_keys)
           (fun k => function k current e1 e2)).
  apply (bool_decide_unpack _). vm_compute. reflexivity.
Qed.

(** The headers and the row of a labelled record. *)
Lemma labelled_row (h : list object) (em : list (loc * loc))
  (current : DocumentPlus) (p : EDU * EDU) (att rl : pyval) (r : loc * loc) :
  labelled h current p att rl r ->
  exists vec,
    h !! fst r = Some (OClassKeyGroup vec att)
    /\ h !! snd r = Some (OClassKeyGroup vec rl)
    /\ PairKeys_csv_headers vec (mkWorld h em)
       = (Ok ["feat_grouping"; "num_edus_between";
              "feat_id_EDU1"; "feat_start_EDU1"; "feat_end_EDU1";
              "word_first_EDU1"; "word_last_EDU1"; "num_tokens_EDU1";
              "feat_id_EDU2"; "feat_start_EDU2"; "feat_end_EDU2";
              "word_first_EDU2"; "word_last_EDU2"; "num_tokens_EDU2"],
          mkWorld h em)
    /\ PairKeys_csv_values vec (mkWorld h em)
       = (Ok [feat_grouping current (fst p) (snd p);
              num_edus_between current (fst p) (snd p);
              feat_id current (fst p); feat_start current (fst p);
              feat_end current (fst p); word_first current (fst p);
              word_last current (fst p); num_tokens current (fst p);
              feat_id current (snd p); feat_start current (snd p);
              feat_end current (snd p); word_first current (snd p);
              word_last current (snd p); num_tokens current (snd p)],
          mkWorld h em).
Proof.
  intros (vec & n & c & v1 & v2 & n1 & n2 & Hr1 & Hr2 & Hvec & Hv1 & Hv2).
  exists vec. split; [exact Hr1|]. split; [exact Hr2|].
  unfold PairKeys_csv_headers, PairKeys_csv_values.
  rewrite !(bind_run _ _ _ _ _
              (as_PairKeys_run (mkWorld h em) vec _ Hvec)).
  cbn [filled_pair_keys pk_edu1 pk_edu2].
  rewrite !(bind_run _ _ _ _ _
              (unit_vector_run (mkWorld h em) v1 _ _ Hv1)).
  rewrite !(bind_run _ _ _ _ _
              (unit_vector_run (mkWorld h em) v2 _ _ Hv2)).
  split; [reflexivity|].
  unfold ret. cbn [fst].
  unfold MergedKeyGroup_csv_values.
  rewrite !filled_single_group_values.
  rewrite (filled_pair_keys_values n c current (fst p) (snd p) v1 v2).
  reflexivity.
Qed.

(** X17. Corpus mode, what a consumer of the records reads: the
    extraction only adds objects to the store, and each yielded record
    is a pair of label holders on one vector whose headers are the
    fourteen column names and whose row is the two pair features of the
    pair, then the six single-unit features of its first unit, then
    those of its second unit; going through the cache gives the values
    the feature functions compute on the units. *)
Theorem corpus_mode_rows (inputs : FeatureInput) (w : world) :
  exists w' x recs,
    extract_pair_features inputs false w = (Ok tt, w')
    /\ heap w' = (heap w ++ x)%list
    /\ emitted w' = (emitted w ++ recs)%list
    /\ length recs = length (corpus_pairs inputs)
    /\ Forall2 (fun kp r =>
                  let current := preprocess inputs (fst kp) in
                  let e1 := fst (snd kp) in
                  let e2 := snd (snd kp) in
                  exists vec att rl,
                    heap w' !! fst r = Some (OClassKeyGroup vec att)
                    /\ heap w' !! snd r = Some (OClassKeyGroup vec rl)
                    /\ PairKeys_csv_headers vec w'
                       = (Ok ["feat_grouping"; "num_edus_between";
                              "feat_id_EDU1"; "feat_start_EDU1"; "feat_end_EDU1";
                              "word_first_EDU1"; "word_last_EDU1";
                              "num_tokens_EDU1";
                              "feat_id_EDU2"; "feat_start_EDU2"; "feat_end_EDU2";
                              "word_first_EDU2"; "word_last_EDU2";
                              "num_tokens_EDU2"], w')
                    /\ PairKeys_csv_values vec w'
                       = (Ok [feat_grouping current e1 e2;
                              num_edus_between current e1 e2;
                              feat_id current e1; feat_start current e1;
                              feat_end current e1; word_first current e1;
                              word_last current e1; num_tokens current e1;
                              feat_id current e2; feat_start current e2;
                              feat_end current e2; word_first current e2;
                              word_last current e2; num_tokens current e2], w'))
         (corpus_pairs inputs) recs.
Proof.
  destruct (corpus_loop inputs (corpus_keys (corpus inputs)) (mkLocals None None) w)
    as (lv' & w' & x & recs & Hrun & Hheap & Hem & Hrecs).
  exists w', x, recs. unfold extract_pair_features.
  rewrite (bind_run _ _ _ _ _ Hrun).
  split; [reflexivity|]. split; [exact Hheap|]. split; [exact Hem|].
  split; [symmetry; eapply Forall2_length, Hrecs|].
  eapply Forall2_impl; [exact Hrecs|].
  intros [k p] r Hl. cbn [fst snd] in *.
  destruct (labelled_row (heap w') (emitted w') _ _ _ _ _ Hl)
    as (vec & Hr1 & Hr2 & Hh & Hv).
  rewrite world_eta in Hh, Hv.
  eexists vec, _, _. split; [exact Hr1|]. split; [exact Hr2|].
  split; [exact Hh|exact Hv].
Qed.

End Rows.

Section Sharing.
Context `{External}.

Lemma unit_vectors_from_app (h x : list object) (c : loc) (d : gmap EDU loc)
  (p : EDU * EDU) (r : loc * loc) :
  unit_vectors_from h c d p r -> unit_vectors_from (h ++ x) c d p r.
Proof.
  intros (vec & pk & att & rl & H1 & H2 & H3 & H4).
  exists vec, pk, att, rl.
  split; [apply lookup_app_l_Some, H1|].
  split; [apply lookup_app_l_Some, H2|].
  split; [apply lookup_app_l_Some, H3|exact H4].
Qed.

(** The loop over the pairs in corpus mode takes the unit vectors of
    every pair vector from the one dictionary. *)
Lemma pair_loop_shares (inputs : FeatureInput) (current : DocumentPlus)
  (relations : gmap (EDU * EDU) string) (c : loc) (d : gmap EDU loc)
  (pairs : list (EDU * EDU)) (lv : locals) (w : world) :
  heap w !! c = Some (ODict d) ->
  Forall (fun p => is_Some (d !! fst p) /\ is_Some (d !! snd p) /\ fst p <> snd p)
    pairs ->
  exists lv' w' x recs,
    for_each_with pairs (pair_body inputs false current relations c) lv w
    = (Ok lv', w')
    /\ heap w' = (heap w ++ x)%list
    /\ emitted w' = (emitted w ++ recs)%list
    /\ Forall2 (unit_vectors_from (heap w') c d) pairs recs.
Proof.
  intros Hc Hpairs. revert lv w Hc.
  induction Hpairs as [|[e1 e2] pairs ([v1 Hv1] & [v2 Hv2] & Hne) Hpairs IH];
    intros lv w Hc.
  - exists lv, w, [], []. simpl. rewrite !app_nil_r. repeat split; auto.
  - simpl in Hv1, Hv2, Hne. cbn [for_each_with].
    rewrite (bind_run _ _ _ _ _
               (pair_body_corpus inputs current relations c d lv e1 e2 v1 v2 w
                  Hc Hv1 Hv2 Hne)).
    match goal with
    | |- context [for_each_with pairs _ ?lv1 ?w1] =>
        destruct (IH lv1 w1) as (lv' & w' & x & recs & Hrun & Hheap & Hem & Hrecs)
    end.
    { cbn [heap]. apply lookup_app_l_Some, Hc. }
    cbn [heap emitted] in Hheap, Hem.
    exists lv', w'. eexists. eexists.
    split; [exact Hrun|].
    split; [rewrite Hheap, <- app_assoc; reflexivity|].
    split; [rewrite Hem, <- app_assoc; reflexivity|].
    simpl. constructor; [|exact Hrecs].
    rewrite Hheap. apply unit_vectors_from_app.
    exists (length (heap w) + 2)%nat,
      (filled_pair_keys (length (heap w)) c current e1 e2 v1 v2),
      (attachment_label relations (e1, e2)), (relation_label relations (e1, e2)).
    cbn [fst snd].
    split; [rewrite lookup_appended; reflexivity|].
    split; [rewrite lookup_appended; reflexivity|].
    split; [rewrite lookup_appended; reflexivity|].
    cbn [filled_pair_keys pk_sf_cache pk_edu1 pk_edu2]. auto.
Qed.

(** One document in corpus mode: all its pair vectors take their unit
    vectors from the cache of the document. *)
Lemma document_body_shares (inputs : FeatureInput) (lv : locals) (k : FileId)
  (w : world) :
  exists lv' w' x recs d,
    document_body inputs false lv k w = (Ok lv', w')
    /\ heap w' = (heap w ++ x)%list
    /\ emitted w' = (emitted w ++ recs)%list
    /\ heap w' !! length (heap w) = Some (ODict d)
    /\ cached (heap w') (length (heap w)) (preprocess inputs k)
         (leaves (rsttree (preprocess inputs k)))
    /\ Forall2 (unit_vectors_from (heap w') (length (heap w)) d)
         (distinct_pairs (leaves (rsttree (preprocess inputs k)))) recs.
Proof.
  unfold document_body. cbn [negb].
  set (current := preprocess inputs k).
  set (edus := leaves (rsttree current)).
  set (relations := simplify_deptree (deptree current)).
  rewrite (bind_run _ _ _ _ _ (alloc_run _ _)).
  destruct (cache_loop inputs current (length (heap w)) edus []
              (mkWorld (heap w ++ [ODict ∅]) (emitted w)))
    as (w1 & Hrun1 & Hcached & Hem1 & Hlen1 & Hold1).
  { exists ∅. split; [cbn [heap]; rewrite lookup_appended_0; reflexivity|].
    intros e He. inversion He. }
  rewrite (bind_run _ _ _ _ _ Hrun1).
  cbn [heap emitted] in Hem1, Hlen1, Hold1. rewrite length_app in Hlen1, Hold1.
  simpl length in Hlen1, Hold1. simpl app in Hcached.
  destruct (extension_of_lookups (heap w) (heap w1)) as (x1 & Hx1).
  { lia. }
  { intros l Hl. rewrite Hold1 by lia. apply lookup_app_l. exact Hl. }
  rewrite pair_loop_skips_self_pairs.
  pose proof Hcached as (d & Hc & Hall).
  destruct (pair_loop_shares inputs current relations (length (heap w)) d
              (distinct_pairs edus) lv w1 Hc)
    as (lv' & w' & x & recs & Hrun & Hheap & Hem & Hrecs).
  { apply Forall_forall. intros [e1 e2] Hin.
    apply elem_of_distinct_pairs in Hin as (He1 & He2 & Hne).
    destruct (Hall e1 He1) as (v1 & n1 & Hv1 & _).
    destruct (Hall e2 He2) as (v2 & n2 & Hv2 & _).
    cbn [fst snd]. rewrite Hv1, Hv2. eauto. }
  exists lv', w', (x1 ++ x)%list, recs, d.
  split; [exact Hrun|].
  split; [rewrite Hheap, Hx1, <- app_assoc; reflexivity|].
  split; [rewrite Hem, Hem1; reflexivity|].
  split; [rewrite Hheap; apply lookup_app_l_Some, Hc|].
  split; [rewrite Hheap; apply cached_app, Hcached|].
  exact Hrecs.
Qed.

(** X18. Corpus mode keeps one single-unit vector per unit and per
    document: the records of a document come in the order of its pairs,
    and the two unit sub-vectors of every pair vector of the document
    are the entries of the document's one cache for the two units, a
    filled single-unit vector each.  So all the pair vectors that have
    a unit in common hold the same vector for it, by reference. *)
Theorem corpus_mode_shares_unit_vectors (inputs : FeatureInput) (w : world) :
  exists w' recss,
    extract_pair_features inputs false w = (Ok tt, w')
    /\ emitted w' = (emitted w ++ concat recss)%list
    /\ Forall2 (fun k recs =>
                  let current := preprocess inputs k in
                  let edus := leaves (rsttree current) in
                  exists c d,
                    heap w' !! c = Some (ODict d)
                    /\ (forall e, e ∈ edus ->
                          exists v n,
                            d !! e = Some v
                            /\ heap w' !! v
                               = Some (filled_single_vector n current e))
                    /\ Forall2 (unit_vectors_from (heap w') c d)
                         (distinct_pairs edus) recs)
         (corpus_keys (corpus inputs)) recss.
Proof.
  unfold extract_pair_features.
  generalize (mkLocals None None) as lv.
  generalize (corpus_keys (corpus inputs)) as ks. intros ks. revert w.
  induction ks as [|k ks IH]; intros w lv.
  - exists w, []. simpl. rewrite app_nil_r. repeat split. constructor.
  - destruct (document_body_shares inputs lv k w)
      as (lv1 & w1 & x1 & recs1 & d & Hrun1 & Hheap1 & Hem1 & Hc & Hcached & Hrecs1).
    destruct (IH w1 lv1) as (w' & recss & Hrun & Hem & Hall).
    destruct (corpus_loop inputs ks lv1 w1) as (lv2 & w2 & x & _ & Hrun2 & Hheap & _).
    assert (Hw : w2 = w').
    { unfold bind in Hrun. rewrite Hrun2 in Hrun. unfold ret in Hrun.
      injection Hrun as Hw. exact Hw. }
    subst w2.
    exists w', (recs1 :: recss). cbn [for_each_with].
    rewrite bind_assoc, (bind_run _ _ _ _ _ Hrun1).
    split; [exact Hrun|].
    split; [rewrite Hem, Hem1; simpl; rewrite <- app_assoc; reflexivity|].
    constructor; [|exact Hall].
    cbn zeta. exists (length (heap w)), d. rewrite Hheap.
    split; [apply lookup_app_l_Some, Hc|].
    split.
    { destruct Hcached as (d' & Hc' & Hunits).
      rewrite Hc in Hc'. injection Hc' as <-.
      intros e He. destruct (Hunits e He) as (v & n & Hv & Hobj).
      exists v, n. split; [exact Hv|apply lookup_app_l_Some, Hobj]. }
    eapply Forall2_impl; [exact Hrecs1|].
    intros p r. apply unit_vectors_from_app.
Qed.

End Sharing.

Section Outcomes.
Context `{External}.

(** X19. Live mode on any corpus: the generator returns normally only
    when no document has two different units, and then yields nothing;
    otherwise it yields exactly one record, the filled pair vector of
    the first pair of the enumeration twice over, and raises
    UnboundLocalError on [pairs_vec].  It never yields a second record
    and never ends with another exception. *)
Theorem live_mode_yields_at_most_one_record (inputs : FeatureInput) (w : world) :
  let run := extract_pair_features inputs true w in
  (corpus_pairs inputs = [] ->
   fst run = Ok tt /\ emitted (snd run) = emitted w)
  /\ (forall kp rest, corpus_pairs inputs = kp :: rest ->
        fst run = Raise (UnboundLocalError "pairs_vec")
        /\ exists vec n c v1 v2,
             emitted (snd run) = (emitted w ++ [(vec, vec)])%list
             /\ heap (snd run) !! vec
                = Some (filled_pair_vector n c (preprocess inputs (fst kp))
                          (fst (snd kp)) (snd (snd kp)) v1 v2))
  /\ (length (emitted (snd run)) <= length (emitted w) + 1)%nat
  /\ (fst run = Ok tt \/ fst run = Raise (UnboundLocalError "pairs_vec")).
Proof.
  intros run. subst run.
  pose proof (live_mode_stops_after_first_record inputs w) as Hrun.
  destruct (corpus_pairs inputs) as [|kp rest].
  - destruct Hrun as (w' & -> & Hem). cbn [fst snd].
    split; [auto|]. split; [intros ? ? [=]|]. split; [rewrite Hem; lia|].
    left. reflexivity.
  - destruct Hrun as (w' & vec & n & c & v1 & v2 & -> & Hem & Hvec). cbn [fst snd].
    split; [intros [=]|].
    split.
    { intros kp' rest' [= <- <-]. split; [reflexivity|].
      exists vec, n, c, v1, v2. auto. }
    split; [rewrite Hem, length_app; simpl; lia|].
    right. reflexivity.
Qed.

Lemma distinct_pairs_nil (edus : list EDU) :
  (forall e1 e2, e1 ∈ edus -> e2 ∈ edus -> e1 = e2) -> distinct_pairs edus = [].
Proof.
  intros Hall. pose proof (elem_of_distinct_pairs edus) as Hmem.
  destruct (distinct_pairs edus) as [|[e1 e2] rest]; [reflexivity|].
  destruct (proj1 (Hmem e1 e2)) as (He1 & He2 & Hne); [left|].
  destruct (Hne (Hall e1 e2 He1 He2)).
Qed.

(** X20. A corpus none of whose documents has two different units (an
    empty corpus, documents of one unit or of none): in live mode as in
    corpus mode the generator returns normally and yields nothing. *)
Theorem extraction_without_pairs (inputs : FeatureInput) (live : bool) (w : world) :
  Forall (fun k => forall e1 e2,
                     e1 ∈ leaves (rsttree (preprocess inputs k)) ->
                     e2 ∈ leaves (rsttree (preprocess inputs k)) -> e1 = e2)
    (corpus_keys (corpus inputs)) ->
  exists w',
    extract_pair_features inputs live w = (Ok tt, w')
    /\ emitted w' = emitted w.
Proof.
  intros Hall.
  assert (Hnil : corpus_pairs inputs = []).
  { unfold corpus_pairs. induction Hall as [|k ks Hk Hall IH]; [reflexivity|].
    cbn [flat_map]. rewrite IH, (distinct_pairs_nil _ Hk). reflexivity. }
  destruct live.
  - pose proof (live_mode_stops_after_first_record inputs w) as Hrun.
    rewrite Hnil in Hrun. exact Hrun.
  - destruct (corpus_loop inputs (corpus_keys (corpus inputs))
                (mkLocals None None) w)
      as (lv' & w' & x & recs & Hrun & _ & Hem & Hrecs).
    fold (corpus_pairs inputs) in Hrecs. rewrite Hnil in Hrecs.
    apply Forall2_nil_inv_l in Hrecs. subst recs.
    exists w'. unfold extract_pair_features.
    rewrite (bind_run _ _ _ _ _ Hrun). split; [reflexivity|].
    rewrite Hem. apply app_nil_r.
Qed.

End Outcomes.

(* ===================================================================== *)
(** * The further properties on the sample document *)
(* ===================================================================== *)

(** A token of the first sample unit. *)
Lemma tokens_are_clean_words_witness :
  "there" ∈ edu_tokens Demo.a
  /\ "there" <> EmptyString
  /\ forall c, In c (list_ascii_of_string "there") ->
               PyStr.isspace c = false /\ PyStr.lower_char c = c.
Proof.
  assert (Hin : "there" ∈ edu_tokens Demo.a).
  { apply list_elem_of_In. vm_compute. right. left. reflexivity. }
  split; [exact Hin|].
  apply (tokens_are_clean_words Demo.a "there" Hin).
Defined.

(** A vocabulary of two names, in its two orders. *)
Lemma dump_vocabulary_order_independent_witness :
  Vocabulary._dump_vocabulary [("there", 1); ("hello", 0)] []
  = Vocabulary._dump_vocabulary [("hello", 0); ("there", 1)] [].
Proof.
  apply dump_vocabulary_order_independent.
  - apply perm_swap.
  - apply (bool_decide_unpack _). vm_compute. reflexivity.
Defined.

(** A line written twice. *)
Lemma dump_line_injective_witness :
  Vocabulary.line_pattern "hello" (PyStr.of_int (0 + 1))
  = Vocabulary.line_pattern "hello" (PyStr.of_int (0 + 1))
  /\ "hello" = "hello" /\ 0 = 0.
Proof.
  split; [reflexivity|].
  apply (dump_line_injective "hello" "hello" 0 0). reflexivity.
Defined.

(** The text sub-group of a fresh single-unit vector, filled in place
    for the first sample unit. *)
Lemma SingleEduSubgroup_fill_then_csv_values_witness :
  exists w' g',
    @SingleEduSubgroup_fill Demo.external 1%nat Demo.current Demo.a None
      Demo.two_vectors = (Ok tt, w')
    /\ heap w' !! 1%nat = Some (OSingleEduSubgroup g')
    /\ KeyGroup_csv_values g' = [VStr "hello"; VStr "there"; VInt 2].
Proof.
  destruct (@SingleEduSubgroup_fill_then_csv_values Demo.external
              Demo.two_vectors 1%nat Demo.current Demo.a
              (KeyGroup_init "Properties of the EDU text itself"
                 (@SingleEduSubgroup_Text_features Demo.external)))
    as (w' & g' & Hrun & Hheap & _ & _ & Hv).
  - reflexivity.
  - apply (bool_decide_unpack _). vm_compute. reflexivity.
  - exists w', g'. split; [exact Hrun|].
    split; [rewrite Hheap; reflexivity|].
    rewrite Hv. vm_compute. reflexivity.
Defined.

(** A fresh single-unit vector, filled for the first sample unit. *)
Lemma SingleEduKeys_fill_then_csv_values_witness :
  exists w' g',
    @SingleEduKeys_fill Demo.external 2%nat Demo.current Demo.a None
      Demo.two_vectors = (Ok tt, w')
    /\ heap w' !! 2%nat = Some (OSingleEduKeys g' [0%nat; 1%nat])
    /\ KeyGroup_csv_values g'
       = [VStr "d1_1"; VInt 0; VInt 15; VStr "hello"; VStr "there"; VInt 2].
Proof.
  destruct (@SingleEduKeys_fill_then_csv_values Demo.external
              Demo.two_vectors 2%nat Demo.current Demo.a
              (KeyGroup_init "single EDU features" (@single_keys Demo.external))
              [0%nat; 1%nat]
              [@SingleEduSubgroup_Meta_features Demo.external;
               @SingleEduSubgroup_Text_features Demo.external])
    as (w' & g' & Hrun & Hheap & _ & _ & _ & _ & Hv).
  - reflexivity.
  - unfold single_subgroups.
    constructor; [eexists; split; reflexivity|].
    constructor; [eexists; split; reflexivity|].
    constructor.
  - reflexivity.
  - apply (bool_decide_unpack _). vm_compute. reflexivity.
  - exists w', g'. split; [exact Hrun|].
    split; [rewrite Hheap; reflexivity|].
    rewrite Hv. vm_compute. reflexivity.
Defined.

(** After the extraction over the sample document, the pair vector of
    [(b, a)] at address 14 filled through the pair vector of [(a, b)]
    at address 9, which stays as it was. *)
Lemma PairKeys_fill_to_target_witness :
  exists w',
    @PairKeys_fill Demo.external 9%nat Demo.current Demo.b Demo.a (Some 14%nat)
      Demo.corpus_run = (Ok tt, w')
    /\ emitted w' = emitted Demo.corpus_run
    /\ heap w' !! 9%nat = heap Demo.corpus_run !! 9%nat.
Proof.
  destruct (@PairKeys_fill_to_target Demo.external Demo.corpus_run 9%nat 0%nat
              (Some 14%nat)
              (filled_pair_keys 7 0 Demo.current Demo.a Demo.b 3 6)
              (filled_pair_keys 12 0 Demo.current Demo.b Demo.a 6 3)
              (<[Demo.b := 6%nat]> (<[Demo.a := 3%nat]> ∅))
              [[meta_fn "feat_grouping" (@feat_grouping Demo.external)];
               [continuous_fn "num_edus_between"
                  (@num_edus_between Demo.external)]]
              Demo.current Demo.b Demo.a 6%nat 3%nat)
    as (w' & Hrun & _ & Hem & Hother & _).
  - vm_compute. reflexivity.
  - reflexivity.
  - vm_compute. reflexivity.
  - vm_compute. reflexivity.
  - vm_compute. reflexivity.
  - unfold pair_subgroups.
    constructor; [eexists; split; [vm_compute; reflexivity|reflexivity]|].
    constructor; [eexists; split; [vm_compute; reflexivity|reflexivity]|].
    constructor.
  - vm_compute. reflexivity.
  - exists w'. split; [exact Hrun|]. split; [exact Hem|].
    apply Hother. discriminate.
Defined.

(** After the extraction over the sample document, the cached vector
    of [a] is filled again, for the unit [c]: the row of the pair
    vector of [(a, b)] now has the values of [c] in the columns of its
    first unit. *)
Lemma pair_row_reads_through_reference_witness :
  exists w',
    @SingleEduKeys_fill Demo.external 3%nat Demo.current Demo.c None
      Demo.corpus_run = (Ok tt, w')
    /\ fst (@PairKeys_csv_values Demo.external 9%nat Demo.corpus_run)
       = Ok [VStr "d1"; VInt 0;
             VStr "d1_1"; VInt 0; VInt 15; VStr "hello"; VStr "there"; VInt 2;
             VStr "d1_2"; VInt 15; VInt 18; VNone; VNone; VInt 0]
    /\ fst (@PairKeys_csv_values Demo.external 9%nat w')
       = Ok [VStr "d1"; VInt 0;
             VStr "d1_3"; VInt 18; VInt 21; VStr "bye"; VStr "bye"; VInt 1;
             VStr "d1_2"; VInt 15; VInt 18; VNone; VNone; VInt 0].
Proof.
  destruct (@pair_row_reads_through_reference Demo.external Demo.corpus_run
              9%nat 3%nat 6%nat
              (filled_pair_keys 7 0 Demo.current Demo.a Demo.b 3 6)
              (filled_single_group Demo.current Demo.a)
              (filled_single_group Demo.current Demo.b)
              [1%nat; 2%nat] [4%nat; 5%nat]
              [@SingleEduSubgroup_Meta_features Demo.external;
               @SingleEduSubgroup_Text_features Demo.external]
              Demo.current Demo.c)
    as (w' & Hrun & _ & Hbefore & Hafter).
  - vm_compute. reflexivity.
  - reflexivity.
  - reflexivity.
  - discriminate.
  - vm_compute. reflexivity.
  - vm_compute. reflexivity.
  - unfold single_subgroups.
    constructor; [eexists; split; [vm_compute; reflexivity|reflexivity]|].
    constructor; [eexists; split; [vm_compute; reflexivity|reflexivity]|].
    constructor.
  - reflexivity.
  - apply (bool_decide_unpack _). vm_compute. reflexivity.
  - exists w'. split; [exact Hrun|].
    rewrite Hbefore, Hafter. split; vm_compute; reflexivity.
Defined.

(** A corpus of one document of one unit, in live mode. *)
Lemma extraction_without_pairs_witness :
  exists w',
    @extract_pair_features Demo.external
      (@mkFeatureInput Demo.external
         (@mkCorpus Demo.external ["d1"] (fun _ => Branch [Leaf Demo.a])) false)
      true Demo.start = (Ok tt, w')
    /\ emitted w' = [].
Proof.
  apply (@extraction_without_pairs Demo.external
           (@mkFeatureInput Demo.external
              (@mkCorpus Demo.external ["d1"] (fun _ => Branch [Leaf Demo.a])) false)
           true Demo.start).
  constructor; [|constructor].
  intros e1 e2 H1 H2.
  change (e1 ∈ [Demo.a]) in H1. change (e2 ∈ [Demo.a]) in H2.
  apply list_elem_of_singleton in H1, H2. congruence.
Defined.
